(** * Spike exchange, event lanes and domain decomposition of the simulator

    A shallow embedding of the simulation driver's core: the communicator
    (connection table, spike exchange, event generation), the per-lane
    event merge of the model, the dry-run transports and the block rule of
    the domain decomposition, with the properties the specification
    states about them.

    Conventions.
    - [cell_gid_type], [cell_lid_type] and the transports' [count_type] are
      32-bit unsigned integers: values are [Z] and every arithmetic
      operation of the source is reduced modulo [2^32] ([wrap32]).
    - [time_type] and the weights are floating-point numbers in the source.
      A time is modelled by the rational [Q] it denotes, and comparisons
      are the rational ones.  What the driver computes, [t_ + t_interval]
      and [min_delay()/2], is rounded to [time_type]: the rounding is the
      parameter [round_time] of the driver.
    - Vectors are lists; an iterator into a vector is the suffix that
      starts at it. *)

From Stdlib Require Import ZArith QArith Qminmax List Permutation Sorted Lia Lqa Floats Uint63.
From stdpp Require Import base list gmap sorting.

Local Open Scope Z_scope.

(** ** Identifiers and the entities exchanged *)

Definition wrap32 (z : Z) : Z := z mod 2 ^ 32.
Definition wrap64 (z : Z) : Z := z mod 2 ^ 64.

(** The reduction of a 32-bit counter that is modelled by a [nat]. *)
Definition wrap32_nat (n : nat) : nat := Z.to_nat (wrap32 (Z.of_nat n)).

Record cell_member_type : Type := mk_member { gid : Z; index : Z }.

Record spike : Type := mk_spike { source : cell_member_type; time : Q }.

Record postsynaptic_spike_event : Type :=
  mk_event { target : Z; event_time : Q; weight : Q }.

Record connection : Type := mk_connection {
  con_source : cell_member_type;
  con_destination : cell_member_type;
  con_weight : Q;
  con_delay : Q;
  con_group_index : nat
}.

(** A gathered vector: the values of all ranks and the partition whose
    entries [r] and [r+1] delimit the values of rank [r]. *)
Record gathered_vector (A : Type) : Type :=
  mk_gathered { values : list A; partition : list nat }.
Arguments mk_gathered {A} _ _.
Arguments values {A} _.
Arguments partition {A} _.

#[global] Instance cell_member_eq_dec : EqDecision cell_member_type.
Proof. solve_decision. Defined.

(** Modelled from the spec: [operator<] of [cell_member_type]
    (common_types.hpp is not part of the sources): endpoints are totally
    ordered lexicographically, first by GID, then by LID. *)
Definition member_ltb (a b : cell_member_type) : bool :=
  (gid a <? gid b) || ((gid a =? gid b) && (index a <? index b)).

Definition member_leb (a b : cell_member_type) : bool := negb (member_ltb b a).

(** Modelled from the spec: [connection::make_event] (connection.hpp is
    not part of the sources): the event derived from a spike and a
    connection is (destination LID, spike time + delay, weight). *)
Definition make_event (c : connection) (s : spike) : postsynaptic_spike_event :=
  mk_event (index (con_destination c)) (time s + con_delay c)%Q (con_weight c).

(** Strict and weak comparison of times as booleans. *)
Definition Qltb (a b : Q) : bool := negb (Qle_bool b a).

(** [std::min(a, b)]: [b] when [b < a], else [a]. *)
Definition std_min (a b : Q) : Q := if Qltb b a then b else a.

(** ** Algorithms of the standard library on sorted ranges

    [std::lower_bound], [std::upper_bound] and [std::equal_range] are
    specified on ranges partitioned with respect to the key: the lower
    bound is the first position whose element is not less than the key,
    the upper bound the first position whose element is greater.  The
    definitions scan for that position; on a partitioned range this is
    the position the binary search returns.  Positions are offsets from
    the start of the range. *)

Section bounds.
Context {A K : Type}.
Variable elem_lt_key : A → K → bool.
Variable key_lt_elem : K → A → bool.

Fixpoint lower_bound (l : list A) (k : K) : nat :=
  match l with
  | [] => 0%nat
  | x :: l' => if elem_lt_key x k then S (lower_bound l' k) else 0%nat
  end.

Fixpoint upper_bound (l : list A) (k : K) : nat :=
  match l with
  | [] => 0%nat
  | x :: l' => if key_lt_elem k x then 0%nat else S (upper_bound l' k)
  end.

Definition equal_range (l : list A) (k : K) : nat * nat :=
  (lower_bound l k, upper_bound l k).
End bounds.

(** [util::subrange_view(v, b, e)]: the elements at positions [b, e). *)
Definition subrange_view {A} (v : list A) (b e : nat) : list A :=
  take (e - b) (drop b v).

(** [std::merge(first1, last1, first2, last2, out, comp)]: an element of
    the second range is taken only when it is strictly less than the head
    of the first. *)
Fixpoint std_merge {A} (comp : A → A → bool) (l1 : list A) : list A → list A :=
  fix merge_aux (l2 : list A) : list A :=
    match l1, l2 with
    | [], _ => l2
    | _, [] => l1
    | a :: l1', b :: l2' =>
        if comp b a then b :: merge_aux l2' else a :: std_merge comp l1' l2
    end.

(** A sequence is sorted by a key taking endpoints when adjacent keys never
    decrease. *)
Definition sorted_by {A} (key : A → cell_member_type) (l : list A) : Prop :=
  Sorted (λ a b, member_leb (key a) (key b) = true) l.


(** [std::sort] and [util::sort_by] leave the order of equivalent elements
    unspecified.  A sort is therefore a parameter of the functions that
    call it; [std_sort_contract] is what the standard guarantees of it. *)
Definition std_sort_contract {A} (lt : A → A → bool) (sort : list A → list A) : Prop :=
  ∀ l, sort l ≡ₚ l ∧ Sorted (λ a b, lt b a = false) (sort l).

(** A reference sort meeting the contract (insertion sort). *)
Fixpoint sort_insert {A} (lt : A → A → bool) (x : A) (l : list A) : list A :=
  match l with
  | [] => [x]
  | y :: l' => if lt x y then x :: y :: l' else y :: sort_insert lt x l'
  end.

Fixpoint insertion_sort {A} (lt : A → A → bool) (l : list A) : list A :=
  match l with
  | [] => []
  | x :: l' => sort_insert lt x (insertion_sort lt l')
  end.

Definition spike_source_lt (a b : spike) : bool := member_ltb (source a) (source b).
Definition event_time_lt (a b : postsynaptic_spike_event) : bool :=
  Qltb (event_time a) (event_time b).

(** ** The distributed transport seen by the communicator

    The communicator is a template over a [CommunicationPolicy]; the
    operations it calls are the fields of this record. *)
Record communication_policy : Type := mk_policy {
  comms_size : nat;
  comms_id : nat;
  comms_min : Q → Q;
  comms_gather_spikes : list spike → gathered_vector spike
}.

(** Per-cell-group lists of events to be delivered. *)
Abbreviation event_queue := (list postsynaptic_spike_event).

(** ** The communicator *)
Module communicator.

Record t : Type := mk {
  num_local_groups_ : nat;
  num_domains_ : nat;
  connections_ : list connection;
  connection_part_ : list nat;
  num_spikes_ : Z
}.

(** [std::numeric_limits<time_type>::max()] is the parameter [time_max]. *)
Definition min_delay (comms_ : communication_policy) (time_max : Q) (c : t) : Q :=
  let local_min :=
    foldl (λ local_min con, std_min local_min (con_delay con)) time_max (connections_ c) in
  comms_min comms_ local_min.

(** [exchange]: sort by source, gather, tally into the 64-bit counter. *)
Definition exchange (comms_ : communication_policy) (sort_spikes : list spike → list spike)
    (c : t) (local_spikes : list spike) : t * gathered_vector spike :=
  let local_spikes := sort_spikes local_spikes in
  let global_spikes := comms_gather_spikes comms_ local_spikes in
  (mk (num_local_groups_ c) (num_domains_ c) (connections_ c) (connection_part_ c)
      (wrap64 (num_spikes_ c + Z.of_nat (length (values global_spikes)))),
   global_spikes).

Definition num_spikes (c : t) : Z := num_spikes_ c.

Definition reset (c : t) : t :=
  mk (num_local_groups_ c) (num_domains_ c) (connections_ c) (connection_part_ c) 0.

(** The two comparators of [spike_pred]. *)
Definition spike_lt_src (spk : spike) (src : cell_member_type) : bool :=
  member_ltb (source spk) src.
Definition src_lt_spike (src : cell_member_type) (spk : spike) : bool :=
  member_ltb src (source spk).

(** Modelled from the spec: [operator<] between a connection and an
    endpoint (connection.hpp is not part of the sources): connections are
    ordered by their source endpoint. *)
Definition con_lt_src (c : connection) (src : cell_member_type) : bool :=
  member_ltb (con_source c) src.
Definition src_lt_con (src : cell_member_type) (c : connection) : bool :=
  member_ltb src (con_source c).

(** [queues[g].push_back(e)].  Indexing past the end of [queues] is
    undefined in the source; the model leaves the queues as they are. *)
Definition push_back_at (queues : list event_queue) (g : nat)
    (e : postsynaptic_spike_event) : list event_queue :=
  alter (λ q, q ++ [e]) g queues.

(** The loop taken when there are fewer connections than spikes: walk
    the connections, [cons] and [spks] being the ranges [cn, cons.end())
    and [sp, spks.end()). *)
Fixpoint events_from_connections (cons : list connection) (spks : list spike)
    (queues : list event_queue) : list event_queue :=
  match cons with
  | [] => queues
  | cn :: cons' =>
      match spks with
      | [] => queues
      | _ :: _ =>
          let sources := equal_range spike_lt_src src_lt_spike spks (con_source cn) in
          let queues' :=
            foldl (λ q s, push_back_at q (con_group_index cn) (make_event cn s))
                  queues (subrange_view spks sources.1 sources.2) in
          events_from_connections cons' (drop sources.1 spks) queues'
      end
  end.

(** The other loop: walk the spikes. *)
Fixpoint events_from_spikes (spks : list spike) (cons : list connection)
    (queues : list event_queue) : list event_queue :=
  match spks with
  | [] => queues
  | sp :: spks' =>
      match cons with
      | [] => queues
      | _ :: _ =>
          let targets := equal_range con_lt_src src_lt_con cons (source sp) in
          let queues' :=
            foldl (λ q c, push_back_at q (con_group_index c) (make_event c sp))
                  queues (subrange_view cons targets.1 targets.2) in
          events_from_spikes spks' (drop targets.1 cons) queues'
      end
  end.

(** The connections and the spikes of source rank [dom]. *)
Definition cons_of (c : t) (dom : nat) : list connection :=
  subrange_view (connections_ c) (connection_part_ c !!! dom) (connection_part_ c !!! S dom).
Definition spks_of (global_spikes : gathered_vector spike) (dom : nat) : list spike :=
  subrange_view (values global_spikes)
    (partition global_spikes !!! dom) (partition global_spikes !!! S dom).

(** The body of the loop over source ranks. *)
Definition events_of_domain (c : t) (global_spikes : gathered_vector spike)
    (queues : list event_queue) (dom : nat) : list event_queue :=
  let cons := cons_of c dom in
  let spks := spks_of global_spikes dom in
  if (length cons <? length spks)%nat
  then events_from_connections cons spks queues
  else events_from_spikes spks cons queues.

Definition make_event_queues (c : t) (global_spikes : gathered_vector spike)
    : list event_queue :=
  let queues := replicate (num_local_groups_ c) [] in
  foldl (events_of_domain c global_spikes) queues (seq 0 (num_domains_ c)).

(** The events the specification asks for in queue [g] from one rank's
    slices: one per pair of a connection of group [g] and a spike with
    the connection's source. *)
Definition pair_events (g : nat) (cons : list connection) (spks : list spike)
    : list postsynaptic_spike_event :=
  flat_map (λ c, if decide (con_group_index c = g)
                 then map (make_event c) (filter (λ s, source s = con_source c) spks)
                 else []) cons.

(** The same pairs enumerated spike by spike. *)
Definition pair_events_by_spike (g : nat) (spks : list spike) (cons : list connection)
    : list postsynaptic_spike_event :=
  flat_map (λ s, map (λ c, make_event c s)
                   (filter (λ c, con_group_index c = g)
                      (filter (λ c, con_source c = source s) cons))) spks.

Definition expected_events (c : t) (global_spikes : gathered_vector spike) (g : nat)
    : list postsynaptic_spike_event :=
  flat_map (λ dom, pair_events g (cons_of c dom) (spks_of global_spikes dom))
           (seq 0 (num_domains_ c)).

End communicator.

(** ** Epochs

    Modelled from the spec: [epoch] (epoch.hpp is not part of the
    sources).  As the driver uses it: an epoch has an [id] and the time
    [tfinal] at which it ends; [advance] moves on to the next epoch. *)
Module epoch.

Record t : Type := mk { id : nat; tfinal : Q }.

Definition advance (e : t) (tuntil : Q) : t := mk (S (id e)) tuntil.

End epoch.

(** ** The local spike store

    Modelled from the spec: the double-buffered spike store behind
    [current_spikes()] and [previous_spikes()] (model.hpp and
    util/double_buffer.hpp are not part of the sources): [exchange] swaps
    the buffer being written with the one being read. *)
Module double_buffer.

Record t : Type := mk { current : list spike; previous : list spike }.

Definition exchange (b : t) : t := mk (previous b) (current b).
Definition insert (b : t) (spikes : list spike) : t := mk (current b ++ spikes) (previous b).
Definition clear_current (b : t) : t := mk [] (previous b).
Definition clear_previous (b : t) : t := mk (current b) [].

End double_buffer.

(** ** The simulation driver *)
Module model.

(** What the driver calls on a cell group.  The groups are opaque to the
    driver; their implementation is a parameter. *)
Record cell_group_ops (G : Type) : Type := mk_ops {
  cg_advance : epoch.t → Q → list event_queue → G → G;
  cg_spikes : G → list spike;
  cg_clear_spikes : G → G;
  cg_reset : G → G
}.
Arguments mk_ops {G} _ _ _ _.
Arguments cg_advance {G} _ _ _ _ _.
Arguments cg_spikes {G} _ _.
Arguments cg_clear_spikes {G} _ _.
Arguments cg_reset {G} _ _.

(** The state of a [model].  The two export callbacks are represented by
    the logs of the vectors they were called with. *)
Record t (G : Type) : Type := mk {
  t_ : Q;
  epoch_ : epoch.t;
  cell_groups_ : list G;
  event_lanes_ : list (list event_queue);
  communicator_ : communicator.t;
  local_spikes_ : double_buffer.t;
  local_export_log : list (list spike);
  global_export_log : list (list spike)
}.
Arguments mk {G} _ _ _ _ _ _ _ _.
Arguments t_ {G} _.
Arguments epoch_ {G} _.
Arguments cell_groups_ {G} _.
Arguments event_lanes_ {G} _.
Arguments communicator_ {G} _.
Arguments local_spikes_ {G} _.
Arguments local_export_log {G} _.
Arguments global_export_log {G} _.

Section driver.
Context {G : Type}.
Variable ops : cell_group_ops G.
Variable comms_ : communication_policy.
Variable sort_spikes : list spike → list spike.
Variable sort_events : list postsynaptic_spike_event → list postsynaptic_spike_event.
(** [std::numeric_limits<time_type>::max()] *)
Variable time_max : Q.
(** The rounding of [time_type], a floating-point type whose definition
    (common_types.hpp) is not part of the sources: [round_time x] is the
    value of [time_type] that the exact result [x] of an operation is
    rounded to.  An overflow, which gives infinity in the source, is
    represented by a value above every finite time. *)
Variable round_time : Q → Q.
(** [communicator_.group_queue_range(i)]: the lanes of group [i]. *)
Variable group_queue_range : nat → nat * nat.

Definition num_groups (m : t G) : nat := length (cell_groups_ m).

Definition num_spikes (m : t G) : Z := communicator.num_spikes (communicator_ m).

(** [event_lanes(epoch_id)] is [event_lanes_[epoch_id%2]]. *)
Definition event_lanes (m : t G) (epoch_id : nat) : list event_queue :=
  event_lanes_ m !!! (epoch_id mod 2)%nat.

Definition set_lane (m : t G) (epoch_id lane : nat) (lf : event_queue) : t G :=
  mk (t_ m) (epoch_ m) (cell_groups_ m)
     (<[(epoch_id mod 2)%nat := <[lane := lf]> (event_lanes m epoch_id)]> (event_lanes_ m))
     (communicator_ m) (local_spikes_ m) (local_export_log m) (global_export_log m).

(** Modelled from the spec: [event_time_less] (event_queue.hpp is not part
    of the sources), the comparison of an event's time with a time by
    which [std::lower_bound] splits a lane. *)
Definition event_time_less (e : postsynaptic_spike_event) (at_time : Q) : bool :=
  Qltb (event_time e) at_time.

(** [merge_events(events, lane)]: sort the new events by time, drop from
    the current lane what lies before the end of the epoch, and merge the
    two by time into the lane of the next epoch. *)
Definition merge_events (events : event_queue) (lane : nat) (m : t G) : t G :=
  let lc := event_lanes m (epoch.id (epoch_ m)) !!! lane in
  let events := sort_events events in
  let pos := lower_bound event_time_less lc (epoch.tfinal (epoch_ m)) in
  let lf := std_merge (λ l r, Qltb (event_time l) (event_time r)) events (drop pos lc) in
  set_lane m (S (epoch.id (epoch_ m))) lane lf.

(** The task [update_cells]: advance every group over the epoch on the
    current lanes and move its spikes to the store.  The groups are taken
    in index order. *)
Definition update_cells (dt : Q) (m : t G) : t G :=
  let lanes := event_lanes m (epoch.id (epoch_ m)) in
  let step := λ (acc : list G * double_buffer.t) (ig : nat * G),
    let r := group_queue_range ig.1 in
    let queues := subrange_view lanes r.1 r.2 in
    let group := cg_advance ops (epoch_ m) dt queues ig.2 in
    (acc.1 ++ [cg_clear_spikes ops group],
     double_buffer.insert acc.2 (cg_spikes ops group)) in
  let r := foldl step ([], local_spikes_ m) (imap pair (cell_groups_ m)) in
  mk (t_ m) (epoch_ m) r.1 (event_lanes_ m) (communicator_ m) r.2
     (local_export_log m) (global_export_log m).

(** The task [exchange]: gather the spikes of the previous epoch, export
    them, turn them into events and merge these into the next lanes. *)
Definition exchange (m : t G) : t G :=
  let local_spikes := double_buffer.previous (local_spikes_ m) in
  let r := communicator.exchange comms_ sort_spikes (communicator_ m) local_spikes in
  let global_spikes := r.2 in
  let m1 := mk (t_ m) (epoch_ m) (cell_groups_ m) (event_lanes_ m) r.1 (local_spikes_ m)
               (local_export_log m ++ [local_spikes])
               (global_export_log m ++ [values global_spikes]) in
  let events := communicator.make_event_queues r.1 global_spikes in
  foldl (λ m i, merge_events (events !!! i) i m) m1 (seq 0 (num_groups m1)).

Definition set_time (m : t G) (now : Q) (e : epoch.t) : t G :=
  mk now e (cell_groups_ m) (event_lanes_ m) (communicator_ m) (local_spikes_ m)
     (local_export_log m) (global_export_log m).

Definition set_local_spikes (m : t G) (b : double_buffer.t) : t G :=
  mk (t_ m) (epoch_ m) (cell_groups_ m) (event_lanes_ m) (communicator_ m) b
     (local_export_log m) (global_export_log m).

(** One pass through the body of the [while] loop of [run]; [tuntil] is
    the local variable of that name. *)
Definition run_step (tfinal dt t_interval tuntil : Q) (m : t G) : t G * Q :=
  let m := set_local_spikes m (double_buffer.exchange (local_spikes_ m)) in
  let m := set_local_spikes m (double_buffer.clear_current (local_spikes_ m)) in
  let m := exchange m in
  let m := update_cells dt m in
  let m := set_time m tuntil (epoch_ m) in
  let tuntil := std_min (round_time (t_ m + t_interval)) tfinal in
  (set_time m (t_ m) (epoch.advance (epoch_ m) tuntil), tuntil).

(** The [while (t_<tfinal)] loop, bounded by [fuel] passes.  Besides the
    state it returns, for every pass, the time at which the pass began
    and the epoch the groups were advanced over. *)
Fixpoint run_loop (fuel : nat) (tfinal dt t_interval tuntil : Q) (m : t G)
    : option (t G * list (Q * epoch.t)) :=
  if Qltb (t_ m) tfinal then
    match fuel with
    | O => None
    | S fuel' =>
        let r := run_step tfinal dt t_interval tuntil m in
        match run_loop fuel' tfinal dt t_interval r.2 r.1 with
        | Some (m', epochs) => Some (m', (t_ m, epoch_ m) :: epochs)
        | None => None
        end
    end
  else Some (m, []).

(** [run(tfinal, dt)]; the time reached is [t_] of the state returned. *)
Definition run (fuel : nat) (tfinal dt : Q) (m : t G) : option (t G * list (Q * epoch.t)) :=
  let t_interval :=
    round_time (communicator.min_delay comms_ time_max (communicator_ m) / 2) in
  let tuntil := std_min (round_time (t_ m + t_interval)) tfinal in
  let m := set_time m (t_ m) (epoch.mk 0 tuntil) in
  match run_loop fuel tfinal dt t_interval tuntil m with
  | Some (m, epochs) =>
      let m := set_local_spikes m (double_buffer.exchange (local_spikes_ m)) in
      Some (exchange m, epochs)
  | None => None
  end.

Definition reset (m : t G) : t G :=
  mk 0%Q (epoch_ m) (map (cg_reset ops) (cell_groups_ m))
     (map (map (λ _, [])) (event_lanes_ m))
     (communicator.reset (communicator_ m))
     (double_buffer.clear_previous (double_buffer.clear_current (local_spikes_ m)))
     (local_export_log m) (global_export_log m).

End driver.
End model.

(** What is used of the rounding of a floating-point format: it is
    monotone, it leaves the values of the format as they are (a rounded
    value rounds to itself), and zero is a value of the format. *)
Definition rounding (round_time : Q → Q) : Prop :=
  (∀ x y, (x <= y)%Q → (round_time x <= round_time y)%Q)
  ∧ (∀ x, (round_time (round_time x) == round_time x)%Q)
  ∧ (round_time 0 == 0)%Q.

(** ** Orders on events used to state the properties *)

(** A lane is sorted by time when no event is earlier than the one before it. *)
Definition sorted_by_time (l : event_queue) : Prop :=
  Sorted (λ a b, event_time_lt b a = false) l.

(** The total order (time, then target LID, then weight) of the
    specification. *)
Definition event_total_lt (a b : postsynaptic_spike_event) : bool :=
  Qltb (event_time a) (event_time b)
  || (Qeq_bool (event_time a) (event_time b)
      && ((target a <? target b)
          || ((target a =? target b) && Qltb (weight a) (weight b)))).

(** Decides whether no element of a sequence is less than the one before it. *)
Fixpoint is_sorted {A} (lt : A → A → bool) (l : list A) : bool :=
  match l with
  | [] => true
  | a :: l' =>
      match l' with
      | [] => true
      | b :: _ => negb (lt b a) && is_sorted lt l'
      end
  end.

(** The sum of the sizes of the vectors gathered. *)
Definition total_gathered (log : list (list spike)) : Z :=
  foldr (λ v n, Z.of_nat (length v) + n) 0 log.

(** ** The dry-run transports *)

(** A spike with its source GID shifted by [d], in 32-bit arithmetic. *)
Definition shift_gid (s : spike) (d : Z) : spike :=
  mk_spike (mk_member (wrap32 (gid (source s) + d)) (index (source s))) (time s).

(** [dry_run_context_impl] (arbor/communication/dry_run_context.cpp).
    [count_type] is a 32-bit unsigned integer, as are [num_ranks_] and
    [num_cells_per_tile_]. *)
Module dry_run_context_impl.

Record t : Type := mk { num_ranks_ : Z; num_cells_per_tile_ : Z }.

Definition gather_spikes (ctx : t) (local_spikes : list spike) : gathered_vector spike :=
  let local_size := wrap32 (Z.of_nat (length local_spikes)) in
  (* append the local spikes once per rank *)
  let gathered_spikes :=
    foldl (λ g (_ : Z), g ++ local_spikes) [] (seqZ 0 (num_ranks_ ctx)) in
  (* shift the GIDs of the copy of rank [i], positions
     [i*local_size, (i+1)*local_size) *)
  let gathered_spikes :=
    foldl (λ g i,
             foldl (λ g j,
                      alter (λ s, shift_gid s (wrap32 (num_cells_per_tile_ ctx * i)))
                            (Z.to_nat j) g)
                   g
                   (seqZ (wrap32 (i * local_size))
                         (wrap32 ((i + 1) * local_size) - wrap32 (i * local_size))))
          gathered_spikes (seqZ 0 (num_ranks_ ctx)) in
  let partition :=
    map (λ i, Z.to_nat (wrap32 (i * local_size))) (seqZ 0 (num_ranks_ ctx + 1)) in
  mk_gathered gathered_spikes partition.

(** [gather_gids]: as [gather_spikes], on GIDs. *)
Definition gather_gids (ctx : t) (local_gids : list Z) : gathered_vector Z :=
  let local_size := wrap32 (Z.of_nat (length local_gids)) in
  let gathered_gids :=
    foldl (λ g (_ : Z), g ++ local_gids) [] (seqZ 0 (num_ranks_ ctx)) in
  let gathered_gids :=
    foldl (λ g i,
             foldl (λ g j,
                      alter (λ x, wrap32 (x + wrap32 (num_cells_per_tile_ ctx * i)))
                            (Z.to_nat j) g)
                   g
                   (seqZ (wrap32 (i * local_size))
                         (wrap32 ((i + 1) * local_size) - wrap32 (i * local_size))))
          gathered_gids (seqZ 0 (num_ranks_ ctx)) in
  let partition :=
    map (λ i, Z.to_nat (wrap32 (i * local_size))) (seqZ 0 (num_ranks_ ctx + 1)) in
  mk_gathered gathered_gids partition.

Definition size (ctx : t) : Z := num_ranks_ ctx.
Definition min (ctx : t) (value : Q) : Q := value.

End dry_run_context_impl.

(** [dryrun_global_policy] (src/communication/dryrun_global_policy.hpp).
    The two globals set by [set_sizes] are the fields of [sizes].  The
    sum [s.source+first_cell] shifts the GID of the source by
    [first_cell]. *)
Module dryrun_global_policy.

Record sizes : Type := set_sizes {
  dryrun_communicator_size : Z;
  dryrun_num_local_cells : Z
}.

Definition size (cfg : sizes) : Z := dryrun_communicator_size cfg.

(** A value-initialised spike. *)
Definition spike_default : spike := mk_spike (mk_member 0 0) 0%Q.

#[global] Instance spike_inhabited : Inhabited spike := populate spike_default.

Definition gather_spikes (cfg : sizes) (local_spikes : list spike) : gathered_vector spike :=
  let num_spikes_local := length local_spikes in
  let num_spikes_global := (Z.to_nat (size cfg) * num_spikes_local)%nat in
  let global_spikes := replicate num_spikes_global spike_default in
  let partition := replicate (Z.to_nat (size cfg + 1)) 0%nat in
  let global_spikes :=
    foldl (λ g rank,
             let first_cell := wrap32 (Z.of_nat rank * dryrun_num_local_cells cfg) in
             let first_spike := (rank * num_spikes_local)%nat in
             foldl (λ g i,
                      <[(first_spike + i)%nat := shift_gid (local_spikes !!! i) first_cell]> g)
                   g (seq 0 num_spikes_local))
          global_spikes (seq 0 (Z.to_nat (size cfg))) in
  mk_gathered global_spikes partition.

Definition min (value : Q) : Q := value.

End dryrun_global_policy.

(** The gathered vector the specification asks of a dry-run transport
    with [n] ranks: the local spikes once per rank [i], their GIDs
    shifted by [i * cells_per_tile], and the partition [0, l, 2l, ...]. *)
Definition replicated_spikes (n : nat) (cells_per_tile : Z) (local_spikes : list spike)
    : gathered_vector spike :=
  mk_gathered
    (flat_map (λ i, map (λ s, mk_spike (mk_member (gid (source s)
                                                    + Z.of_nat i * cells_per_tile)
                                                  (index (source s))) (time s))
                        local_spikes) (seq 0 n))
    (map (λ r, (r * length local_spikes)%nat) (seq 0 (S n))).

(** ** Domain decomposition *)

Inductive cell_kind : Type := cable | lif | spike_source | benchmark.

#[global] Instance cell_kind_eq_dec : EqDecision cell_kind.
Proof. solve_decision. Defined.

(** A gap junction as the load balancer reads it: the peer's location. *)
Record gap_junction_connection : Type := mk_gj { location : cell_member_type }.

(** The queries of a [recipe] that the load balancer makes. *)
Record recipe : Type := mk_recipe {
  num_cells : Z;
  get_cell_kind : Z → cell_kind;
  gap_junctions_on : Z → list gap_junction_connection
}.

(** Modelled from the spec: [util::make_partition] (util/partition.hpp is
    not part of the sources): the divisions of the partition into
    consecutive blocks of the given sizes, starting at [from]; the sums
    are 32-bit. *)
Fixpoint make_partition (from : Z) (sizes : list Z) : list Z :=
  match sizes with
  | [] => [from]
  | s :: sizes' => from :: make_partition (wrap32 (from + s)) sizes'
  end.

(** [partition_load_balance] (unnamed/part_009). *)
Module load_balance.

(** The lambda [dom_size]; the division is that of unsigned integers
    ([num_domains] is not zero). *)
Definition dom_size (num_global_cells num_domains dom : Z) : Z :=
  let B := num_global_cells / num_domains in
  let R := wrap32 (num_global_cells - wrap32 (num_domains * B)) in
  wrap32 (B + (if dom <? R then 1 else 0)).

(** [gid_divisions]: block [d] is [gid_divisions[d], gid_divisions[d+1])]. *)
Definition gid_divisions (num_global_cells num_domains : Z) : list Z :=
  make_partition 0 (map (dom_size num_global_cells num_domains) (seqZ 0 num_domains)).

Definition gid_part (num_global_cells num_domains : Z) (dom : nat) : Z * Z :=
  (gid_divisions num_global_cells num_domains !!! dom,
   gid_divisions num_global_cells num_domains !!! S dom).

(** The body of the loop over the adjacency list of a cell: a peer not
    yet visited is pushed on the queue and marked.  The state is the
    queue and the keys of the map [visited]. *)
Definition enqueue_unvisited (acc : list Z * gset Z) (c : gap_junction_connection)
    : list Z * gset Z :=
  if decide (gid (location c) ∈ acc.2) then acc
  else (acc.1 ++ [gid (location c)], {[gid (location c)]} ∪ acc.2).

(** The [while (!q.empty())] loop of the breadth-first search: [q] is the
    queue, [visited] the keys of the map of that name, [cg] the cells
    collected so far.  [fuel] bounds the number of passes. *)
Fixpoint bfs (fuel : nat) (rec : recipe) (q : list Z) (visited : gset Z) (cg : list Z)
    : option (list Z * gset Z) :=
  match q with
  | [] => Some (cg, visited)
  | element :: q =>
      match fuel with
      | O => None
      | S fuel' =>
          let cg := cg ++ [element] in
          let conns := gap_junctions_on rec element in
          let r := foldl enqueue_unvisited (q, visited) conns in
          bfs fuel' rec r.1 r.2 cg
      end
  end.

(** The state of the loop over the GIDs of this rank's block. *)
Record components : Type := mk_components {
  super_cells : list (list Z);
  reg_cells : list Z;
  visited : gset Z
}.

(** One pass of the loop [for (auto gid: make_span(gid_part[domain_id]))]. *)
Definition visit_gid (fuel : nat) (rec : recipe) (st : components) (gid : Z)
    : option components :=
  if decide (gap_junctions_on rec gid = []) then
    Some (mk_components (super_cells st) (reg_cells st ++ [gid]) (visited st))
  else if decide (gid ∈ visited st) then Some st
  else
    match bfs fuel rec [gid] ({[gid]} ∪ visited st) [] with
    | Some (cg, visited') =>
        Some (mk_components (super_cells st ++ [cg]) (reg_cells st) visited')
    | None => None
    end.

Fixpoint visit_gids (fuel : nat) (rec : recipe) (st : components) (gids : list Z)
    : option components :=
  match gids with
  | [] => Some st
  | gid :: gids' =>
      match visit_gid fuel rec st gid with
      | Some st' => visit_gids fuel rec st' gids'
      | None => None
      end
  end.

(** [std::sort] on a vector of GIDs. *)
Definition sort_gids (cg : list Z) : list Z := merge_sort Z.le cg.

(** The [erase]/[remove_if] step: every super cell is sorted, and those
    whose first element lies below this rank's block are dropped. *)
Definition keep_owned (first : Z) (super_cells : list (list Z)) : list (list Z) :=
  List.filter (λ cg, negb (hd 0 cg <? first)) (map sort_gids super_cells).

(** The check of the kinds of a super cell against the kind of its first
    cell; [false] is the [throw]. *)
Definition same_kinds (rec : recipe) (cg : list Z) : bool :=
  forallb (λ gid, bool_decide (get_cell_kind rec gid = get_cell_kind rec (hd 0 cg))) cg.

Inductive outcome : Type :=
  | arbor_internal_error
  | decomposed (super_cells : list (list Z)) (reg_cells : list Z) (local_gids : list Z).

(** [partition_load_balance] up to the list of local GIDs.  What follows
    in the source (the grouping by kind and size hint, the gather of the
    GIDs) has no failure path.  [None] stands for running out of fuel. *)
Definition partition_load_balance (fuel : nat) (rec : recipe)
    (num_domains : Z) (domain_id : nat) : option outcome :=
  let part := gid_part (num_cells rec) num_domains domain_id in
  match visit_gids fuel rec (mk_components [] [] ∅)
          (seqZ part.1 (part.2 - part.1)) with
  | None => None
  | Some st =>
      let super_cells := keep_owned part.1 (super_cells st) in
      if forallb (same_kinds rec) super_cells
      then Some (decomposed super_cells (reg_cells st)
                   (sort_gids (reg_cells st ++ concat super_cells)))
      else Some arbor_internal_error
  end.

(** Two cells are coupled when one lists the other among its gap
    junctions, and connected when a chain of couplings joins them. *)
Definition coupled (rec : recipe) (a b : Z) : Prop :=
  ∃ c, c ∈ gap_junctions_on rec a ∧ gid (location c) = b.

Definition connected (rec : recipe) : Z → Z → Prop := rtc (coupled rec).

(** The invariant of the breadth-first search from [g], the cells of
    earlier components being [V]. *)
Definition bfs_inv (rec : recipe) (V : gset Z) (g : Z) (q : list Z)
    (visited : gset Z) (cg : list Z) : Prop :=
  visited = V ∪ list_to_set (cg ++ q)
  ∧ NoDup (cg ++ q)
  ∧ g ∈ cg ++ q
  ∧ (∀ x, x ∈ cg ++ q → connected rec g x)
  ∧ (∀ a b, a ∈ cg → coupled rec a b → b ∈ visited).

(** The invariant of the loop over the GIDs of the block [first, last):
    the visited cells are those of the super cells found, every super
    cell is the whole component of a cell of the block, and every cell
    already passed that has gap junctions is visited. *)
Definition comps_inv (rec : recipe) (first last : Z) (processed : list Z)
    (st : components) : Prop :=
  (∀ x, x ∈ visited st ↔ ∃ cg, cg ∈ super_cells st ∧ x ∈ cg)
  ∧ (∀ cg, cg ∈ super_cells st →
       ∃ g, first ≤ g < last ∧ ∀ x, x ∈ cg ↔ connected rec g x)
  ∧ (∀ x, x ∈ processed → gap_junctions_on rec x ≠ [] → x ∈ visited st).

End load_balance.

(** [std::binary_search(first, last, value)]: the lower bound of [value]
    is not the end of the range, and [value] is not less than the element
    there. *)
Definition binary_search (l : list Z) (value : Z) : bool :=
  match l !! lower_bound Z.ltb l value with
  | Some x => negb (value <? x)
  | None => false
  end.

(** The functor [partition_gid_domain] of [partition_load_balance]
    (unnamed/part_009): the gathered list of the GIDs of all ranks and
    the number of ranks. *)
Module partition_gid_domain.

Record t : Type := mk { gid_divisions : gathered_vector Z; num_domains : nat }.

(** The GIDs of rank [i]. *)
Definition rank_gids (p : t) (i : nat) : list Z :=
  subrange_view (values (gid_divisions p))
    (partition (gid_divisions p) !!! i) (partition (gid_divisions p) !!! S i).

(** What a gather returns: one more offset than ranks, the offsets
    ascending and within the values.  Reading [partition()[i]], or the
    range between two offsets, is undefined in the source otherwise. *)
Definition well_formed (p : t) : Prop :=
  length (partition (gid_divisions p)) = S (num_domains p)
  ∧ Sorted le (partition (gid_divisions p))
  ∧ Forall (λ x, (x ≤ length (values (gid_divisions p)))%nat)
      (partition (gid_divisions p)).

(** [operator()]: the first rank whose GIDs hold [gid], or [-1]. *)
Definition call (p : t) (gid : Z) : Z :=
  match List.find (λ i, binary_search (rank_gids p i) gid) (seq 0 (num_domains p)) with
  | Some i => Z.of_nat i
  | None => -1
  end.

End partition_gid_domain.

(** The legacy [domain_decomposition] (unnamed/part_005), whose block
    boundaries are computed in double precision. *)
Module domain_decomposition.

(** Conversion of a non-negative integer below [2^53] to [double]. *)
Definition to_double (n : Z) : float := PrimFloat.of_uint63 (Uint63.of_Z n).

(** The cast [(cell_gid_type)x] of a non-negative [double]: truncation. *)
Definition to_gid (x : float) : Z :=
  match Prim2SF x with
  | S754_finite false m e =>
      if 0 <=? e then Z.shiftl (Z.pos m) e else Z.shiftr (Z.pos m) (- e)
  | _ => 0
  end.

Definition first_cell (num_global_cells_ num_domains_ dom : Z) : Z :=
  to_gid (PrimFloat.mul (to_double num_global_cells_)
            (PrimFloat.div (to_double dom) (to_double num_domains_))).

Definition gid_part_ (num_global_cells_ num_domains_ : Z) : list Z :=
  map (first_cell num_global_cells_ num_domains_) (seqZ 0 (num_domains_ + 1)).

(** [num_local_cells()] of the domain [domain_id_]. *)
Definition num_local_cells (num_global_cells_ num_domains_ : Z) (domain_id_ : nat) : Z :=
  wrap32 (gid_part_ num_global_cells_ num_domains_ !!! S domain_id_
          - gid_part_ num_global_cells_ num_domains_ !!! domain_id_).

(** [gid_domain(gid)]: the position of the upper bound of [gid] in
    [gid_part_], less one. *)
Definition gid_domain (gid_part_ : list Z) (gid : Z) : Z :=
  Z.of_nat (upper_bound (λ k x : Z, k <? x) gid_part_ gid) - 1.

(** [is_local_gid(i)] on the domain [domain_id_]. *)
Definition is_local_gid (gid_part_ : list Z) (domain_id_ : nat) (i : Z) : bool :=
  (gid_part_ !!! domain_id_ <=? i) && (i <? gid_part_ !!! S domain_id_).

End domain_decomposition.

(** The first GID of block [k] under the block rule, in closed form. *)
Definition block_start (num_global_cells num_domains k : Z) : Z :=
  k * (num_global_cells / num_domains) + Z.min k (num_global_cells mod num_domains).

(** The sum of a list of block sizes. *)
Definition sum_sizes (sizes : list Z) : Z := foldr Z.add 0 sizes.

(** Rank [d] owns a cell without gap junctions when the cell is in its
    block, and a cell with gap junctions when the smallest cell of the
    cell's component is in its block. *)
Definition owns (rec : recipe) (num_domains : Z) (d : nat) (g : Z) : Prop :=
  (block_start (num_cells rec) num_domains (Z.of_nat d) ≤ g
     < block_start (num_cells rec) num_domains (Z.of_nat d + 1)
   ∧ gap_junctions_on rec g = [])
  ∨ (gap_junctions_on rec g ≠ []
     ∧ ∃ m, block_start (num_cells rec) num_domains (Z.of_nat d) ≤ m
              < block_start (num_cells rec) num_domains (Z.of_nat d + 1)
            ∧ load_balance.connected rec m g
            ∧ ∀ y, load_balance.connected rec m y → m ≤ y).

(** ** The cell groups of a rank

    The second half of [partition_load_balance] (unnamed/part_009): the
    local cells are listed by kind and cut into groups. *)

Inductive backend_kind : Type := multicore | gpu.

(** Meta data of a local cell group. *)
Record group_description : Type := mk_group {
  group_kind : cell_kind;
  group_gids : list Z;
  group_backend : backend_kind
}.

(** The hint for the groups of a kind. *)
Record partition_hint : Type := mk_hint {
  cpu_group_size : nat;
  gpu_group_size : nat;
  prefer_gpu : bool
}.

Module group_builder.

(** An entry of [kind_lists]: the GID of a regular cell, or the index of
    a super cell in [super_cells]. *)
Record cell_identifier : Type := mk_cell { id : Z; is_super_cell : bool }.

(** [kind_lists[k].push_back(x)] on the map seen as a function of the
    key; a key never written holds the empty vector. *)
Definition push_back_kind (kind_lists : cell_kind → list cell_identifier)
    (k : cell_kind) (x : cell_identifier) : cell_kind → list cell_identifier :=
  λ k', if decide (k' = k) then kind_lists k' ++ [x] else kind_lists k'.

(** The two loops that fill [kind_lists]: the regular cells by their own
    kind, then the super cells by the kind of their first cell. *)
Definition kind_lists (rec : recipe) (super_cells : list (list Z)) (reg_cells : list Z)
    : cell_kind → list cell_identifier :=
  let kl := foldl (λ kl gid, push_back_kind kl (get_cell_kind rec gid) (mk_cell gid false))
                  (λ _, []) reg_cells in
  foldl (λ kl i, push_back_kind kl (get_cell_kind rec (hd 0 (super_cells !!! i)))
                   (mk_cell (Z.of_nat i) true))
        kl (seq 0 (length super_cells)).

(** The backend and the size of the groups of kind [k]. *)
Definition backend_of (hint : partition_hint) (gpu_avail : bool)
    (has_gpu_backend : cell_kind → bool) (k : cell_kind) : backend_kind * nat :=
  if prefer_gpu hint && gpu_avail && has_gpu_backend k
  then (gpu, gpu_group_size hint)
  else (multicore, cpu_group_size hint).

(** One pass of the loop over the cells of a kind: [st] is [groups] and
    [group_elements]. *)
Definition add_cell (super_cells : list (list Z)) (k : cell_kind) (backend : backend_kind)
    (group_size : nat) (st : list group_description * list Z) (cell : cell_identifier)
    : list group_description * list Z :=
  let st :=
    if is_super_cell cell then
      let sc := super_cells !!! Z.to_nat (id cell) in
      let st :=
        if (group_size <? length st.2 + length sc)%nat && negb (bool_decide (st.2 = []))
        then (st.1 ++ [mk_group k st.2 backend], [])
        else st in
      (st.1, st.2 ++ sc)
    else (st.1, st.2 ++ [id cell]) in
  if (group_size <=? length st.2)%nat
  then (st.1 ++ [mk_group k st.2 backend], [])
  else st.

(** The body of the loop over the kinds. *)
Definition add_kind (super_cells : list (list Z))
    (kind_lists : cell_kind → list cell_identifier)
    (hint : cell_kind → partition_hint) (gpu_avail : bool)
    (has_gpu_backend : cell_kind → bool)
    (groups : list group_description) (k : cell_kind) : list group_description :=
  let b := backend_of (hint k) gpu_avail has_gpu_backend k in
  let st := foldl (add_cell super_cells k b.1 b.2) (groups, []) (kind_lists k) in
  if bool_decide (st.2 = []) then st.1 else st.1 ++ [mk_group k st.2 b.1].

(** The groups of a rank.  [kinds] is the vector of that name: the keys
    of [kind_lists] in the order in which the iteration over the
    unordered map and [std::partition] leave them.  [hint k] is the entry
    of [hint_map] for the kind [k], or the default hint when there is
    none. *)
Definition make_groups (rec : recipe) (super_cells : list (list Z)) (reg_cells : list Z)
    (hint : cell_kind → partition_hint) (gpu_avail : bool)
    (has_gpu_backend : cell_kind → bool) (kinds : list cell_kind)
    : list group_description :=
  foldl (add_kind super_cells (kind_lists rec super_cells reg_cells)
           hint gpu_avail has_gpu_backend) [] kinds.

(** The cells an entry of [kind_lists] stands for. *)
Definition cells_of (super_cells : list (list Z)) (cell : cell_identifier) : list Z :=
  if is_super_cell cell then super_cells !!! Z.to_nat (id cell) else [id cell].

(** What is stated of a group of kind [k] cut with the size [group_size]:
    it is not empty, its cells are of its kind, and it holds at most
    [group_size] cells (one cell when [group_size] is zero) unless it is
    a single super cell. *)
Definition group_ok (rec : recipe) (super_cells : list (list Z)) (k : cell_kind)
    (backend : backend_kind) (group_size : nat) (g : group_description) : Prop :=
  group_kind g = k
  ∧ group_backend g = backend
  ∧ group_gids g ≠ []
  ∧ Forall (λ x, get_cell_kind rec x = k) (group_gids g)
  ∧ ((length (group_gids g) ≤ Nat.max 1 group_size)%nat ∨ group_gids g ∈ super_cells).

(** What the loop over the cells of kind [k] expects of an entry of
    [kind_lists[k]]: it stands for at least one cell, all its cells are of
    kind [k], and a super cell is one of [super_cells]. *)
Definition cell_ok (rec : recipe) (super_cells : list (list Z)) (k : cell_kind)
    (cell : cell_identifier) : Prop :=
  cells_of super_cells cell ≠ []
  ∧ Forall (λ x, get_cell_kind rec x = k) (cells_of super_cells cell)
  ∧ (is_super_cell cell = true → cells_of super_cells cell ∈ super_cells).

End group_builder.

(** ** The construction of the communicator

    The constructor of [communicator] (unnamed/part_006).  Of the recipe
    it reads [connections_on]; of the domain decomposition the GIDs of the
    local groups and [gid_domain]. *)

(** A connection as the recipe lists it on its target cell. *)
Record cell_connection : Type := mk_cell_connection {
  cc_source : cell_member_type;
  cc_dest : cell_member_type;
  cc_weight : Q;
  cc_delay : Q
}.

(** Modelled from the spec: [algorithms::make_index] (algorithms.hpp is
    not part of the sources): the offsets of consecutive buckets of the
    given sizes, that is [from] followed by the running sums.  The sums
    are of the type of the sizes, [cell_size_type], and so of 32 bits. *)
Fixpoint make_index (from : nat) (counts : list nat) : list nat :=
  match counts with
  | [] => [from]
  | c :: counts' => from :: make_index (wrap32_nat (from + c)) counts'
  end.

(** Modelled from the spec: [operator<] of connections (connection.hpp is
    not part of the sources): connections are ordered by their source
    endpoint. *)
Definition connection_lt (a b : connection) : bool :=
  member_ltb (con_source a) (con_source b).

Module communicator_ctor.

(** The cache [gid_info] of a local cell. *)
Record gid_info : Type := mk_info {
  info_gid : Z;
  local_group : nat;
  conns : list cell_connection
}.

(** The connection [{c.source, c.dest, c.weight, c.delay, local_group}]. *)
Definition to_connection (local_group : nat) (c : cell_connection) : connection :=
  mk_connection (cc_source c) (cc_dest c) (cc_weight c) (cc_delay c) local_group.

(** A value-initialised connection, as [resize] leaves it. *)
Definition connection_default : connection :=
  mk_connection (mk_member 0 0) (mk_member 0 0) 0%Q 0%Q 0.

#[global] Instance connection_inhabited : Inhabited connection := populate connection_default.

Section ctor.
Variable connections_on : Z → list cell_connection.
(** [dom_dec.get_group(i).gids] for every local group [i] below
    [dom_dec.num_local_groups()], which is a [cell_size_type] already. *)
Variable groups : list (list Z).
(** [dom_dec.gid_domain]. *)
Variable gid_domain : Z → Z.
(** [comms_.size()]. *)
Variable num_domains : nat.
(** [util::sort] on a range of connections. *)
Variable sort_connections : list connection → list connection.

(** The state of the first loop.  [n_cons] is a [cell_local_size_type]
    and the entries of [src_counts] are [cell_size_type]: counters of 32
    bits. *)
Record scan : Type := mk_scan {
  gid_infos : list gid_info;
  n_cons : nat;
  src_domains : list nat;
  src_counts : list nat
}.

(** The body of the loop over the connections of a cell.  The source
    indexes [src_counts] with the rank [gid_domain] returns; a rank that is
    negative or past the last domain is undefined there, and the
    properties below are stated for ranks in range. *)
Definition count_source (acc : list nat * list nat) (con : cell_connection)
    : list nat * list nat :=
  let src := Z.to_nat (gid_domain (gid (cc_source con))) in
  (acc.1 ++ [src], alter (λ n, wrap32_nat (S n)) src acc.2).

(** The body of the loop over the GIDs of the group [i]. *)
Definition scan_gid (i : nat) (st : scan) (gid : Z) : scan :=
  let info := mk_info gid i (connections_on gid) in
  let n_cons := wrap32_nat (n_cons st + length (conns info)) in
  let r := foldl count_source (src_domains st, src_counts st) (conns info) in
  mk_scan (gid_infos st ++ [info]) n_cons r.1 r.2.

Definition scan_groups : scan :=
  foldl (λ st ig, foldl (scan_gid ig.1) st ig.2)
        (mk_scan [] 0 [] (replicate num_domains 0%nat))
        (imap pair groups).

(** The state of the second loop: [connections_], [offsets] (a copy of
    [connection_part_], of 32-bit entries) and [pos]. *)
Record fill : Type := mk_fill {
  fill_connections : list connection;
  offsets : list nat;
  pos : nat
}.

(** The body of the loop over the connections of a cached cell.  The
    source writes [connections_[i]] unchecked; an index past the end is
    undefined there and leaves the table as it is here, and the properties
    below are stated where every index is in range. *)
Definition place (src_domains : list nat) (cell : gid_info) (st : fill)
    (c : cell_connection) : fill :=
  let i := offsets st !!! (src_domains !!! pos st) in
  mk_fill (<[i := to_connection (local_group cell) c]> (fill_connections st))
          (alter (λ n, wrap32_nat (S n)) (src_domains !!! pos st) (offsets st))
          (S (pos st)).

(** The sort of the partition of the domain [i], in place. *)
Definition sort_partition (cp : list nat) (connections_ : list connection) (i : nat)
    : list connection :=
  take (cp !!! i) connections_
  ++ sort_connections (subrange_view connections_ (cp !!! i) (cp !!! S i))
  ++ drop (cp !!! S i) connections_.

(** The constructor. *)
Definition make : communicator.t :=
  let num_local_groups_ := length groups in
  let s := scan_groups in
  let connections_ := replicate (n_cons s) connection_default in
  let connection_part_ := make_index 0 (src_counts s) in
  let f := foldl (λ st cell, foldl (place (src_domains s) cell) st (conns cell))
                 (mk_fill connections_ connection_part_ 0) (gid_infos s) in
  let connections_ :=
    foldl (sort_partition connection_part_) (fill_connections f) (seq 0 num_domains) in
  communicator.mk num_local_groups_ num_domains connections_ connection_part_ 0.

(** The local connections in the order in which the loops meet them,
    each with the index of the group of its target. *)
Definition local_connections : list connection :=
  flat_map (λ ig : nat * list Z,
              flat_map (λ gid, map (to_connection ig.1) (connections_on gid)) ig.2)
           (imap pair groups).

(** The rank of the source of a connection. *)
Definition source_domain (c : connection) : nat :=
  Z.to_nat (gid_domain (gid (con_source c))).

End ctor.
End communicator_ctor.

(** ** Sequence utilities

    [util::max_value] (unnamed/part_004): the maximum of a sequence by
    [cmp], and a value-initialised [Value] for the empty sequence. *)
Definition max_value {V : Type} (value_init : V) (cmp : V → V → bool) (seq : list V) : V :=
  match seq with
  | [] => value_init
  | m :: rest => foldl (λ m x, if cmp m x then x else m) m rest
  end.

(** ** The cell groups of the legacy domain decomposition

    The local load balance in the constructor of the legacy
    [domain_decomposition] (unnamed/part_005): the cells of the block
    [b, e) of the rank are listed by kind; a kind with a GPU
    implementation becomes one group on the GPU when the node has one, and
    every other cell a group of its own on the CPU cores. *)
Module legacy_groups.

(** [has_gpu_backend(k)]: the kind is [cable1d_neuron], which [cable]
    stands for. *)
Definition has_gpu_backend (k : cell_kind) : bool := bool_decide (k = cable).

(** [kind_lists[k].push_back(gid)] on the map seen as a function of the
    key; a key never written holds the empty vector. *)
Definition push_back_gid (kind_lists : cell_kind → list Z) (k : cell_kind) (gid : Z)
    : cell_kind → list Z :=
  λ k', if decide (k' = k) then kind_lists k' ++ [gid] else kind_lists k'.

(** The loop over [make_span(b, e)] that fills [kind_lists]. *)
Definition kind_lists (rec : recipe) (b e : Z) : cell_kind → list Z :=
  foldl (λ kl gid, push_back_gid kl (get_cell_kind rec gid) gid) (λ _, []) (seqZ b (e - b)).

(** The body of the loop over the kinds. *)
Definition add_kind (num_gpus : Z) (kind_lists : cell_kind → list Z)
    (groups_ : list group_description) (k : cell_kind) : list group_description :=
  if negb (num_gpus =? 0) && has_gpu_backend k
  then groups_ ++ [mk_group k (kind_lists k) gpu]
  else foldl (λ groups_ gid, groups_ ++ [mk_group k [gid] multicore]) groups_ (kind_lists k).

(** [groups_] as the constructor leaves it.  [kinds] is the vector of
    that name: the keys of [kind_lists], every key once, in the order in
    which the iteration over the unordered map and [std::partition] leave
    them. *)
Definition groups_ (rec : recipe) (b e : Z) (num_gpus : Z) (kinds : list cell_kind)
    : list group_description :=
  foldl (add_kind num_gpus (kind_lists rec b e)) [] kinds.

End legacy_groups.

(** ** Concrete instances

    Small networks on which the theorems below are instantiated. *)
Module examples.

Definition src (g : Z) : cell_member_type := mk_member g 0.

(** Two source ranks, two local groups: connections from cells 0 and 1
    (rank 0) and from cell 4 (rank 1). *)
Definition comm : communicator.t :=
  communicator.mk 2 2
    [ mk_connection (src 0) (mk_member 10 0) (1 # 2) 2 0;
      mk_connection (src 0) (mk_member 11 3) (1 # 4) 3 1;
      mk_connection (src 1) (mk_member 10 1) 1 2 0;
      mk_connection (src 4) (mk_member 11 2) 1 (5 # 2) 1 ]
    [0; 3; 4]%nat 0.

Definition gathered : gathered_vector spike :=
  mk_gathered
    [ mk_spike (src 0) 1; mk_spike (src 0) (3 # 2); mk_spike (src 1) 1;
      mk_spike (src 2) 1; mk_spike (src 4) 2 ]
    [0; 4; 5]%nat.

(** A communicator without connections. *)
Definition comm_empty : communicator.t := communicator.mk 1 1 [] [0; 0]%nat 0.

(** The transport of a dry run with two ranks of four cells. *)
Definition dry_run : dry_run_context_impl.t := dry_run_context_impl.mk 2 4.

Definition policy : communication_policy :=
  mk_policy 2 0 (dry_run_context_impl.min dry_run)
            (dry_run_context_impl.gather_spikes dry_run).

(** The transport of a dry run with one rank. *)
Definition policy_one : communication_policy :=
  mk_policy 1 0 (dry_run_context_impl.min (dry_run_context_impl.mk 1 4))
            (dry_run_context_impl.gather_spikes (dry_run_context_impl.mk 1 4)).

(** The largest finite value of a single-precision [time_type]. *)
Definition float_max : Q := (2 ^ 24 - 1) * 2 ^ 104.

(** The rounding of a single-precision [time_type]: to the nearest value
    with a significand of 24 bits and an exponent of at least -149, ties
    to the even significand.  A result above [float_max] stands for
    infinity and is [2^128].  Every finite value is a multiple of
    [2^-149], and the rounding is computed in these units. *)

(** The quotient [n / d] rounded to the nearest integer, ties to even. *)
Definition round_nearest_even (n d : Z) : Z :=
  let q := n / d in
  let r := n mod d in
  if 2 * r <? d then q
  else if d <? 2 * r then q + 1
  else if Z.even q then q else q + 1.

(** The quotient [u / d] of [u >= 0] and [d > 0] rounded to the nearest
    integer that has a significand of 24 bits: a multiple of [2^e], where
    [e] is 0 below [2^24] and otherwise such that
    [2^23 <= u / d / 2^e < 2^24]. *)
Definition round_24_bits (u d : Z) : Z :=
  let e := Z.max 0 (Z.log2 (u / d) - 23) in
  round_nearest_even u (d * 2 ^ e) * 2 ^ e.

(** The rounding of [n / d] for positive [n] and [d]: [r] units of
    [2^-149]; the largest finite value is [(2^24 - 1) * 2^253] units. *)
Definition round32_pos (n d : Z) : Q :=
  let r := round_24_bits (n * 2 ^ 149) d in
  if r <=? (2 ^ 24 - 1) * 2 ^ 253 then Qred (Qmake r (2 ^ 149)) else inject_Z (2 ^ 128).

Definition round32 (x : Q) : Q :=
  let x := Qred x in
  match Qnum x with
  | 0 => 0%Q
  | Z.pos n => round32_pos (Z.pos n) (Z.pos (Qden x))
  | Z.neg n => Qopp (round32_pos (Z.pos n) (Z.pos (Qden x)))
  end.

(** A cell group that emits one spike of cell 0 at the end of every epoch
    it is advanced over; its state is its spike buffer. *)
Definition ticker : model.cell_group_ops (list spike) :=
  model.mk_ops (λ e _ _ _, [mk_spike (src 0) (epoch.tfinal e)]) (λ g, g) (λ _, []) (λ _, []).

Definition sort_spikes : list spike → list spike := insertion_sort spike_source_lt.
Definition sort_events : event_queue → event_queue := insertion_sort event_time_lt.
Definition queue_range (i : nat) : nat * nat := (i, S i).

(** A model with one group and one lane per bank. *)
Definition model_of (c : communicator.t) (lane0 lane1 : event_queue) (e : epoch.t)
    : model.t (list spike) :=
  model.mk 0 e [[]] [[lane0]; [lane1]] c (double_buffer.mk [] []) [] [].

Definition ring : communicator.t :=
  communicator.mk 1 2 [mk_connection (src 0) (mk_member 0 0) 1 2 0] [0; 1; 1]%nat 0.

Definition m_ring : model.t (list spike) := model_of ring [] [] (epoch.mk 0 0).
Definition m_empty : model.t (list spike) := model_of comm_empty [] [] (epoch.mk 0 0).

(** Two events at time 5 for targets 0 and 1. *)
Definition ev0 : postsynaptic_spike_event := mk_event 0 5 1.
Definition ev1 : postsynaptic_spike_event := mk_event 1 5 1.

(** Epoch 0 ends at time 1; the current lane holds events at times 1/2,
    5 (target 0) and 7. *)
Definition m_lanes : model.t (list spike) :=
  model_of comm_empty [mk_event 3 (1 # 2) 1; ev0; mk_event 2 7 1] [] (epoch.mk 0 1).

(** Four cells of which 2 and 3 are coupled by a gap junction and differ
    in kind. *)
Definition rec_mixed : recipe :=
  mk_recipe 4
    (λ g, if g =? 3 then lif else cable)
    (λ g, if g =? 2 then [mk_gj (src 3)]
          else if g =? 3 then [mk_gj (src 2)] else []).

Definition local_spikes : list spike := [mk_spike (src 1) 1; mk_spike (src 3) 2].


(** The settings of a legacy dry run: two ranks of four cells. *)
Definition legacy_sizes : dryrun_global_policy.sizes := dryrun_global_policy.set_sizes 2 4.

(** Four cells of one kind of which 2 and 3 are coupled by a gap junction. *)
Definition rec_pair : recipe := mk_recipe 4 (λ _, cable) (gap_junctions_on rec_mixed).

(** The local GIDs, super cells and regular cells of the two ranks that
    decompose [rec_pair]. *)
Definition pair_lgs (d : nat) : list Z := if d is O then [0; 1] else [2; 3].
Definition pair_scs (d : nat) : list (list Z) := if d is O then [] else [[2; 3]].
Definition pair_regs (d : nat) : list Z := if d is O then [0; 1] else [].

(** The GIDs of the two ranks as a gather leaves them. *)
Definition pair_gid_domain : partition_gid_domain.t :=
  partition_gid_domain.mk (mk_gathered [0; 1; 2; 3] [0; 2; 4]%nat) 2.

(** The hint of groups of one cell on the CPU, for every kind. *)
Definition hint_one (k : cell_kind) : partition_hint := mk_hint 1 1 false.

(** The connections a recipe lists on the cells 10 and 11, the two local
    groups of one cell each, and the ranks of the source cells. *)
Definition connections_on (gid : Z) : list cell_connection :=
  if gid =? 10 then [ mk_cell_connection (src 4) (mk_member 10 0) 1 2;
                      mk_cell_connection (src 0) (mk_member 10 1) (1 # 2) 2 ]
  else if gid =? 11 then [ mk_cell_connection (src 1) (mk_member 11 0) 1 3 ]
  else [].
Definition local_groups : list (list Z) := [[10]; [11]].
Definition rank_of_gid (gid : Z) : Z := if gid <? 4 then 0 else 1.
Definition sort_connections : list connection → list connection :=
  insertion_sort connection_lt.

End examples.

(** * Part II: properties of the embedding *)

(** ** Order facts on endpoints *)

Lemma member_ltb_irrefl a : member_ltb a a = false.
Proof.
  unfold member_ltb. rewrite !Z.ltb_irrefl, andb_false_r. reflexivity.
Qed.

Lemma member_ltb_trans a b c :
  member_ltb a b = true → member_ltb b c = true → member_ltb a c = true.
Proof.
  unfold member_ltb. intros H1 H2.
  apply orb_true_iff in H1. apply orb_true_iff in H2. apply orb_true_iff.
  rewrite !andb_true_iff, !Z.ltb_lt, !Z.eqb_eq in *. lia.
Qed.

Lemma member_ltb_asym a b : member_ltb a b = true → member_ltb b a = false.
Proof.
  intros H. destruct (member_ltb b a) eqn:E; [|reflexivity].
  pose proof (member_ltb_trans _ _ _ H E) as C.
  rewrite member_ltb_irrefl in C. discriminate.
Qed.

Lemma member_ltb_total a b :
  member_ltb a b = false → member_ltb b a = false → a = b.
Proof.
  unfold member_ltb. intros H1 H2.
  apply orb_false_iff in H1. apply orb_false_iff in H2.
  rewrite !andb_false_iff, !Z.ltb_ge, !Z.eqb_neq in *.
  destruct a as [ga ia], b as [gb ib]; simpl in *.
  f_equal; lia.
Qed.

Lemma member_leb_lt_trans a b c :
  member_leb a b = true → member_ltb b c = true → member_ltb a c = true.
Proof.
  unfold member_leb. intros H1 H2. apply negb_true_iff in H1.
  destruct (member_ltb a b) eqn:E.
  - eapply member_ltb_trans; eauto.
  - by rewrite (member_ltb_total _ _ E H1).
Qed.

Lemma member_ltb_le_trans a b c :
  member_ltb a b = true → member_leb b c = true → member_ltb a c = true.
Proof.
  unfold member_leb. intros H1 H2. apply negb_true_iff in H2.
  destruct (member_ltb b c) eqn:E.
  - eapply member_ltb_trans; eauto.
  - by rewrite <- (member_ltb_total _ _ E H2).
Qed.

Lemma member_leb_trans a b c :
  member_leb a b = true → member_leb b c = true → member_leb a c = true.
Proof.
  intros H1 H2. unfold member_leb. apply negb_true_iff.
  destruct (member_ltb c a) eqn:E; [|reflexivity].
  pose proof (member_ltb_le_trans _ _ _ E H1) as C.
  unfold member_leb in H2. rewrite C in H2. discriminate.
Qed.

Lemma member_leb_refl a : member_leb a a = true.
Proof. unfold member_leb. by rewrite member_ltb_irrefl. Qed.

Lemma sorted_by_strongly {A} (key : A → cell_member_type) l :
  sorted_by key l → StronglySorted (λ a b, member_leb (key a) (key b) = true) l.
Proof.
  apply Sorted_StronglySorted. intros a b c. apply member_leb_trans.
Qed.

Lemma sorted_by_of_strongly {A} (key : A → cell_member_type) l :
  StronglySorted (λ a b, member_leb (key a) (key b) = true) l → sorted_by key l.
Proof. apply StronglySorted_Sorted. Qed.

(** ** [equal_range] on a sorted range selects the elements with the key *)

Section equal_range_sorted.
Context {A : Type} (key : A → cell_member_type).

Let elem_lt (x : A) (k : cell_member_type) := member_ltb (key x) k.
Let lt_elem (k : cell_member_type) (x : A) := member_ltb k (key x).
Let le := λ a b : A, member_leb (key a) (key b) = true.

Lemma filter_key_above k l :
  Forall (λ x, member_ltb k (key x) = true) l →
  filter (λ x, key x = k) l = [].
Proof.
  induction 1 as [|x l Hx _ IH]; [done|].
  rewrite filter_cons. case_decide as E; [|done].
  rewrite E, member_ltb_irrefl in Hx. discriminate.
Qed.

Lemma filter_key_below k l :
  Forall (λ x, member_ltb (key x) k = true) l →
  filter (λ x, key x = k) l = [].
Proof.
  induction 1 as [|x l Hx _ IH]; [done|].
  rewrite filter_cons. case_decide as E; [|done].
  rewrite E, member_ltb_irrefl in Hx. discriminate.
Qed.

Lemma upper_bound_take k l :
  StronglySorted le l →
  Forall (λ x, member_leb k (key x) = true) l →
  take (upper_bound lt_elem l k) l = filter (λ x, key x = k) l.
Proof.
  induction 1 as [|x l Hs IH Hx]; intros Hge; [done|].
  inversion Hge as [|? ? Hkx Hge']; subst. simpl.
  unfold lt_elem at 1. destruct (member_ltb k (key x)) eqn:E.
  - simpl. symmetry. apply filter_key_above. constructor; [done|].
    eapply Forall_impl; [exact Hx|]. intros y Hy. simpl in Hy.
    eapply member_ltb_le_trans; eauto.
  - assert (key x = k) as Ek.
    { apply member_ltb_total; [|done].
      unfold member_leb in Hkx. by apply negb_true_iff in Hkx. }
    rewrite filter_cons. case_decide; [|done].
    simpl. f_equal. by apply IH.
Qed.

Lemma equal_range_filter k l :
  StronglySorted le l →
  subrange_view l (lower_bound elem_lt l k) (upper_bound lt_elem l k)
  = filter (λ x, key x = k) l.
Proof.
  induction 1 as [|x l Hs IH Hx]; [done|].
  cbn [lower_bound upper_bound].
  unfold elem_lt at 1. destruct (member_ltb (key x) k) eqn:E1.
  - unfold lt_elem at 1. rewrite (member_ltb_asym _ _ E1).
    change (subrange_view l (lower_bound elem_lt l k) (upper_bound lt_elem l k)
            = filter (λ x0, key x0 = k) (x :: l)).
    rewrite IH, filter_cons. case_decide as E; [|done].
    rewrite E, member_ltb_irrefl in E1. discriminate.
  - unfold subrange_view. rewrite Nat.sub_0_r. cbn [drop].
    change (take (upper_bound lt_elem (x :: l) k) (x :: l)
            = filter (λ x0, key x0 = k) (x :: l)).
    apply upper_bound_take; [by constructor|].
    constructor.
    + unfold member_leb. by rewrite E1.
    + eapply Forall_impl; [exact Hx|]. intros y Hy. simpl in Hy.
      eapply member_leb_trans; [|exact Hy]. unfold member_leb. by rewrite E1.
Qed.

Lemma lower_bound_below k l :
  Forall (λ x, member_ltb (key x) k = true) (take (lower_bound elem_lt l k) l).
Proof.
  induction l as [|x l IH]; simpl; [constructor|].
  unfold elem_lt at 1. destruct (member_ltb (key x) k) eqn:E; simpl.
  - constructor; done.
  - constructor.
Qed.

Lemma filter_drop_lower_bound k k' l :
  member_leb k k' = true →
  filter (λ x, key x = k') (drop (lower_bound elem_lt l k) l)
  = filter (λ x, key x = k') l.
Proof.
  intros Hk.
  transitivity (filter (λ x, key x = k')
                  (take (lower_bound elem_lt l k) l ++ drop (lower_bound elem_lt l k) l));
    [|by rewrite take_drop].
  rewrite filter_app.
  assert (filter (λ x, key x = k') (take (lower_bound elem_lt l k) l) = []) as ->;
    [|done].
  apply filter_key_below.
  eapply Forall_impl; [apply lower_bound_below|].
  intros y Hy. simpl in Hy. eapply member_ltb_le_trans; eauto.
Qed.

Lemma sorted_drop n l : StronglySorted le l → StronglySorted le (drop n l).
Proof.
  intros H. revert n. induction H as [|x l Hs IH Hx]; intros [|n]; simpl;
    try constructor; auto.
Qed.
End equal_range_sorted.

(** ** Event generation: [make_event_queues] *)

Import communicator.

Lemma fmap_app_nil {A} (o : option (list A)) : (λ q, q ++ []) <$> o = o.
Proof. destruct o; simpl; [by rewrite app_nil_r|done]. Qed.

Lemma foldl_push_back_lookup {B} (grp : B → nat) (f : B → postsynaptic_spike_event)
    (l : list B) (queues : list event_queue) (g : nat) :
  foldl (λ q x, push_back_at q (grp x) (f x)) queues l !! g
  = (λ q, q ++ map f (filter (λ x, grp x = g) l)) <$> queues !! g.
Proof.
  revert queues. induction l as [|x l IH]; intros queues; simpl.
  - by rewrite fmap_app_nil.
  - rewrite IH. unfold push_back_at. rewrite filter_cons.
    destruct (decide (grp x = g)) as [->|Hne].
    + rewrite list_lookup_alter_eq. destruct (queues !! g); simpl; [|done].
      by rewrite <- app_assoc.
    + by rewrite list_lookup_alter_ne.
Qed.

Lemma filter_const_group {B} (g0 g : nat) (l : list B) :
  filter (λ _ : B, g0 = g) l = if decide (g0 = g) then l else [].
Proof.
  induction l as [|x l IH]; [by destruct (decide _)|].
  rewrite filter_cons, IH. by destruct (decide (g0 = g)).
Qed.

Lemma pair_events_nil g cons : pair_events g cons [] = [].
Proof.
  unfold pair_events. induction cons as [|c cons IH]; [done|].
  cbn [flat_map]. rewrite IH. by destruct (decide _).
Qed.

Lemma pair_events_by_spike_nil g spks : pair_events_by_spike g spks [] = [].
Proof.
  unfold pair_events_by_spike. induction spks as [|s spks IH]; [done|].
  cbn [flat_map]. by rewrite IH.
Qed.

Lemma pair_events_drop g k cons spks :
  Forall (λ c, member_leb k (con_source c) = true) cons →
  pair_events g cons (drop (lower_bound spike_lt_src spks k) spks)
  = pair_events g cons spks.
Proof.
  unfold pair_events. induction 1 as [|c cons Hc _ IH]; [done|].
  cbn [flat_map]. rewrite IH. destruct (decide _); [|done].
  unfold spike_lt_src.
  by rewrite (filter_drop_lower_bound source k (con_source c) spks Hc).
Qed.

Lemma pair_events_by_spike_drop g k spks cons :
  Forall (λ s, member_leb k (source s) = true) spks →
  pair_events_by_spike g spks (drop (lower_bound con_lt_src cons k) cons)
  = pair_events_by_spike g spks cons.
Proof.
  unfold pair_events_by_spike. induction 1 as [|s spks Hs _ IH]; [done|].
  cbn [flat_map]. rewrite IH. unfold con_lt_src.
  by rewrite (filter_drop_lower_bound con_source k (source s) cons Hs).
Qed.

Lemma events_from_connections_lookup cons spks queues g :
  StronglySorted (λ a b, member_leb (con_source a) (con_source b) = true) cons →
  StronglySorted (λ a b, member_leb (source a) (source b) = true) spks →
  events_from_connections cons spks queues !! g
  = (λ q, q ++ pair_events g cons spks) <$> queues !! g.
Proof.
  intros Hc. revert spks queues.
  induction Hc as [|cn cons Hc IH Hcn]; intros spks queues Hs.
  - simpl. by rewrite fmap_app_nil.
  - destruct spks as [|s0 spks0].
    + cbn [events_from_connections]. by rewrite pair_events_nil, fmap_app_nil.
    + remember (s0 :: spks0) as spks eqn:Espks.
      assert (events_from_connections (cn :: cons) spks queues
              = events_from_connections cons
                  (drop (lower_bound spike_lt_src spks (con_source cn)) spks)
                  (foldl (λ q s, push_back_at q (con_group_index cn) (make_event cn s))
                     queues
                     (subrange_view spks
                        (lower_bound spike_lt_src spks (con_source cn))
                        (upper_bound src_lt_spike spks (con_source cn))))) as ->.
      { rewrite Espks. reflexivity. }
      rewrite IH by (by apply (sorted_drop source)).
      rewrite (foldl_push_back_lookup (λ _, con_group_index cn)).
      rewrite pair_events_drop by exact Hcn.
      unfold spike_lt_src, src_lt_spike.
      rewrite (equal_range_filter source (con_source cn) spks Hs).
      rewrite filter_const_group.
      destruct (queues !! g) as [q|]; simpl; [|done].
      f_equal. rewrite <- app_assoc. f_equal.
      unfold pair_events at 2. simpl. by destruct (decide _).
Qed.

Lemma events_from_spikes_lookup spks cons queues g :
  StronglySorted (λ a b, member_leb (source a) (source b) = true) spks →
  StronglySorted (λ a b, member_leb (con_source a) (con_source b) = true) cons →
  events_from_spikes spks cons queues !! g
  = (λ q, q ++ pair_events_by_spike g spks cons) <$> queues !! g.
Proof.
  intros Hs. revert cons queues.
  induction Hs as [|sp spks Hs IH Hsp]; intros cons queues Hc.
  - simpl. by rewrite fmap_app_nil.
  - destruct cons as [|c0 cons0].
    + cbn [events_from_spikes]. by rewrite pair_events_by_spike_nil, fmap_app_nil.
    + remember (c0 :: cons0) as cons eqn:Econs.
      assert (events_from_spikes (sp :: spks) cons queues
              = events_from_spikes spks
                  (drop (lower_bound con_lt_src cons (source sp)) cons)
                  (foldl (λ q c, push_back_at q (con_group_index c) (make_event c sp))
                     queues
                     (subrange_view cons
                        (lower_bound con_lt_src cons (source sp))
                        (upper_bound src_lt_con cons (source sp))))) as ->.
      { rewrite Econs. reflexivity. }
      rewrite IH by (by apply (sorted_drop con_source)).
      rewrite (foldl_push_back_lookup con_group_index (λ c, make_event c sp)).
      rewrite pair_events_by_spike_drop by exact Hsp.
      unfold con_lt_src, src_lt_con.
      rewrite (equal_range_filter con_source (source sp) cons Hc).
      destruct (queues !! g) as [q|]; simpl; [|done].
      f_equal. by rewrite <- app_assoc.
Qed.

Lemma flat_map_app_perm {A B} (f h : A → list B) (l : list A) :
  flat_map (λ x, f x ++ h x) l ≡ₚ flat_map f l ++ flat_map h l.
Proof.
  induction l as [|x l IH]; [done|].
  cbn [flat_map]. rewrite IH, <- !app_assoc.
  apply Permutation_app_head.
  rewrite !app_assoc. apply Permutation_app_tail, Permutation_app_comm.
Qed.

Lemma pair_events_of_one g c spks :
  flat_map (λ s, if decide (con_source c = source s)
                 then if decide (con_group_index c = g) then [make_event c s] else []
                 else []) spks
  = (if decide (con_group_index c = g)
     then map (make_event c) (filter (λ s, source s = con_source c) spks)
     else []).
Proof.
  induction spks as [|s spks IH]; [by destruct (decide _)|].
  cbn [flat_map]. rewrite IH, filter_cons.
  destruct (decide (con_group_index c = g)); repeat case_decide; try done; congruence.
Qed.

Lemma pair_events_perm g cons spks :
  pair_events g cons spks ≡ₚ pair_events_by_spike g spks cons.
Proof.
  induction cons as [|c cons IH].
  - by rewrite pair_events_by_spike_nil.
  - unfold pair_events. cbn [flat_map]. fold (pair_events g cons spks).
    rewrite IH, <- pair_events_of_one.
    unfold pair_events_by_spike. rewrite <- flat_map_app_perm.
    assert (∀ l1 l2 : list postsynaptic_spike_event, l1 = l2 → l1 ≡ₚ l2) as Heq
      by (by intros ? ? ->).
    apply Heq, flat_map_ext. intros s.
    rewrite filter_cons. case_decide; [|done].
    rewrite filter_cons. by case_decide.
Qed.

Lemma lookup_fmap_length {A} (l1 l2 : list A) (f : nat → A → A) :
  (∀ g, l1 !! g = f g <$> l2 !! g) → length l1 = length l2.
Proof.
  intros H.
  destruct (Nat.lt_trichotomy (length l1) (length l2)) as [Hlt|[Heq|Hgt]]; [|done|].
  - pose proof (H (length l1)) as E.
    rewrite (lookup_ge_None_2 l1) in E by lia.
    destruct (lookup_lt_is_Some_2 l2 (length l1) Hlt) as [x Hx].
    rewrite Hx in E. discriminate.
  - pose proof (H (length l2)) as E.
    rewrite (lookup_ge_None_2 l2 (length l2)) in E by lia.
    destruct (lookup_lt_is_Some_2 l1 (length l2) Hgt) as [x Hx].
    rewrite Hx in E. discriminate.
Qed.

(** Over any list of source ranks whose slices are sorted, the loop of
    [make_event_queues] appends to queue [g] a permutation of the pairs'
    events. *)
Lemma make_event_queues_loop (c : communicator.t) (gs : gathered_vector spike)
    (doms : list nat) (queues : list event_queue) (g : nat) :
  Forall (λ dom, sorted_by con_source (cons_of c dom)
                 ∧ sorted_by source (spks_of gs dom)) doms →
  ∃ new,
    foldl (events_of_domain c gs) queues doms !! g
    = (λ q, q ++ new) <$> queues !! g
    ∧ new ≡ₚ flat_map (λ dom, pair_events g (cons_of c dom) (spks_of gs dom)) doms.
Proof.
  intros H. revert queues. induction H as [|dom doms [Hc Hs] _ IH]; intros queues.
  - exists []. simpl. by rewrite fmap_app_nil.
  - apply sorted_by_strongly in Hc. apply sorted_by_strongly in Hs.
    cbn [foldl flat_map]. unfold events_of_domain at 2.
    destruct (length (cons_of c dom) <? length (spks_of gs dom))%nat.
    + destruct (IH (events_from_connections (cons_of c dom) (spks_of gs dom) queues))
        as (new & E & P).
      exists (pair_events g (cons_of c dom) (spks_of gs dom) ++ new). split.
      * rewrite E, events_from_connections_lookup by done.
        destruct (queues !! g); simpl; [|done]. by rewrite app_assoc.
      * by rewrite P.
    + destruct (IH (events_from_spikes (spks_of gs dom) (cons_of c dom) queues))
        as (new & E & P).
      exists (pair_events_by_spike g (spks_of gs dom) (cons_of c dom) ++ new). split.
      * rewrite E, events_from_spikes_lookup by done.
        destruct (queues !! g); simpl; [|done]. by rewrite app_assoc.
      * by rewrite P, <- pair_events_perm.
Qed.

(** C2: with every source-rank slice of the gathered spikes and of the
    connection table sorted by source endpoint, [make_event_queues]
    returns one queue per local cell group, and queue [g] holds, up to
    order, exactly one event [make_event c s] for every pair of a
    connection [c] of group [g] in a rank partition and a spike [s] of
    the matching slice with the same source, and nothing else. *)
Theorem make_event_queues_pairs (c : communicator.t) (gs : gathered_vector spike) :
  (∀ dom, (dom < num_domains_ c)%nat →
     sorted_by con_source (cons_of c dom) ∧ sorted_by source (spks_of gs dom)) →
  length (make_event_queues c gs) = num_local_groups_ c
  ∧ ∀ g, (g < num_local_groups_ c)%nat →
      ∃ q, make_event_queues c gs !! g = Some q ∧ q ≡ₚ expected_events c gs g.
Proof.
  intros Hsorted.
  assert (Forall (λ dom, sorted_by con_source (cons_of c dom)
                         ∧ sorted_by source (spks_of gs dom))
                 (seq 0 (num_domains_ c))) as HF.
  { apply Forall_forall. intros dom Hin. apply Hsorted.
    apply list_elem_of_In, in_seq in Hin. lia. }
  split.
  - unfold make_event_queues.
    rewrite <- (length_replicate (num_local_groups_ c) ([] : event_queue)) at 2.
    generalize (replicate (num_local_groups_ c) ([] : event_queue)) as queues.
    induction HF as [|dom doms [Hc Hs] _ IH]; intros queues; [done|].
    cbn [foldl]. rewrite IH. unfold events_of_domain.
    apply sorted_by_strongly in Hc. apply sorted_by_strongly in Hs.
    destruct (length (cons_of c dom) <? length (spks_of gs dom))%nat.
    + apply (lookup_fmap_length _ _
               (λ g q, q ++ pair_events g (cons_of c dom) (spks_of gs dom))).
      intros g. by apply events_from_connections_lookup.
    + apply (lookup_fmap_length _ _
               (λ g q, q ++ pair_events_by_spike g (spks_of gs dom) (cons_of c dom))).
      intros g. by apply events_from_spikes_lookup.
  - intros g Hg.
    destruct (make_event_queues_loop c gs (seq 0 (num_domains_ c))
                (replicate (num_local_groups_ c) []) g HF) as (new & E & P).
    exists new. split; [|exact P].
    unfold make_event_queues. rewrite E.
    by rewrite lookup_replicate_2.
Qed.

(** C3: on a sorted connection partition and a sorted spike slice the two
    merge directions (walking the connections with [equal_range] over the
    spikes, or walking the spikes with [equal_range] over the
    connections) append to every queue the same multiset of events. *)
Theorem merge_directions_same_events (cons : list connection) (spks : list spike)
    (queues : list event_queue) (g : nat) :
  sorted_by con_source cons → sorted_by source spks → (g < length queues)%nat →
  ∃ q new1 new2,
    queues !! g = Some q
    ∧ events_from_connections cons spks queues !! g = Some (q ++ new1)
    ∧ events_from_spikes spks cons queues !! g = Some (q ++ new2)
    ∧ new1 ≡ₚ new2.
Proof.
  intros Hc Hs Hg.
  apply sorted_by_strongly in Hc. apply sorted_by_strongly in Hs.
  destruct (lookup_lt_is_Some_2 queues g Hg) as [q Hq].
  exists q, (pair_events g cons spks), (pair_events_by_spike g spks cons).
  split; [done|].
  rewrite events_from_connections_lookup, events_from_spikes_lookup by done.
  rewrite Hq. repeat split. apply pair_events_perm.
Qed.

(** ** Sorting and merging *)

Lemma Qltb_lt a b : Qltb a b = true ↔ (a < b)%Q.
Proof.
  unfold Qltb. rewrite negb_true_iff. split.
  - intros H. apply Qnot_le_lt. intros C. apply Qle_bool_iff in C. congruence.
  - intros H. destruct (Qle_bool b a) eqn:E; [|done].
    apply Qle_bool_iff in E. exfalso. eapply Qlt_not_le; eauto.
Qed.

Lemma Qltb_ge a b : Qltb a b = false ↔ (b <= a)%Q.
Proof.
  unfold Qltb. rewrite negb_false_iff. apply Qle_bool_iff.
Qed.

Lemma is_sorted_Sorted {A} (lt : A → A → bool) l :
  is_sorted lt l = true ↔ Sorted (λ a b, lt b a = false) l.
Proof.
  induction l as [|a l IH]; [by split; [constructor|]|].
  destruct l as [|b l].
  - split; [by repeat constructor|done].
  - change (is_sorted lt (a :: b :: l)) with (negb (lt b a) && is_sorted lt (b :: l)).
    rewrite andb_true_iff, negb_true_iff, IH. split.
    + intros [H1 H2]. constructor; [exact H2|]. constructor. exact H1.
    + intros H. inversion H as [|? ? H2 H1]; subst. inversion H1; subst. done.
Qed.

Lemma std_merge_nil_l {A} (comp : A → A → bool) l : std_merge comp [] l = l.
Proof. by destruct l. Qed.

Lemma std_merge_nil_r {A} (comp : A → A → bool) l : std_merge comp l [] = l.
Proof. by destruct l. Qed.

Lemma std_merge_cons {A} (comp : A → A → bool) a l1 b l2 :
  std_merge comp (a :: l1) (b :: l2)
  = if comp b a then b :: std_merge comp (a :: l1) l2
    else a :: std_merge comp l1 (b :: l2).
Proof. reflexivity. Qed.

Lemma std_merge_perm {A} (comp : A → A → bool) l1 l2 :
  std_merge comp l1 l2 ≡ₚ l1 ++ l2.
Proof.
  revert l2. induction l1 as [|a l1 IH1]; intros l2.
  - by rewrite std_merge_nil_l.
  - induction l2 as [|b l2 IH2].
    + by rewrite std_merge_nil_r, app_nil_r.
    + rewrite std_merge_cons. destruct (comp b a).
      * rewrite IH2. by rewrite (Permutation_middle (a :: l1) l2 b).
      * by rewrite IH1.
Qed.

Section merge_sorted.
Context {A : Type} (lt : A → A → bool).
Hypothesis lt_asym : ∀ a b, lt a b = true → lt b a = false.

Let le := λ a b : A, lt b a = false.

Lemma std_merge_HdRel x l1 l2 :
  HdRel le x l1 → HdRel le x l2 → HdRel le x (std_merge lt l1 l2).
Proof.
  destruct l1 as [|a l1], l2 as [|b l2]; try done.
  intros H1 H2. rewrite std_merge_cons.
  inversion H1; inversion H2; subst. destruct (lt b a); by constructor.
Qed.

Lemma std_merge_sorted l1 l2 :
  Sorted le l1 → Sorted le l2 → Sorted le (std_merge lt l1 l2).
Proof.
  intros H1. revert l2. induction H1 as [|a l1 Hs1 IH1 Hh1]; intros l2 H2.
  - by rewrite std_merge_nil_l.
  - induction H2 as [|b l2 Hs2 IH2 Hh2].
    + rewrite std_merge_nil_r. by constructor.
    + rewrite std_merge_cons. destruct (lt b a) eqn:E.
      * constructor; [exact IH2|].
        apply std_merge_HdRel; [|done]. constructor. by apply lt_asym.
      * constructor; [apply IH1; by constructor|].
        apply std_merge_HdRel; [done|]. by constructor.
Qed.
End merge_sorted.

Section lower_bound_split.
Context {A K : Type} (elem_lt_key : A → K → bool).

Lemma lower_bound_prefix l k :
  Forall (λ x, elem_lt_key x k = true) (take (lower_bound elem_lt_key l k) l).
Proof.
  induction l as [|x l IH]; simpl; [constructor|].
  destruct (elem_lt_key x k) eqn:E; simpl; by constructor.
Qed.

Lemma lower_bound_head l k x rest :
  drop (lower_bound elem_lt_key l k) l = x :: rest → elem_lt_key x k = false.
Proof.
  induction l as [|y l IH]; simpl; [done|].
  destruct (elem_lt_key y k) eqn:E; simpl; [done|].
  intros [= -> _]. done.
Qed.
End lower_bound_split.

Lemma Sorted_drop {A} (R : A → A → Prop) n l : Sorted R l → Sorted R (drop n l).
Proof.
  revert l. induction n as [|n IH]; intros l H; [done|].
  destruct H; [constructor|]. simpl. by apply IH.
Qed.

Lemma event_time_lt_asym a b : event_time_lt a b = true → event_time_lt b a = false.
Proof.
  unfold event_time_lt. rewrite Qltb_lt, Qltb_ge. apply Qlt_le_weak.
Qed.

Lemma sorted_by_time_strongly l :
  sorted_by_time l → StronglySorted (λ a b, event_time_lt b a = false) l.
Proof.
  apply Sorted_StronglySorted. intros a b c. unfold event_time_lt.
  rewrite !Qltb_ge. apply Qle_trans.
Qed.

Lemma std_sort_contract_nil {A} (lt : A → A → bool) sort :
  std_sort_contract lt sort → sort [] = [].
Proof. intros H. destruct (H []) as [P _]. by apply Permutation_nil_r in P. Qed.

(** ** The per-lane event merge of the driver *)

Lemma event_lanes_set_lane {G} (m : model.t G) epoch_id lane lf :
  (epoch_id mod 2 < length (model.event_lanes_ m))%nat →
  (lane < length (model.event_lanes m epoch_id))%nat →
  model.event_lanes (model.set_lane m epoch_id lane lf) epoch_id !!! lane = lf.
Proof.
  intros H1 H2. unfold model.event_lanes at 1, model.set_lane. simpl.
  rewrite list_lookup_total_insert_eq by done.
  by rewrite list_lookup_total_insert_eq.
Qed.

(** The lane written by [merge_events], in terms of the lane read. *)
Lemma merge_events_lane {G} sort_events (m : model.t G) events lane :
  (S (epoch.id (model.epoch_ m)) mod 2 < length (model.event_lanes_ m))%nat →
  (lane < length (model.event_lanes m (S (epoch.id (model.epoch_ m)))))%nat →
  model.event_lanes (model.merge_events sort_events events lane m)
      (S (epoch.id (model.epoch_ m))) !!! lane
  = std_merge event_time_lt (sort_events events)
      (drop (lower_bound model.event_time_less
               (model.event_lanes m (epoch.id (model.epoch_ m)) !!! lane)
               (epoch.tfinal (model.epoch_ m)))
            (model.event_lanes m (epoch.id (model.epoch_ m)) !!! lane)).
Proof.
  intros H1 H2. unfold model.merge_events. cbv zeta.
  by rewrite event_lanes_set_lane.
Qed.

(** X3: what [merge_events] does guarantee of the order (the part of C4
    that holds): after a merge the lane of the next epoch is sorted by time,
    given that the current lane is; events of equal time are left in the
    order in which [std::sort] and [std::merge] put them. *)
Theorem merge_events_sorted_by_time {G} sort_events (m : model.t G) events lane :
  std_sort_contract event_time_lt sort_events →
  (S (epoch.id (model.epoch_ m)) mod 2 < length (model.event_lanes_ m))%nat →
  (lane < length (model.event_lanes m (S (epoch.id (model.epoch_ m)))))%nat →
  sorted_by_time (model.event_lanes m (epoch.id (model.epoch_ m)) !!! lane) →
  sorted_by_time
    (model.event_lanes (model.merge_events sort_events events lane m)
       (S (epoch.id (model.epoch_ m))) !!! lane).
Proof.
  intros Hsort H1 H2 Hlc. rewrite merge_events_lane by done.
  apply (std_merge_sorted event_time_lt event_time_lt_asym).
  - apply Hsort.
  - by apply Sorted_drop.
Qed.

(** C5: merging an empty list of new events leaves in the lane of the
    next epoch exactly the suffix of the (time-sorted) current lane
    whose events have time at least the end of the epoch: the current
    lane is a prefix of events before the end of the epoch followed by
    the new lane. *)
Theorem merge_no_events_keeps_suffix {G} sort_events (m : model.t G) lane :
  std_sort_contract event_time_lt sort_events →
  (S (epoch.id (model.epoch_ m)) mod 2 < length (model.event_lanes_ m))%nat →
  (lane < length (model.event_lanes m (S (epoch.id (model.epoch_ m)))))%nat →
  sorted_by_time (model.event_lanes m (epoch.id (model.epoch_ m)) !!! lane) →
  ∃ prefix,
    model.event_lanes m (epoch.id (model.epoch_ m)) !!! lane
    = prefix ++ model.event_lanes (model.merge_events sort_events [] lane m)
                  (S (epoch.id (model.epoch_ m))) !!! lane
    ∧ Forall (λ e, (event_time e < epoch.tfinal (model.epoch_ m))%Q) prefix
    ∧ Forall (λ e, (epoch.tfinal (model.epoch_ m) <= event_time e)%Q)
        (model.event_lanes (model.merge_events sort_events [] lane m)
           (S (epoch.id (model.epoch_ m))) !!! lane).
Proof.
  intros Hsort H1 H2 Hlc. rewrite merge_events_lane by done.
  rewrite (std_sort_contract_nil _ _ Hsort), std_merge_nil_l.
  set (lc := model.event_lanes m (epoch.id (model.epoch_ m)) !!! lane) in *.
  set (tf := epoch.tfinal (model.epoch_ m)).
  exists (take (lower_bound model.event_time_less lc tf) lc).
  split; [by rewrite take_drop|]. split.
  - eapply Forall_impl; [apply lower_bound_prefix|].
    intros e He. simpl in He. by apply Qltb_lt.
  - assert (StronglySorted (λ a b, event_time_lt b a = false)
              (drop (lower_bound model.event_time_less lc tf) lc)) as Hd.
    { apply sorted_by_time_strongly. by apply Sorted_drop. }
    destruct (drop (lower_bound model.event_time_less lc tf) lc) as [|x rest] eqn:E;
      [constructor|].
    pose proof (lower_bound_head _ _ _ _ _ E) as Hx.
    unfold model.event_time_less in Hx. apply Qltb_ge in Hx.
    inversion Hd as [|? ? _ Hall]; subst.
    constructor; [done|].
    eapply Forall_impl; [exact Hall|]. intros e He. simpl in He.
    unfold event_time_lt in He. apply Qltb_ge in He. by eapply Qle_trans.
Qed.

(** ** Delays and epochs *)

Lemma Qdiv2_half (x : Q) : (x / 2 == x * (1 # 2))%Q.
Proof. unfold Qdiv. reflexivity. Qed.

(** C1: for a connection whose delay is at least [min_delay] (a positive
    time, as the recipe contract demands), a spike not earlier than the
    beginning of an epoch, and an epoch no longer than [min_delay/2], the
    event derived from the spike has time [time s + con_delay c], not
    earlier than the end of the epoch; so [event_time_less], the test by
    which the driver separates the events of an epoch from the later
    ones, puts it after the epoch. *)
Theorem event_not_in_own_epoch (c : connection) (s : spike)
    (min_delay t_begin t_end : Q) :
  (0 < min_delay)%Q →
  (min_delay <= con_delay c)%Q →
  (t_begin <= time s)%Q →
  (t_end - t_begin <= min_delay / 2)%Q →
  event_time (make_event c s) = (time s + con_delay c)%Q
  ∧ (t_end <= event_time (make_event c s))%Q
  ∧ model.event_time_less (make_event c s) t_end = false.
Proof.
  intros Hmd Hd Hs He.
  rewrite Qdiv2_half in He.
  assert (t_end <= time s + con_delay c)%Q as Hle by lra.
  split; [reflexivity|]. split; [exact Hle|].
  unfold model.event_time_less. by apply Qltb_ge.
Qed.

(** ** Frame properties of the driver's tasks *)

Lemma foldl_preserves {A B C} (f : A → B → A) (p : A → C) :
  (∀ a b, p (f a b) = p a) → ∀ l a, p (foldl f a l) = p a.
Proof.
  intros H l. induction l as [|b l IH]; intros a; [done|].
  simpl. by rewrite IH.
Qed.

Section driver.
Context {G : Type}.
Variable ops : model.cell_group_ops G.
Variable comms_ : communication_policy.
Variable sort_spikes : list spike → list spike.
Variable sort_events : list postsynaptic_spike_event → list postsynaptic_spike_event.
Variable time_max : Q.
Variable round_time : Q → Q.
Variable group_queue_range : nat → nat * nat.

Abbreviation exchange := (model.exchange comms_ sort_spikes sort_events).
Abbreviation update_cells := (model.update_cells ops group_queue_range).
Abbreviation run_step :=
  (model.run_step ops comms_ sort_spikes sort_events round_time group_queue_range).
Abbreviation run_loop :=
  (model.run_loop ops comms_ sort_spikes sort_events round_time group_queue_range).
Abbreviation run :=
  (model.run ops comms_ sort_spikes sort_events time_max round_time group_queue_range).

Lemma exchange_communicator (m : model.t G) :
  model.communicator_ (exchange m)
  = (communicator.exchange comms_ sort_spikes (model.communicator_ m)
       (double_buffer.previous (model.local_spikes_ m))).1.
Proof.
  unfold model.exchange. cbv zeta.
  by rewrite (foldl_preserves _ model.communicator_).
Qed.

Lemma exchange_global_log (m : model.t G) :
  model.global_export_log (exchange m)
  = model.global_export_log m
    ++ [values (communicator.exchange comms_ sort_spikes (model.communicator_ m)
                  (double_buffer.previous (model.local_spikes_ m))).2].
Proof.
  unfold model.exchange. cbv zeta.
  by rewrite (foldl_preserves _ model.global_export_log).
Qed.

Lemma exchange_time (m : model.t G) : model.t_ (exchange m) = model.t_ m.
Proof.
  unfold model.exchange. cbv zeta. by rewrite (foldl_preserves _ model.t_).
Qed.

Lemma exchange_epoch (m : model.t G) : model.epoch_ (exchange m) = model.epoch_ m.
Proof.
  unfold model.exchange. cbv zeta. by rewrite (foldl_preserves _ model.epoch_).
Qed.

Lemma run_step_time tfinal dt t_interval tuntil (m : model.t G) :
  model.t_ (run_step tfinal dt t_interval tuntil m).1 = tuntil.
Proof. reflexivity. Qed.

Lemma run_step_tuntil tfinal dt t_interval tuntil (m : model.t G) :
  (run_step tfinal dt t_interval tuntil m).2
  = std_min (round_time (tuntil + t_interval)) tfinal.
Proof. reflexivity. Qed.

Lemma run_step_epoch tfinal dt t_interval tuntil (m : model.t G) :
  model.epoch_ (run_step tfinal dt t_interval tuntil m).1
  = epoch.advance (model.epoch_ m) (std_min (round_time (tuntil + t_interval)) tfinal).
Proof.
  unfold model.run_step. cbv zeta. simpl. by rewrite exchange_epoch.
Qed.

(** What one exchange does to the spike counter and to the log of
    gathered vectors. *)
Lemma exchange_num_spikes (m : model.t G) :
  ∃ gathered,
    model.global_export_log (exchange m) = model.global_export_log m ++ [gathered]
    ∧ model.num_spikes (exchange m)
      = wrap64 (model.num_spikes m + Z.of_nat (length gathered)).
Proof.
  eexists. split; [apply exchange_global_log|].
  unfold model.num_spikes. by rewrite exchange_communicator.
Qed.

Lemma run_step_num_spikes tfinal dt t_interval tuntil (m : model.t G) :
  ∃ gathered,
    model.global_export_log (run_step tfinal dt t_interval tuntil m).1
    = model.global_export_log m ++ [gathered]
    ∧ model.num_spikes (run_step tfinal dt t_interval tuntil m).1
      = wrap64 (model.num_spikes m + Z.of_nat (length gathered)).
Proof.
  unfold model.run_step. cbv zeta.
  match goal with
  | |- context [exchange ?m0] => destruct (exchange_num_spikes m0) as (g & E1 & E2)
  end.
  exists g. split; [exact E1|exact E2].
Qed.

Lemma total_gathered_app l1 l2 :
  total_gathered (l1 ++ l2) = total_gathered l1 + total_gathered l2.
Proof. induction l1 as [|v l1 IH]; simpl; lia. Qed.

Lemma total_gathered_nonneg l : 0 ≤ total_gathered l.
Proof. induction l as [|v l IH]; simpl; lia. Qed.

Lemma wrap64_add_l a b : wrap64 (wrap64 a + b) = wrap64 (a + b).
Proof. unfold wrap64. by rewrite Zplus_mod_idemp_l. Qed.

Lemma wrap64_small a : 0 ≤ a < 2 ^ 64 → wrap64 a = a.
Proof. intros H. unfold wrap64. by apply Z.mod_small. Qed.

Lemma run_loop_O tfinal dt t_interval tuntil (m : model.t G) :
  run_loop 0 tfinal dt t_interval tuntil m
  = if Qltb (model.t_ m) tfinal then None else Some (m, []).
Proof. reflexivity. Qed.

Lemma run_loop_S fuel tfinal dt t_interval tuntil (m : model.t G) :
  run_loop (S fuel) tfinal dt t_interval tuntil m
  = if Qltb (model.t_ m) tfinal then
      match run_loop fuel tfinal dt t_interval
              (run_step tfinal dt t_interval tuntil m).2
              (run_step tfinal dt t_interval tuntil m).1 with
      | Some (m', epochs) => Some (m', (model.t_ m, model.epoch_ m) :: epochs)
      | None => None
      end
    else Some (m, []).
Proof. reflexivity. Qed.

Lemma run_loop_num_spikes fuel tfinal dt t_interval tuntil (m m' : model.t G) epochs :
  run_loop fuel tfinal dt t_interval tuntil m = Some (m', epochs) →
  ∃ gathered,
    model.global_export_log m' = model.global_export_log m ++ gathered
    ∧ length gathered = length epochs
    ∧ wrap64 (model.num_spikes m')
      = wrap64 (model.num_spikes m + total_gathered gathered).
Proof.
  revert tuntil m m' epochs.
  induction fuel as [|fuel IH]; intros tuntil m m' epochs.
  - rewrite run_loop_O. destruct (Qltb (model.t_ m) tfinal); [done|].
    intros [= <- <-]. exists []. rewrite app_nil_r. simpl. by rewrite Z.add_0_r.
  - rewrite run_loop_S. destruct (Qltb (model.t_ m) tfinal).
    + destruct (run_loop fuel tfinal dt t_interval _ _) as [[m1 ep1]|] eqn:E; [|done].
      intros [= <- <-]. apply IH in E as (g1 & L1 & N1 & S1).
      destruct (run_step_num_spikes tfinal dt t_interval tuntil m) as (g0 & L0 & S0).
      exists (g0 :: g1). split; [|split].
      * rewrite L1, L0, <- app_assoc. done.
      * simpl. by rewrite N1.
      * rewrite S1, S0, wrap64_add_l. f_equal. simpl. lia.
    + intros [= <- <-]. exists []. rewrite app_nil_r. simpl. by rewrite Z.add_0_r.
Qed.

(** C9: the spike counter over a run.  Every exchange adds the size of
    the gathered vector to the 64-bit counter; the exchange task of the
    driver changes the counter by that one call and the update of the
    cells leaves it alone, so nothing else in [run] changes it: when
    [run] returns, the vectors gathered during it (one
    per pass of the loop, and one for the final exchange) are the new
    entries of the log of gathered vectors, and, as long as the count
    fits the counter, [num_spikes] has grown by the sum of their sizes,
    so it never decreases; [reset] sets it to zero. *)
Theorem num_spikes_cumulative fuel tfinal dt (m m' : model.t G) epochs :
  run fuel tfinal dt m = Some (m', epochs) →
  0 ≤ model.num_spikes m →
  (∀ c local_spikes,
     0 ≤ communicator.num_spikes c →
     communicator.num_spikes c
     + Z.of_nat (length (values
         (communicator.exchange comms_ sort_spikes c local_spikes).2)) < 2 ^ 64 →
     communicator.num_spikes (communicator.exchange comms_ sort_spikes c local_spikes).1
     = communicator.num_spikes c
       + Z.of_nat (length (values
           (communicator.exchange comms_ sort_spikes c local_spikes).2)))
  ∧ (∀ m0 : model.t G,
       model.num_spikes (exchange m0)
       = communicator.num_spikes
           (communicator.exchange comms_ sort_spikes (model.communicator_ m0)
              (double_buffer.previous (model.local_spikes_ m0))).1)
  ∧ (∀ (m0 : model.t G) dt0, model.num_spikes (update_cells dt0 m0) = model.num_spikes m0)
  ∧ (∃ gathered,
       model.global_export_log m' = model.global_export_log m ++ gathered
       ∧ length gathered = S (length epochs)
       ∧ (model.num_spikes m + total_gathered gathered < 2 ^ 64 →
          model.num_spikes m' = model.num_spikes m + total_gathered gathered
          ∧ model.num_spikes m ≤ model.num_spikes m'))
  ∧ model.num_spikes (model.reset ops m') = 0.
Proof.
  intros Hrun Hpos. split; [|split; [|split; [|split; [|done]]]].
  { intros c local_spikes Hc Hfit. simpl. apply wrap64_small. simpl in Hfit.
    unfold communicator.num_spikes in *. lia. }
  { intros m0. unfold model.num_spikes. by rewrite exchange_communicator. }
  { done. }
  unfold model.run in Hrun. cbv zeta in Hrun.
  destruct (run_loop fuel tfinal dt _ _ _) as [[m1 ep1]|] eqn:E; [|done].
  injection Hrun as <- <-.
  apply run_loop_num_spikes in E as (g1 & L1 & N1 & S1).
  match goal with
  | |- context [exchange ?m0] => destruct (exchange_num_spikes m0) as (g2 & L2 & S2)
  end.
  exists (g1 ++ [g2]). split; [|split].
  - rewrite L2. simpl. rewrite L1. simpl. by rewrite <- app_assoc.
  - rewrite length_app, N1. simpl. lia.
  - intros Hfit. rewrite total_gathered_app in *. simpl in Hfit |- *.
    pose proof (total_gathered_nonneg g1).
    rewrite S2.
    change (model.num_spikes (model.set_local_spikes m1 _)) with (model.num_spikes m1).
    rewrite <- wrap64_add_l, S1, wrap64_add_l.
    change (model.num_spikes (model.set_time m _ _)) with (model.num_spikes m).
    rewrite wrap64_small; lia.
Qed.

Lemma std_min_le_l a b : (std_min a b <= a)%Q.
Proof.
  unfold std_min. destruct (Qltb b a) eqn:E; [|apply Qle_refl].
  apply Qltb_lt in E. by apply Qlt_le_weak.
Qed.

Lemma std_min_le_r a b : (std_min a b <= b)%Q.
Proof.
  unfold std_min. destruct (Qltb b a) eqn:E; [apply Qle_refl|].
  by apply Qltb_ge in E.
Qed.

Lemma std_min_eq_r a b : (b <= a)%Q → (std_min a b == b)%Q.
Proof.
  intros H. unfold std_min. destruct (Qltb b a) eqn:E; [reflexivity|].
  apply Qltb_ge in E. by apply Qle_antisym.
Qed.

Lemma min_delay_no_connections (c : communicator.t) :
  connections_ c = [] →
  communicator.min_delay comms_ time_max c = comms_min comms_ time_max.
Proof. intros H. unfold communicator.min_delay. by rewrite H. Qed.

Lemma std_min_cases a b : std_min a b = a ∨ std_min a b = b.
Proof. unfold std_min. destruct (Qltb b a); auto. Qed.

Lemma std_min_l a b : (a <= b)%Q → std_min a b = a.
Proof.
  intros H. unfold std_min. destruct (Qltb b a) eqn:E; [|done].
  apply Qltb_lt in E. lra.
Qed.

(** Rounding respects the equality of rationals. *)
Lemma rounding_proper (rnd : Q → Q) :
  rounding rnd → ∀ x y, (x == y)%Q → (rnd x == rnd y)%Q.
Proof.
  intros (Hmono & _ & _) x y Hxy.
  apply Qle_antisym; apply Hmono; rewrite Hxy; apply Qle_refl.
Qed.

(** C10 as amended: with no local connections [min_delay] is the
    min-reduction of the largest time value, on any number of ranks; and
    then, on a single rank (the reduction returns its argument), a run
    from time zero to any value [tfinal] of [time_type] with
    [0 < tfinal <= time_max/2] makes exactly one pass of the loop, over
    the epoch 0 that begins at the start time and ends at [tfinal], and
    reaches [tfinal].  This holds with the sum and the halving rounded to
    [time_type]. *)
Theorem run_single_epoch_without_connections tfinal dt (m : model.t G) :
  connections_ (model.communicator_ m) = [] →
  communicator.min_delay comms_ time_max (model.communicator_ m)
  = comms_min comms_ time_max
  ∧ (rounding round_time →
     (round_time tfinal == tfinal)%Q →
     (∀ v, comms_min comms_ v = v) →
     (model.t_ m == 0)%Q →
     (0 < tfinal)%Q →
     (tfinal <= time_max / 2)%Q →
     ∃ m' e,
       run 1 tfinal dt m = Some (m', [(model.t_ m, e)])
       ∧ epoch.id e = 0%nat
       ∧ (epoch.tfinal e == tfinal)%Q
       ∧ (model.t_ m' == tfinal)%Q).
Proof.
  intros Hcons.
  split; [by apply min_delay_no_connections|].
  intros Hrnd Hrep Hmin Ht0 Hpos Hle.
  unfold model.run. cbv zeta.
  rewrite (min_delay_no_connections _ Hcons), Hmin.
  set (tuntil := std_min (round_time (model.t_ m + round_time (time_max / 2))) tfinal).
  assert (tuntil == tfinal)%Q as Htuntil.
  { apply std_min_eq_r.
    pose proof (rounding_proper round_time Hrnd) as Hproper.
    destruct Hrnd as (Hmono & Hidem & _).
    rewrite (Hproper (model.t_ m + round_time (time_max / 2))%Q
               (round_time (time_max / 2)))
      by (rewrite Ht0; apply Qplus_0_l).
    rewrite Hidem, <- Hrep. by apply Hmono. }
  rewrite run_loop_S.
  assert (Qltb (model.t_ (model.set_time m (model.t_ m) (epoch.mk 0 tuntil))) tfinal
          = true) as ->.
  { apply Qltb_lt. simpl. rewrite Ht0. exact Hpos. }
  rewrite run_loop_O, run_step_time.
  assert (Qltb tuntil tfinal = false) as ->.
  { apply Qltb_ge. rewrite Htuntil. apply Qle_refl. }
  eexists _, _. split; [reflexivity|]. split; [reflexivity|]. split; [exact Htuntil|].
  rewrite exchange_time. exact Htuntil.
Qed.

Lemma fold_min_le_init (l : list connection) (init : Q) :
  (foldl (λ local_min con, std_min local_min (con_delay con)) init l <= init)%Q.
Proof.
  revert init. induction l as [|c l IH]; intros init; [apply Qle_refl|].
  simpl. eapply Qle_trans; [apply IH|]. apply std_min_le_l.
Qed.

Lemma fold_min_le_delay (l : list connection) (init : Q) (c : connection) :
  c ∈ l →
  (foldl (λ local_min con, std_min local_min (con_delay con)) init l <= con_delay c)%Q.
Proof.
  revert init. induction l as [|c' l IH]; intros init Hc; [by apply elem_of_nil in Hc|].
  simpl. apply elem_of_cons in Hc as [->|Hc]; [|by apply IH].
  eapply Qle_trans; [apply fold_min_le_init|]. apply std_min_le_r.
Qed.

Lemma min_delay_le_delay (cm : communicator.t) (c : connection) :
  (∀ v, (comms_min comms_ v <= v)%Q) →
  c ∈ connections_ cm →
  (communicator.min_delay comms_ time_max cm <= con_delay c)%Q.
Proof.
  intros Hmin Hc. unfold communicator.min_delay. cbv zeta.
  eapply Qle_trans; [apply Hmin|]. by apply fold_min_le_delay.
Qed.

(** A pass that begins at a time [t0] to which [t0 + t_interval] is
    rounded ends where it began, and so does every later pass. *)
Lemma run_loop_stalls fuel tfinal dt t_interval t0 tuntil (m : model.t G) :
  (∀ x y, (x == y)%Q → (round_time x == round_time y)%Q) →
  (t0 < tfinal)%Q →
  (round_time (t0 + t_interval) == t0)%Q →
  (model.t_ m == t0)%Q →
  (tuntil == t0)%Q →
  run_loop fuel tfinal dt t_interval tuntil m = None.
Proof.
  intros Hproper Hlt Habs. revert tuntil m.
  induction fuel as [|fuel IH]; intros tuntil m Ht Htu.
  - rewrite run_loop_O.
    assert (Qltb (model.t_ m) tfinal = true) as -> by (apply Qltb_lt; lra). done.
  - rewrite run_loop_S.
    assert (Qltb (model.t_ m) tfinal = true) as -> by (apply Qltb_lt; lra).
    rewrite IH; [done| |].
    + by rewrite run_step_time.
    + rewrite run_step_tuntil.
      assert (round_time (tuntil + t_interval) == t0)%Q as Hr.
      { rewrite <- Habs. apply Hproper. by rewrite Htu. }
      rewrite std_min_l; [done|lra].
Qed.

(** X6: [run] does not return when the rounding absorbs the interval.  If
    the time [t_] is before [tfinal] and [t_ + t_interval] is rounded to
    [t_] (the interval is zero, or less than half the distance from [t_]
    to the next value of [time_type]), then every pass of the loop leaves
    the time where it is, and the loop does not end however many passes
    are allowed.  Of the rounding it is used that it gives equal results
    on equal numbers. *)
Theorem run_stalls_when_interval_is_absorbed fuel tfinal dt (m : model.t G) :
  (∀ x y, (x == y)%Q → (round_time x == round_time y)%Q) →
  (model.t_ m < tfinal)%Q →
  (round_time
     (model.t_ m
      + round_time (communicator.min_delay comms_ time_max (model.communicator_ m) / 2))
   == model.t_ m)%Q →
  run fuel tfinal dt m = None.
Proof.
  intros Hproper Hlt Habs. unfold model.run. cbv zeta.
  rewrite (run_loop_stalls fuel tfinal dt _ (model.t_ m)); [done|done|done|exact Habs| |].
  - reflexivity.
  - rewrite std_min_l; [exact Habs|lra].
Qed.

End driver.

(** ** The dry-run transports *)

Lemma wrap32_small a : 0 ≤ a < 2 ^ 32 → wrap32 a = a.
Proof. intros H. unfold wrap32. by apply Z.mod_small. Qed.

Lemma foldl_append_copies {A B} (l acc : list A) (xs : list B) :
  foldl (λ g _, g ++ l) acc xs = acc ++ concat (replicate (length xs) l).
Proof.
  revert acc. induction xs as [|x xs IH]; intros acc; simpl.
  - by rewrite app_nil_r.
  - by rewrite IH, <- app_assoc.
Qed.

Lemma foldl_alter_block {A} (f : A → A) (blk pre post : list A) :
  foldl (λ g j, alter f (Z.to_nat j) g) (pre ++ blk ++ post)
        (seqZ (Z.of_nat (length pre)) (Z.of_nat (length blk)))
  = pre ++ map f blk ++ post.
Proof.
  revert pre. induction blk as [|x blk IH]; intros pre; [done|].
  rewrite seqZ_cons by (simpl; lia). cbn [foldl].
  rewrite Nat2Z.id.
  replace (length pre) with (length pre + 0)%nat at 1 by lia.
  rewrite alter_app_r. cbn [alter list_alter app].
  replace (Z.succ (Z.of_nat (length pre))) with (Z.of_nat (length (pre ++ [f x])))
    by (rewrite length_app; simpl; lia).
  replace (Z.pred (Z.of_nat (length (x :: blk)))) with (Z.of_nat (length blk))
    by (simpl; lia).
  replace (pre ++ f x :: blk ++ post) with ((pre ++ [f x]) ++ blk ++ post)
    by (by rewrite <- app_assoc).
  rewrite IH. by rewrite <- app_assoc.
Qed.

Section dry_run_gather.
Variable ctx : dry_run_context_impl.t.
Variable local_spikes : list spike.

Let n := dry_run_context_impl.num_ranks_ ctx.
Let cpt := dry_run_context_impl.num_cells_per_tile_ ctx.
Let len := Z.of_nat (length local_spikes).

Hypothesis ranks_range : 0 ≤ n < 2 ^ 32 - 1.
Hypothesis tile_nonneg : 0 ≤ cpt.
Hypothesis count_fits : n * len < 2 ^ 32.
Hypothesis gids_fit :
  Forall (λ s, 0 ≤ gid (source s) ∧ gid (source s) + (n - 1) * cpt < 2 ^ 32) local_spikes.

Let shifted (i : nat) : list spike :=
  map (λ s, mk_spike (mk_member (gid (source s) + Z.of_nat i * cpt)
                                (index (source s))) (time s)) local_spikes.

Lemma local_size_fits : 0 < n → wrap32 len = len.
Proof.
  intros Hn. apply wrap32_small. unfold len; nia.
Qed.

Lemma shift_block (i : nat) :
  Z.of_nat i < n →
  map (λ s, shift_gid s (wrap32 (cpt * Z.of_nat i))) local_spikes = shifted i.
Proof.
  intros Hi. unfold shifted. apply map_ext_in. intros s Hs.
  rewrite Forall_forall in gids_fit.
  apply list_elem_of_In, gids_fit in Hs as [Hs1 Hs2].
  unfold shift_gid. f_equal. f_equal.
  unfold wrap32. rewrite Zplus_mod_idemp_r.
  rewrite Z.mod_small; [lia | nia].
Qed.

Lemma shift_loop (m k : nat) (pre : list spike) :
  Z.of_nat (k + m) ≤ n →
  length pre = (k * length local_spikes)%nat →
  foldl (λ g i,
           foldl (λ g j, alter (λ s, shift_gid s (wrap32 (cpt * i))) (Z.to_nat j) g) g
                 (seqZ (wrap32 (i * len)) (wrap32 ((i + 1) * len) - wrap32 (i * len))))
        (pre ++ concat (replicate m local_spikes))
        (seqZ (Z.of_nat k) (Z.of_nat m))
  = pre ++ flat_map shifted (seq k m).
Proof.
  revert k pre. induction m as [|m IH]; intros k pre Hk Hpre; [done|].
  rewrite seqZ_cons by lia. cbn [foldl].
  assert (wrap32 (Z.of_nat k * len) = Z.of_nat (length pre)) as ->.
  { rewrite wrap32_small; unfold len; nia. }
  assert (wrap32 ((Z.of_nat k + 1) * len) - Z.of_nat (length pre)
          = Z.of_nat (length local_spikes)) as ->.
  { rewrite wrap32_small; unfold len; nia. }
  rewrite replicate_S. cbn [concat].
  rewrite foldl_alter_block, shift_block by lia.
  replace (Z.succ (Z.of_nat k)) with (Z.of_nat (S k)) by lia.
  replace (Z.pred (Z.of_nat (S m))) with (Z.of_nat m) by lia.
  replace (pre ++ shifted k ++ concat (replicate m local_spikes))
    with ((pre ++ shifted k) ++ concat (replicate m local_spikes))
    by (by rewrite <- app_assoc).
  rewrite IH.
  - cbn [seq flat_map]. by rewrite <- app_assoc.
  - lia.
  - rewrite length_app, Hpre. unfold shifted. rewrite length_map. lia.
Qed.

Lemma dry_run_partition :
  map (λ i, Z.to_nat (wrap32 (i * wrap32 len))) (seqZ 0 (n + 1))
  = map (λ r, (r * length local_spikes)%nat) (seq 0 (S (Z.to_nat n))).
Proof.
  unfold seqZ. replace (Z.to_nat (n + 1)) with (S (Z.to_nat n)) by lia.
  rewrite <- list_fmap_compose. apply map_ext_in. intros r Hr.
  apply in_seq in Hr. simpl.
  destruct (decide (n = 0)) as [Hn|Hn].
  - assert (r = 0%nat) as -> by lia. done.
  - rewrite local_size_fits by lia. rewrite wrap32_small; unfold len; nia.
Qed.

(** The gathered vector of [dry_run_context_impl::gather_spikes] when no
    32-bit count or GID overflows. *)
Lemma dry_run_gather_spikes_eq :
  dry_run_context_impl.gather_spikes ctx local_spikes
  = replicated_spikes (Z.to_nat n) cpt local_spikes.
Proof.
  unfold dry_run_context_impl.gather_spikes, replicated_spikes. cbv zeta.
  fold n cpt len. f_equal; [|apply dry_run_partition].
  rewrite foldl_append_copies, length_seqZ. simpl app.
  destruct (decide (n = 0)) as [Hn|Hn]; [by rewrite Hn|].
  rewrite local_size_fits by lia.
  replace (seqZ 0 n) with (seqZ (Z.of_nat 0) (Z.of_nat (Z.to_nat n)))
    by (f_equal; lia).
  pose proof (shift_loop (Z.to_nat n) 0 []) as H. simpl app in H.
  rewrite H; [done | lia | done].
Qed.

End dry_run_gather.

Lemma flat_map_blocks_length {A B} (f : B → list A) (len : nat) (l : list B) :
  (∀ j, length (f j) = len) → length (flat_map f l) = (length l * len)%nat.
Proof.
  intros H. induction l as [|x l IH]; [done|].
  cbn [flat_map]. rewrite length_app, H, IH. simpl. lia.
Qed.

Lemma flat_map_block {A} (f : nat → list A) (len n i : nat) :
  (∀ j, length (f j) = len) → (i < n)%nat →
  subrange_view (flat_map f (seq 0 n)) (i * len) (S i * len) = f i.
Proof.
  intros H Hi. unfold subrange_view.
  replace n with (i + S (n - S i))%nat by lia.
  rewrite seq_app, flat_map_app. cbn [seq flat_map].
  rewrite drop_app_length'
    by (rewrite (flat_map_blocks_length f len), length_seq by done; lia).
  replace (S i * len - i * len)%nat with (length (f i)) by (rewrite H; lia).
  by rewrite take_app_length.
Qed.

(** The shape of [replicated_spikes]: [n * l] spikes, a partition of
    [n + 1] divisions [r * l], and in slice [i] the local spikes in their
    order with GIDs shifted by [i * cells_per_tile]. *)
Lemma replicated_spikes_shape (n : nat) (cells_per_tile : Z) (local_spikes : list spike) :
  let g := replicated_spikes n cells_per_tile local_spikes in
  length (values g) = (n * length local_spikes)%nat
  ∧ length (partition g) = S n
  ∧ (∀ r, (r ≤ n)%nat → partition g !! r = Some (r * length local_spikes)%nat)
  ∧ (∀ i, (i < n)%nat →
       subrange_view (values g) (partition g !!! i) (partition g !!! S i)
       = map (λ s, mk_spike (mk_member (gid (source s) + Z.of_nat i * cells_per_tile)
                                       (index (source s))) (time s)) local_spikes).
Proof.
  assert (∀ r, (r ≤ n)%nat →
            map (λ r, (r * length local_spikes)%nat) (seq 0 (S n)) !! r
            = Some (r * length local_spikes)%nat) as Hpart.
  { intros r Hr. rewrite list_lookup_fmap, lookup_seq_lt by lia. done. }
  cbv zeta. unfold replicated_spikes. cbn [values partition].
  split; [|split; [|split]].
  - rewrite (flat_map_blocks_length _ (length local_spikes))
      by (intros; by rewrite length_map).
    by rewrite length_seq.
  - by rewrite length_map, length_seq.
  - exact Hpart.
  - intros i Hi.
    assert (i ≤ n)%nat as Hi1 by lia. assert (S i ≤ n)%nat as Hi2 by lia.
    rewrite (list_lookup_total_correct _ _ _ (Hpart i Hi1)).
    rewrite (list_lookup_total_correct _ _ _ (Hpart (S i) Hi2)).
    apply (flat_map_block
             (λ i, map (λ s, mk_spike
                               (mk_member (gid (source s) + Z.of_nat i * cells_per_tile)
                                          (index (source s))) (time s)) local_spikes)
             (length local_spikes) n i); [|done].
    intros. by rewrite length_map.
Qed.

(** X1: the dry-run context of arbor/communication/dry_run_context.cpp
    meets the specification of a dry-run gather whenever the counts and the
    shifted GIDs fit 32 bits: the gathered vector has [N * L] spikes,
    slice [i] is the local spikes in their order with GIDs shifted by
    [i * cells_per_tile], and the partition holds the [N + 1] divisions
    [r * L]. *)
Theorem dry_run_context_gather_spikes (ctx : dry_run_context_impl.t)
    (local_spikes : list spike) :
  0 ≤ dry_run_context_impl.num_ranks_ ctx < 2 ^ 32 - 1 →
  0 ≤ dry_run_context_impl.num_cells_per_tile_ ctx →
  dry_run_context_impl.num_ranks_ ctx * Z.of_nat (length local_spikes) < 2 ^ 32 →
  Forall (λ s, 0 ≤ gid (source s)
               ∧ gid (source s)
                 + (dry_run_context_impl.num_ranks_ ctx - 1)
                   * dry_run_context_impl.num_cells_per_tile_ ctx < 2 ^ 32)
         local_spikes →
  let n := Z.to_nat (dry_run_context_impl.num_ranks_ ctx) in
  let g := dry_run_context_impl.gather_spikes ctx local_spikes in
  length (values g) = (n * length local_spikes)%nat
  ∧ length (partition g) = S n
  ∧ (∀ r, (r ≤ n)%nat → partition g !! r = Some (r * length local_spikes)%nat)
  ∧ (∀ i, (i < n)%nat →
       subrange_view (values g) (partition g !!! i) (partition g !!! S i)
       = map (λ s, mk_spike
                     (mk_member (gid (source s)
                                 + Z.of_nat i * dry_run_context_impl.num_cells_per_tile_ ctx)
                                (index (source s))) (time s)) local_spikes).
Proof.
  intros H1 H2 H3 H4. cbv zeta.
  rewrite (dry_run_gather_spikes_eq ctx local_spikes H1 H2 H3 H4).
  apply replicated_spikes_shape.
Qed.

(** ** The block rule of the load balancer *)

Section block_rule.
Variables N R : Z.
Hypothesis domains_range : 0 < R < 2 ^ 32.
Hypothesis cells_range : 0 ≤ N < 2 ^ 32.

Lemma dom_size_eq d :
  0 ≤ d →
  load_balance.dom_size N R d = N / R + (if d <? N mod R then 1 else 0).
Proof.
  intros Hd. unfold load_balance.dom_size. cbv zeta.
  pose proof (Z.div_mod N R ltac:(lia)) as Hdm.
  pose proof (Z.mod_pos_bound N R ltac:(lia)) as Hmod.
  assert (0 ≤ N / R) as HB by (apply Z.div_pos; lia).
  rewrite (wrap32_small (R * (N / R))) by nia.
  replace (N - R * (N / R)) with (N mod R) by lia.
  rewrite (wrap32_small (N mod R)) by lia.
  apply wrap32_small. destruct (d <? N mod R) eqn:E; [|nia].
  apply Z.ltb_lt in E. nia.
Qed.

Lemma dom_size_floor_or_ceil d :
  0 ≤ d →
  load_balance.dom_size N R d = N / R ∨ load_balance.dom_size N R d = (N + R - 1) / R.
Proof.
  intros Hd. rewrite dom_size_eq by done.
  destruct (d <? N mod R) eqn:E; [right|left; lia].
  apply Z.ltb_lt in E.
  pose proof (Z.div_mod N R ltac:(lia)) as Hdm.
  pose proof (Z.mod_pos_bound N R ltac:(lia)) as Hmod.
  apply (Z.div_unique_pos _ _ _ (N mod R - 1)); lia.
Qed.

Lemma block_start_step k :
  0 ≤ k →
  block_start N R (k + 1) = block_start N R k + load_balance.dom_size N R k.
Proof.
  intros Hk. rewrite dom_size_eq by done. unfold block_start.
  destruct (k <? N mod R) eqn:E; [apply Z.ltb_lt in E|apply Z.ltb_ge in E]; lia.
Qed.

Lemma block_start_range k : 0 ≤ k ≤ R → 0 ≤ block_start N R k ≤ N.
Proof.
  intros Hk. unfold block_start.
  pose proof (Z.div_mod N R ltac:(lia)) as Hdm.
  pose proof (Z.mod_pos_bound N R ltac:(lia)) as Hmod.
  assert (0 ≤ N / R) as HB by (apply Z.div_pos; lia).
  split; [nia|].
  destruct (Z.min_spec k (N mod R)) as [[? ->]|[? ->]]; nia.
Qed.

Lemma block_start_0 : block_start N R 0 = 0.
Proof.
  unfold block_start.
  pose proof (Z.mod_pos_bound N R ltac:(lia)) as Hmod. lia.
Qed.

Lemma block_start_last : block_start N R R = N.
Proof.
  unfold block_start.
  pose proof (Z.div_mod N R ltac:(lia)) as Hdm.
  pose proof (Z.mod_pos_bound N R ltac:(lia)) as Hmod. lia.
Qed.

Lemma block_start_mono j k : 0 ≤ j ≤ k → block_start N R j ≤ block_start N R k.
Proof.
  intros Hjk. unfold block_start.
  assert (0 ≤ N / R) as HB by (apply Z.div_pos; lia). nia.
Qed.

Lemma make_partition_blocks (n : nat) (k : Z) :
  0 ≤ k → k + Z.of_nat n ≤ R →
  make_partition (block_start N R k)
    (map (load_balance.dom_size N R) (seqZ k (Z.of_nat n)))
  = map (block_start N R) (seqZ k (Z.of_nat n + 1)).
Proof.
  revert k. induction n as [|n IH]; intros k Hk Hn.
  - done.
  - rewrite (seqZ_cons k (Z.of_nat (S n))) by lia.
    rewrite (seqZ_cons k (Z.of_nat (S n) + 1)) by lia.
    cbn [map make_partition]. f_equal.
    rewrite <- block_start_step by done.
    rewrite wrap32_small by (pose proof (block_start_range (k + 1)); lia).
    replace (Z.pred (Z.of_nat (S n))) with (Z.of_nat n) by lia.
    replace (Z.pred (Z.of_nat (S n) + 1)) with (Z.of_nat n + 1) by lia.
    replace (Z.succ k) with (k + 1) by lia.
    apply IH; lia.
Qed.

Lemma gid_divisions_eq :
  load_balance.gid_divisions N R = map (block_start N R) (seqZ 0 (R + 1)).
Proof.
  unfold load_balance.gid_divisions.
  rewrite <- block_start_0 at 1.
  pose proof (make_partition_blocks (Z.to_nat R) 0) as H.
  rewrite Z2Nat.id in H by lia. apply H; lia.
Qed.

Lemma gid_divisions_lookup (d : nat) :
  Z.of_nat d ≤ R →
  load_balance.gid_divisions N R !!! d = block_start N R (Z.of_nat d).
Proof.
  intros Hd. apply list_lookup_total_correct.
  rewrite gid_divisions_eq, list_lookup_fmap, lookup_seqZ_lt by lia. done.
Qed.

Lemma gid_part_eq (d : nat) :
  Z.of_nat d < R →
  load_balance.gid_part N R d
  = (block_start N R (Z.of_nat d), block_start N R (Z.of_nat d + 1)).
Proof.
  intros Hd. unfold load_balance.gid_part.
  rewrite !gid_divisions_lookup by lia. do 2 f_equal. lia.
Qed.

Lemma sum_sizes_blocks (n : nat) (k : Z) :
  0 ≤ k →
  sum_sizes (map (load_balance.dom_size N R) (seqZ k (Z.of_nat n)))
  = block_start N R (k + Z.of_nat n) - block_start N R k.
Proof.
  revert k. induction n as [|n IH]; intros k Hk.
  - simpl. rewrite Z.add_0_r. lia.
  - rewrite seqZ_cons by lia. cbn [map sum_sizes foldr].
    replace (Z.pred (Z.of_nat (S n))) with (Z.of_nat n) by lia.
    fold (sum_sizes (map (load_balance.dom_size N R) (seqZ (Z.succ k) (Z.of_nat n)))).
    rewrite IH by lia.
    replace (Z.succ k) with (k + 1) by lia.
    rewrite (block_start_step k) by done.
    replace (k + 1 + Z.of_nat n) with (k + Z.of_nat (S n)) by lia. lia.
Qed.

Lemma block_of_gid (g : Z) (n : nat) :
  Z.of_nat n ≤ R → 0 ≤ g < block_start N R (Z.of_nat n) →
  ∃ d : nat, (d < n)%nat
    ∧ block_start N R (Z.of_nat d) ≤ g < block_start N R (Z.of_nat d + 1).
Proof.
  induction n as [|n IH]; intros Hn Hg.
  - change (Z.of_nat 0) with 0 in Hg. rewrite block_start_0 in Hg. lia.
  - destruct (decide (g < block_start N R (Z.of_nat n))) as [Hlt|Hge].
    + destruct IH as (d & Hd & Hb); [lia|lia|]. exists d. split; [lia|done].
    + exists n. split; [lia|].
      replace (Z.of_nat n + 1) with (Z.of_nat (S n)) by lia. lia.
Qed.

(** X2: the block rule of [partition_load_balance]: every rank's block has
    [N/R] cells or one more (the ceiling of [N/R]), the blocks are
    consecutive intervals that start at 0 and end at [N], their sizes
    sum to [N], and every GID lies in exactly one block. *)
Theorem dom_size_blocks :
  (∀ d : nat, Z.of_nat d < R →
     let part := load_balance.gid_part N R d in
     part.2 - part.1 = load_balance.dom_size N R (Z.of_nat d)
     ∧ (load_balance.dom_size N R (Z.of_nat d) = N / R
        ∨ load_balance.dom_size N R (Z.of_nat d) = (N + R - 1) / R))
  ∧ (load_balance.gid_part N R 0).1 = 0
  ∧ (load_balance.gid_part N R (Z.to_nat R - 1)).2 = N
  ∧ (∀ d : nat, Z.of_nat (S d) < R →
       (load_balance.gid_part N R d).2 = (load_balance.gid_part N R (S d)).1)
  ∧ sum_sizes (map (load_balance.dom_size N R) (seqZ 0 R)) = N
  ∧ (∀ g, 0 ≤ g < N →
       ∃ d : nat, Z.of_nat d < R
         ∧ (load_balance.gid_part N R d).1 ≤ g < (load_balance.gid_part N R d).2
         ∧ ∀ d' : nat, Z.of_nat d' < R →
             (load_balance.gid_part N R d').1 ≤ g < (load_balance.gid_part N R d').2 →
             d' = d).
Proof.
  split; [|split; [|split; [|split; [|split]]]].
  - intros d Hd. cbv zeta. rewrite gid_part_eq by done. simpl.
    rewrite block_start_step by lia.
    split; [lia|]. apply dom_size_floor_or_ceil. lia.
  - rewrite gid_part_eq by lia. simpl. apply block_start_0.
  - rewrite gid_part_eq by lia. simpl.
    replace (Z.of_nat (Z.to_nat R - 1) + 1) with R by lia. apply block_start_last.
  - intros d Hd. rewrite !gid_part_eq by lia. simpl. f_equal. lia.
  - pose proof (sum_sizes_blocks (Z.to_nat R) 0) as H.
    rewrite Z2Nat.id in H by lia. rewrite H by lia.
    rewrite block_start_0, Z.add_0_l, block_start_last. lia.
  - intros g Hg.
    destruct (block_of_gid g (Z.to_nat R)) as (d & Hd & Hb).
    { lia. } { rewrite Z2Nat.id by lia. rewrite block_start_last. lia. }
    exists d. split; [lia|]. rewrite gid_part_eq by lia. cbn [fst snd].
    split; [done|].
    intros d' Hd' Hb'. rewrite gid_part_eq in Hb' by lia. cbn [fst snd] in Hb'.
    destruct (Nat.lt_trichotomy d' d) as [Hlt|[Heq|Hgt]]; [|done|].
    + pose proof (block_start_mono (Z.of_nat d' + 1) (Z.of_nat d)). lia.
    + pose proof (block_start_mono (Z.of_nat d + 1) (Z.of_nat d')). lia.
Qed.

End block_rule.

(** ** Gap-junction components in the load balancer *)

Section components.
Import load_balance.
Variable rec : recipe.

Hypothesis coupled_sym : ∀ a b, coupled rec a b → coupled rec b a.
Hypothesis coupled_range : ∀ a b, coupled rec a b → 0 ≤ b < num_cells rec.

Lemma connected_sym a b : connected rec a b → connected rec b a.
Proof.
  induction 1 as [|a b c Hab _ IH]; [apply rtc_refl|].
  eapply rtc_r; [exact IH|]. by apply coupled_sym.
Qed.

Lemma connected_range g x :
  0 ≤ g < num_cells rec → connected rec g x → 0 ≤ x < num_cells rec.
Proof.
  intros Hg H. apply rtc_inv_r in H as [->|(a & _ & Hc)]; [done|].
  by eapply coupled_range.
Qed.

Lemma enqueue_unvisited_spec conns q v :
  ∃ new,
    (foldl enqueue_unvisited (q, v) conns).1 = q ++ new
    ∧ (foldl enqueue_unvisited (q, v) conns).2 = v ∪ list_to_set new
    ∧ NoDup new
    ∧ (∀ x, x ∈ new → (x ∉ v) ∧ (∃ c, c ∈ conns ∧ gid (location c) = x))
    ∧ (∀ c, c ∈ conns → gid (location c) ∈ v ∪ list_to_set new).
Proof.
  revert q v. induction conns as [|c cs IH]; intros q v.
  - exists []. simpl. rewrite app_nil_r.
    split; [done|]. split; [set_solver|]. split; [constructor|].
    split; intros x Hx; by apply elem_of_nil in Hx.
  - cbn [foldl]. unfold enqueue_unvisited at 2 4. cbn [fst snd].
    destruct (decide (gid (location c) ∈ v)) as [Hin|Hnin].
    + destruct (IH q v) as (new & E1 & E2 & ND & Hnew & Hall).
      exists new. split; [done|]. split; [done|]. split; [done|]. split.
      * intros x Hx. destruct (Hnew x Hx) as (? & c' & ? & ?).
        split; [done|]. exists c'. split; [by right|done].
      * intros c' Hc'. apply elem_of_cons in Hc' as [->|Hc']; [set_solver|by apply Hall].
    + destruct (IH (q ++ [gid (location c)]) ({[gid (location c)]} ∪ v))
        as (new & E1 & E2 & ND & Hnew & Hall).
      exists (gid (location c) :: new).
      split; [by rewrite E1, <- app_assoc|].
      split; [rewrite E2; set_solver|].
      split.
      { constructor; [|done]. intros Hx. apply Hnew in Hx as [Hx _]. set_solver. }
      split.
      * intros x Hx. apply elem_of_cons in Hx as [->|Hx].
        -- split; [done|]. exists c. split; [by left|done].
        -- destruct (Hnew x Hx) as (Hxv & c' & ? & ?).
           split; [set_solver|]. exists c'. split; [by right|done].
      * intros c' Hc'. apply elem_of_cons in Hc' as [->|Hc']; [set_solver|].
        specialize (Hall c' Hc'). set_solver.
Qed.

Lemma NoDup_range_length (l : list Z) (n : Z) :
  NoDup l → (∀ x, x ∈ l → 0 ≤ x < n) → Z.of_nat (length l) ≤ Z.max 0 n.
Proof.
  intros ND Hr.
  assert (l ⊆+ seqZ 0 n) as Hsub.
  { apply NoDup_submseteq; [done|]. intros x Hx. apply elem_of_seqZ.
    specialize (Hr x Hx). lia. }
  apply submseteq_length in Hsub. rewrite length_seqZ in Hsub. lia.
Qed.

Lemma bfs_inv_done (V : gset Z) (g : Z) visited cg :
  (∀ x, connected rec g x → x ∉ V) →
  bfs_inv rec V g [] visited cg →
  visited = V ∪ list_to_set cg ∧ NoDup cg ∧ (∀ x, x ∈ cg ↔ connected rec g x).
Proof.
  intros HV (Ev & ND & Hgin & Hconn & Hclosed).
  rewrite app_nil_r in *. split; [done|]. split; [done|].
  intros x. split; [apply Hconn|].
  revert x. apply (rtc_ind_r (λ x, x ∈ cg) g); [done|].
  intros a b Ha Hab Hain. specialize (Hclosed a b Hain Hab).
  rewrite Ev in Hclosed.
  apply elem_of_union in Hclosed as [Hin|Hin]; [|by apply elem_of_list_to_set in Hin].
  exfalso. eapply HV; [|exact Hin]. eapply rtc_r; eauto.
Qed.

Lemma bfs_inv_step (V : gset Z) (g e : Z) q visited cg :
  (∀ x, connected rec g x → x ∉ V) →
  bfs_inv rec V g (e :: q) visited cg →
  bfs_inv rec V g (foldl enqueue_unvisited (q, visited) (gap_junctions_on rec e)).1
    (foldl enqueue_unvisited (q, visited) (gap_junctions_on rec e)).2 (cg ++ [e]).
Proof.
  intros HV (Ev & ND & Hgin & Hconn & Hclosed).
  destruct (enqueue_unvisited_spec (gap_junctions_on rec e) q visited)
    as (new & E1 & E2 & NDnew & Hnew & Hall).
  rewrite E1, E2.
  assert ((cg ++ [e]) ++ q ++ new = (cg ++ e :: q) ++ new) as Eapp
    by (by rewrite <- !app_assoc).
  split; [|split; [|split; [|split]]].
  - rewrite Eapp, Ev, !list_to_set_app_L. set_solver.
  - rewrite Eapp. apply NoDup_app. split; [done|]. split; [|done].
    intros x Hx Hxn. apply Hnew in Hxn as [Hxn _]. apply Hxn.
    rewrite Ev. by apply elem_of_union_r, elem_of_list_to_set.
  - rewrite Eapp. apply elem_of_app. by left.
  - intros x Hx. rewrite Eapp in Hx. apply elem_of_app in Hx as [Hx|Hx].
    + by apply Hconn.
    + destruct (Hnew x Hx) as (_ & c & Hc & <-).
      eapply rtc_r; [apply (Hconn e); set_solver|].
      exists c. done.
  - intros a b Ha Hab. apply elem_of_app in Ha as [Ha|Ha].
    + apply elem_of_union_l. by eapply Hclosed.
    + apply list_elem_of_singleton in Ha as ->.
      destruct Hab as (c & Hc & <-). by apply Hall.
Qed.

Lemma bfs_spec (V : gset Z) (g : Z) fuel q visited cg :
  0 ≤ g < num_cells rec →
  (∀ x, connected rec g x → x ∉ V) →
  bfs_inv rec V g q visited cg →
  num_cells rec ≤ Z.of_nat fuel + Z.of_nat (length cg) →
  ∃ cg',
    bfs fuel rec q visited cg = Some (cg', V ∪ list_to_set cg')
    ∧ NoDup cg'
    ∧ (∀ x, x ∈ cg' ↔ connected rec g x).
Proof.
  intros Hg HV. revert q visited cg.
  induction fuel as [|fuel IH]; intros q visited cg Hinv Hfuel.
  - destruct q as [|e q].
    + destruct (bfs_inv_done V g visited cg HV Hinv) as (-> & ND & Hiff).
      exists cg. done.
    + exfalso. destruct Hinv as (Ev & ND & Hgin & Hconn & Hclosed).
      pose proof (NoDup_range_length (cg ++ e :: q) (num_cells rec) ND) as Hlen.
      rewrite length_app in Hlen. simpl in Hlen.
      assert (∀ x, x ∈ cg ++ e :: q → 0 ≤ x < num_cells rec) as Hr
        by (intros x Hx; eapply connected_range; eauto).
      specialize (Hlen Hr). lia.
  - destruct q as [|e q].
    + destruct (bfs_inv_done V g visited cg HV Hinv) as (-> & ND & Hiff).
      exists cg. done.
    + cbn [bfs]. cbv zeta. apply IH.
      * by apply bfs_inv_step.
      * rewrite length_app. simpl. lia.
Qed.

Lemma visit_gid_spec first last processed st g fuel :
  0 ≤ first → last ≤ num_cells rec → first ≤ g < last →
  num_cells rec ≤ Z.of_nat fuel →
  comps_inv rec first last processed st →
  ∃ st', visit_gid fuel rec st g = Some st'
         ∧ comps_inv rec first last (processed ++ [g]) st'.
Proof.
  intros Hfirst Hlast Hg Hfuel (J1 & J2 & J3). unfold visit_gid.
  destruct (decide (gap_junctions_on rec g = [])) as [Hnil|Hgj].
  - eexists. split; [done|]. split; [done|]. split; [done|].
    cbn [visited]. intros x Hx Hxgj. apply elem_of_app in Hx as [Hx|Hx]; [by apply J3|].
    apply list_elem_of_singleton in Hx as ->. done.
  - destruct (decide (g ∈ visited st)) as [Hvis|Hnvis].
    + eexists. split; [done|]. split; [done|]. split; [done|].
      intros x Hx Hxgj. apply elem_of_app in Hx as [Hx|Hx]; [by apply J3|].
      by apply list_elem_of_singleton in Hx as ->.
    + assert (∀ x, connected rec g x → x ∉ visited st) as HV.
      { intros x Hgx Hx. apply J1 in Hx as (cg & Hcg & Hxcg).
        destruct (J2 cg Hcg) as (g0 & _ & Hiff).
        apply Hnvis, J1. exists cg. split; [done|]. apply Hiff.
        etransitivity; [by apply Hiff|]. by apply connected_sym. }
      destruct (bfs_spec (visited st) g fuel [g] ({[g]} ∪ visited st) [])
        as (cg' & -> & ND & Hiff).
      * lia.
      * exact HV.
      * split; [|split; [|split; [|split]]].
        -- simpl. set_solver.
        -- simpl. apply NoDup_singleton.
        -- simpl. by apply list_elem_of_singleton.
        -- intros x Hx. simpl in Hx. apply list_elem_of_singleton in Hx as ->.
           apply rtc_refl.
        -- intros a b Ha. by apply elem_of_nil in Ha.
      * simpl. lia.
      * eexists. split; [done|]. unfold comps_inv. cbn [visited super_cells].
        split; [|split].
        -- intros x. rewrite elem_of_union, elem_of_list_to_set, J1. split.
           ++ intros [(cg & Hcg & Hx)|Hx].
              ** exists cg. split; [|done]. apply elem_of_app. by left.
              ** exists cg'. split; [|done]. apply elem_of_app. right.
                 by apply list_elem_of_singleton.
           ++ intros (cg & Hcg & Hx). apply elem_of_app in Hcg as [Hcg|Hcg].
              ** left. by exists cg.
              ** apply list_elem_of_singleton in Hcg as ->. by right.
        -- intros cg Hcg. apply elem_of_app in Hcg as [Hcg|Hcg]; [by apply J2|].
           apply list_elem_of_singleton in Hcg as ->. by exists g.
        -- intros x Hx Hxgj. apply elem_of_union.
           apply elem_of_app in Hx as [Hx|Hx]; [left; by apply J3|].
           apply list_elem_of_singleton in Hx as ->. right.
           apply elem_of_list_to_set, Hiff, rtc_refl.
Qed.

Lemma visit_gids_spec first last gids processed st fuel :
  0 ≤ first → last ≤ num_cells rec →
  Forall (λ g, first ≤ g < last) gids →
  num_cells rec ≤ Z.of_nat fuel →
  comps_inv rec first last processed st →
  ∃ st', visit_gids fuel rec st gids = Some st'
         ∧ comps_inv rec first last (processed ++ gids) st'.
Proof.
  intros Hfirst Hlast Hgids Hfuel. revert processed st.
  induction Hgids as [|g gids Hg _ IH]; intros processed st Hinv.
  - exists st. by rewrite app_nil_r.
  - cbn [visit_gids].
    destruct (visit_gid_spec first last processed st g fuel) as (st1 & -> & Hinv1);
      try done.
    destruct (IH (processed ++ [g]) st1 Hinv1) as (st2 & E & Hinv2).
    exists st2. split; [done|]. by rewrite <- app_assoc in Hinv2.
Qed.

Lemma sort_gids_elem x cg : x ∈ sort_gids cg ↔ x ∈ cg.
Proof. unfold sort_gids. by rewrite merge_sort_Permutation. Qed.

Lemma sort_gids_hd_min x cg : x ∈ cg → hd 0 (sort_gids cg) ≤ x.
Proof.
  intros Hx. apply sort_gids_elem in Hx.
  pose proof (StronglySorted_merge_sort Z.le cg) as Hs.
  fold (sort_gids cg) in Hs.
  destruct (sort_gids cg) as [|m l]; [by apply elem_of_nil in Hx|].
  simpl. apply elem_of_cons in Hx as [->|Hx]; [done|].
  inversion Hs as [|? ? _ Hall]; subst.
  rewrite Forall_forall in Hall. by apply Hall.
Qed.

Lemma sort_gids_hd_elem x cg : x ∈ cg → hd 0 (sort_gids cg) ∈ cg.
Proof.
  intros Hx. apply sort_gids_elem in Hx. apply sort_gids_elem.
  destruct (sort_gids cg) as [|m l]; [by apply elem_of_nil in Hx|].
  simpl. by left.
Qed.

Lemma same_kinds_false cg :
  same_kinds rec cg = false
  ↔ ∃ x, x ∈ cg ∧ get_cell_kind rec x ≠ get_cell_kind rec (hd 0 cg).
Proof.
  unfold same_kinds. split.
  - intros H. destruct (forallb _ cg) eqn:E in H; [done|].
    clear H. induction cg as [|y cg' IH] in E |- *; [done|].
    generalize dependent (hd 0 (y :: cg')). intros h E. simpl in E.
    apply andb_false_iff in E as [E|E].
    + exists y. split; [by left|]. by apply bool_decide_eq_false in E.
    + assert (∃ x, x ∈ cg' ∧ get_cell_kind rec x ≠ get_cell_kind rec h) as (x & Hx & Hk).
      { clear IH. induction cg' as [|z cg'' IH2]; [done|]. simpl in E.
        apply andb_false_iff in E as [E|E].
        - exists z. split; [by left|]. by apply bool_decide_eq_false in E.
        - destruct (IH2 E) as (x & Hx & Hk). exists x. split; [by right|done]. }
      exists x. split; [by right|done].
  - intros (x & Hx & Hk). apply not_true_is_false. intros E.
    rewrite forallb_forall in E. apply list_elem_of_In, E in Hx.
    by apply bool_decide_eq_true in Hx.
Qed.

Lemma forallb_false {A} (f : A → bool) (l : list A) :
  forallb f l = false ↔ ∃ x, x ∈ l ∧ f x = false.
Proof.
  induction l as [|y l IH]; simpl.
  - split; [done|]. intros (x & Hx & _). by apply elem_of_nil in Hx.
  - rewrite andb_false_iff, IH. split.
    + intros [Hy|(x & Hx & Hf)]; [exists y|exists x]; split; try done; by constructor.
    + intros (x & Hx & Hf). apply elem_of_cons in Hx as [->|Hx]; [by left|].
      right. by exists x.
Qed.

Lemma keep_owned_error first supers :
  forallb (same_kinds rec) (keep_owned first supers) = false
  ↔ ∃ cg x, cg ∈ supers ∧ first ≤ hd 0 (sort_gids cg) ∧ x ∈ cg
             ∧ get_cell_kind rec x ≠ get_cell_kind rec (hd 0 (sort_gids cg)).
Proof.
  rewrite forallb_false. unfold keep_owned. split.
  - intros (cg' & Hcg' & Hk).
    apply list_elem_of_In, filter_In in Hcg' as [Hin Hhd].
    apply in_map_iff in Hin as (cg & <- & Hcg). apply list_elem_of_In in Hcg.
    apply same_kinds_false in Hk as (x & Hx & Hk).
    exists cg, x. split; [done|]. split; [|split; [by apply sort_gids_elem|done]].
    apply negb_true_iff, Z.ltb_ge in Hhd. done.
  - intros (cg & x & Hcg & Hhd & Hx & Hk).
    exists (sort_gids cg). split.
    + apply list_elem_of_In, filter_In. split.
      * apply in_map. by apply list_elem_of_In.
      * apply negb_true_iff, Z.ltb_ge. done.
    + apply same_kinds_false. exists x. split; [by apply sort_gids_elem|done].
Qed.

(** The outcome of [partition_load_balance] on a rank, with the state of
    the search loop it ends in and the invariant of that state. *)
Lemma partition_load_balance_outcome (num_domains : Z) (domain_id fuel : nat) :
  0 < num_domains < 2 ^ 32 →
  0 ≤ num_cells rec < 2 ^ 32 →
  Z.of_nat domain_id < num_domains →
  num_cells rec ≤ Z.of_nat fuel →
  ∃ st,
    comps_inv rec (block_start (num_cells rec) num_domains (Z.of_nat domain_id))
      (block_start (num_cells rec) num_domains (Z.of_nat domain_id + 1))
      (seqZ (block_start (num_cells rec) num_domains (Z.of_nat domain_id))
         (block_start (num_cells rec) num_domains (Z.of_nat domain_id + 1)
          - block_start (num_cells rec) num_domains (Z.of_nat domain_id))) st
    ∧ partition_load_balance fuel rec num_domains domain_id
      = Some (if forallb (same_kinds rec)
                   (keep_owned (block_start (num_cells rec) num_domains (Z.of_nat domain_id))
                      (super_cells st))
              then decomposed
                     (keep_owned
                        (block_start (num_cells rec) num_domains (Z.of_nat domain_id))
                        (super_cells st))
                     (reg_cells st)
                     (sort_gids
                        (reg_cells st
                         ++ concat (keep_owned
                                      (block_start (num_cells rec) num_domains
                                         (Z.of_nat domain_id))
                                      (super_cells st))))
              else arbor_internal_error).
Proof.
  intros HR HN Hd Hfuel. unfold partition_load_balance. cbv zeta.
  rewrite (gid_part_eq _ _ HR HN) by done. cbn [fst snd].
  set (first := block_start (num_cells rec) num_domains (Z.of_nat domain_id)).
  set (last := block_start (num_cells rec) num_domains (Z.of_nat domain_id + 1)).
  pose proof (block_start_range _ _ HR HN (Z.of_nat domain_id) ltac:(lia)) as Hf.
  pose proof (block_start_range _ _ HR HN (Z.of_nat domain_id + 1) ltac:(lia)) as Hl.
  fold first in Hf. fold last in Hl.
  destruct (visit_gids_spec first last (seqZ first (last - first)) []
              (mk_components [] [] ∅) fuel) as (st & -> & J).
  { lia. } { lia. }
  { apply Forall_forall. intros g Hg. apply elem_of_seqZ in Hg. lia. }
  { done. }
  { split; [|split].
    - intros x. simpl. split; [set_solver|]. intros (cg & Hcg & _).
      by apply elem_of_nil in Hcg.
    - intros cg Hcg. by apply elem_of_nil in Hcg.
    - intros x Hx. by apply elem_of_nil in Hx. }
  exists st. split; [exact J|]. by destruct (forallb _ _).
Qed.

(** The kind check fails on a rank exactly when a component whose
    smallest GID is in the rank's block is mixed. *)
Lemma owned_components_mixed first last st :
  comps_inv rec first last (seqZ first (last - first)) st →
  forallb (same_kinds rec) (keep_owned first (super_cells st)) = false
  ↔ ∃ m x, first ≤ m < last ∧ (∀ y, connected rec m y → m ≤ y)
           ∧ connected rec m x
           ∧ get_cell_kind rec x ≠ get_cell_kind rec m.
Proof.
  intros (J1 & J2 & J3). rewrite keep_owned_error. split.
  - intros (cg & x & Hcg & Hhd & Hx & Hk).
    destruct (J2 cg Hcg) as (g & Hg & Hcomp).
    assert (g ∈ cg) as Hgcg by apply Hcomp, rtc_refl.
    pose proof (sort_gids_hd_elem g cg Hgcg) as Hm.
    pose proof (sort_gids_hd_min g cg Hgcg) as Hmg.
    set (m := hd 0 (sort_gids cg)) in *.
    assert (connected rec m g) as Hmconn by (by apply connected_sym, Hcomp).
    exists m, x. split; [lia|]. split; [|split; [|done]].
    + intros y Hy. apply sort_gids_hd_min, Hcomp.
      etransitivity; [|exact Hy]. by apply connected_sym.
    + etransitivity; [exact Hmconn|]. by apply Hcomp.
  - intros (m & x & Hm & Hmin & Hmx & Hk).
    assert (gap_junctions_on rec m ≠ []) as Hgj.
    { apply rtc_inv in Hmx as [->|(y & (c & Hc & _) & _)]; [done|].
      intros E. rewrite E in Hc. by apply elem_of_nil in Hc. }
    assert (m ∈ visited st) as Hvis.
    { apply J3; [|done]. apply elem_of_seqZ. lia. }
    apply J1 in Hvis as (cg & Hcg & Hmcg).
    destruct (J2 cg Hcg) as (g & Hg & Hcomp).
    assert (connected rec g m) as Hgm by (by apply Hcomp).
    assert (hd 0 (sort_gids cg) = m) as Hhd.
    { pose proof (sort_gids_hd_min m cg Hmcg).
      pose proof (sort_gids_hd_elem m cg Hmcg) as Hin.
      apply Hcomp in Hin.
      assert (m ≤ hd 0 (sort_gids cg)); [|lia].
      apply Hmin. etransitivity; [|exact Hin]. by apply connected_sym. }
    exists cg, x. rewrite Hhd. split; [done|]. split; [lia|]. split; [|done].
    apply Hcomp. by etransitivity.
Qed.

(** X4: what one rank checks: on the rank [domain_id], with [fuel] enough for
    the searches, [partition_load_balance] returns, and it raises exactly
    when some gap-junction component whose smallest GID lies in this
    rank's block holds a cell of another kind than that smallest cell. *)
Theorem partition_load_balance_kind_error (num_domains : Z) (domain_id fuel : nat) :
  0 < num_domains < 2 ^ 32 →
  0 ≤ num_cells rec < 2 ^ 32 →
  Z.of_nat domain_id < num_domains →
  num_cells rec ≤ Z.of_nat fuel →
  ∃ o, partition_load_balance fuel rec num_domains domain_id = Some o
    ∧ (o = arbor_internal_error
       ↔ ∃ m x,
           (gid_part (num_cells rec) num_domains domain_id).1 ≤ m
             < (gid_part (num_cells rec) num_domains domain_id).2
           ∧ (∀ y, connected rec m y → m ≤ y)
           ∧ connected rec m x
           ∧ get_cell_kind rec x ≠ get_cell_kind rec m).
Proof.
  intros HR HN Hd Hfuel.
  destruct (partition_load_balance_outcome num_domains domain_id fuel HR HN Hd Hfuel)
    as (st & J & ->).
  rewrite (gid_part_eq _ _ HR HN) by done. cbn [fst snd].
  pose proof (owned_components_mixed _ _ _ J) as Hiff.
  eexists. split; [done|].
  destruct (forallb _ _).
  - split; [done|]. intros H. by apply Hiff in H.
  - split; [|done]. intros _. by apply Hiff.
Qed.

(** Every cell of a mixed pair lies in the component of a smallest cell,
    which some rank owns. *)
Lemma mixed_component_owner (num_domains : Z) (fuel : nat) (a b : Z) :
  0 < num_domains < 2 ^ 32 →
  0 ≤ num_cells rec < 2 ^ 32 →
  num_cells rec ≤ Z.of_nat fuel →
  connected rec a b →
  get_cell_kind rec a ≠ get_cell_kind rec b →
  ∃ (d : nat) m x,
    Z.of_nat d < num_domains
    ∧ block_start (num_cells rec) num_domains (Z.of_nat d) ≤ m
        < block_start (num_cells rec) num_domains (Z.of_nat d + 1)
    ∧ (∀ y, connected rec m y → m ≤ y)
    ∧ connected rec m a
    ∧ connected rec m x
    ∧ get_cell_kind rec x ≠ get_cell_kind rec m.
Proof.
  intros HR HN Hfuel Hab Hk.
  assert (∃ y, coupled rec a y) as (y & Hay).
  { apply rtc_inv in Hab as [->|(y & Hy & _)]; [done|]. by exists y. }
  assert (0 ≤ a < num_cells rec) as Ha
    by (eapply coupled_range, coupled_sym, Hay).
  assert (gap_junctions_on rec a ≠ []) as Hgj.
  { destruct Hay as (c & Hc & _). intros E. rewrite E in Hc.
    by apply elem_of_nil in Hc. }
  destruct (block_of_gid (num_cells rec) _ HR a (Z.to_nat num_domains)) as (da & Hda & Hba).
  { lia. } { rewrite Z2Nat.id by lia. rewrite (block_start_last _ _ HR). lia. }
  destruct (partition_load_balance_outcome num_domains da fuel HR HN ltac:(lia) Hfuel)
    as (st & (J1 & J2 & J3) & _).
  assert (a ∈ visited st) as Hvis.
  { apply J3; [|done]. apply elem_of_seqZ. lia. }
  apply J1 in Hvis as (cg & Hcg & Hacg).
  destruct (J2 cg Hcg) as (g & Hg & Hcomp).
  pose proof (sort_gids_hd_elem a cg Hacg) as Hm.
  set (m := hd 0 (sort_gids cg)) in *.
  assert (connected rec m a) as Hma.
  { etransitivity; [apply connected_sym, Hcomp, Hm|]. by apply Hcomp. }
  assert (0 ≤ m < num_cells rec) as Hmr
    by (eapply connected_range; [exact Ha|by apply connected_sym]).
  destruct (block_of_gid (num_cells rec) _ HR m (Z.to_nat num_domains)) as (dm & Hdm & Hbm).
  { lia. } { rewrite Z2Nat.id by lia. rewrite (block_start_last _ _ HR). lia. }
  assert (∃ x, connected rec m x ∧ get_cell_kind rec x ≠ get_cell_kind rec m)
    as (x & Hmx & Hkx).
  { destruct (decide (get_cell_kind rec a = get_cell_kind rec m)) as [E|E].
    - exists b. split; [by etransitivity|]. congruence.
    - exists a. done. }
  exists dm, m, x. split; [lia|]. split; [done|]. split; [|done].
  intros z Hz. apply sort_gids_hd_min, Hcomp.
  etransitivity; [apply Hcomp, Hm|]. exact Hz.
Qed.

(** C8: with a recipe that lists every gap junction on both of its cells
    and names only existing cells, the construction of the domain
    decomposition returns on every rank (given fuel for the searches).  If
    two cells connected by gap junctions differ in kind, it raises on the
    rank whose block holds the smallest GID of their component; and a rank
    on which it returns a decomposition owns only components of one kind:
    every component whose smallest GID lies in the rank's block is
    homogeneous.  A rank does not check the components that other ranks
    own. *)
Theorem partition_load_balance_mixed_kinds (num_domains : Z) (fuel : nat) :
  0 < num_domains < 2 ^ 32 →
  0 ≤ num_cells rec < 2 ^ 32 →
  num_cells rec ≤ Z.of_nat fuel →
  (∀ d : nat, Z.of_nat d < num_domains →
     ∃ o, partition_load_balance fuel rec num_domains d = Some o)
  ∧ (∀ a b, connected rec a b → get_cell_kind rec a ≠ get_cell_kind rec b →
       ∃ (d : nat) m,
         Z.of_nat d < num_domains
         ∧ (gid_part (num_cells rec) num_domains d).1 ≤ m
             < (gid_part (num_cells rec) num_domains d).2
         ∧ (∀ y, connected rec m y → m ≤ y)
         ∧ connected rec m a
         ∧ partition_load_balance fuel rec num_domains d = Some arbor_internal_error)
  ∧ (∀ (d : nat) o, Z.of_nat d < num_domains →
       partition_load_balance fuel rec num_domains d = Some o →
       o ≠ arbor_internal_error →
       ∀ m x y,
         (gid_part (num_cells rec) num_domains d).1 ≤ m
           < (gid_part (num_cells rec) num_domains d).2 →
         (∀ z, connected rec m z → m ≤ z) →
         connected rec m x → connected rec m y →
         get_cell_kind rec x = get_cell_kind rec y).
Proof.
  intros HR HN Hfuel. split; [|split].
  - intros d Hd.
    destruct (partition_load_balance_outcome num_domains d fuel HR HN Hd Hfuel)
      as (st & _ & ->).
    by eexists.
  - intros a b Hab Hk.
    destruct (mixed_component_owner num_domains fuel a b HR HN Hfuel Hab Hk)
      as (d & m & x & Hd & Hm & Hmin & Hma & Hmx & Hkx).
    exists d, m. split; [done|].
    rewrite (gid_part_eq _ _ HR HN) by done. cbn [fst snd].
    split; [done|]. split; [done|]. split; [done|].
    destruct (partition_load_balance_outcome num_domains d fuel HR HN Hd Hfuel)
      as (st & J & ->).
    assert (forallb (same_kinds rec)
              (keep_owned (block_start (num_cells rec) num_domains (Z.of_nat d))
                 (super_cells st)) = false) as ->; [|done].
    apply (owned_components_mixed _ _ _ J). by exists m, x.
  - intros d o Hd E Ho m x y Hm Hmin Hmx Hmy.
    rewrite (gid_part_eq _ _ HR HN) in Hm by done. cbn [fst snd] in Hm.
    destruct (partition_load_balance_outcome num_domains d fuel HR HN Hd Hfuel)
      as (st & J & E').
    rewrite E' in E. injection E as E.
    destruct (forallb _ _) eqn:F in E; [|by subst o].
    assert (∀ z, connected rec m z → get_cell_kind rec z = get_cell_kind rec m) as Hall.
    { intros z Hz.
      destruct (decide (get_cell_kind rec z = get_cell_kind rec m)) as [Ez|Ez]; [done|].
      assert (forallb (same_kinds rec)
                (keep_owned (block_start (num_cells rec) num_domains (Z.of_nat d))
                   (super_cells st)) = false) as F'.
      { apply (owned_components_mixed _ _ _ J). by exists m, z. }
      congruence. }
    by rewrite (Hall x Hmx), (Hall y Hmy).
Qed.

End components.

(** ** The reference sort meets the contract of [std::sort] *)

Section insertion_sort_contract.
Context {A : Type} (lt : A → A → bool).
Hypothesis lt_asym : ∀ a b, lt a b = true → lt b a = false.

Lemma sort_insert_perm x l : sort_insert lt x l ≡ₚ x :: l.
Proof.
  induction l as [|y l IH]; [done|]. simpl.
  destruct (lt x y); [done|]. rewrite IH. apply perm_swap.
Qed.

Lemma sort_insert_sorted x l :
  Sorted (λ a b, lt b a = false) l → Sorted (λ a b, lt b a = false) (sort_insert lt x l).
Proof.
  induction 1 as [|y l Hs IH Hh]; simpl; [by repeat constructor|].
  destruct (lt x y) eqn:E.
  - constructor; [by constructor|]. constructor. by apply lt_asym.
  - constructor; [exact IH|].
    destruct l as [|z l]; simpl; [by constructor|].
    inversion Hh; subst. destruct (lt x z); by constructor.
Qed.

Lemma insertion_sort_contract : std_sort_contract lt (insertion_sort lt).
Proof.
  intros l. induction l as [|x l [IHp IHs]]; [by split; [|constructor]|].
  simpl. split.
  - by rewrite sort_insert_perm, IHp.
  - by apply sort_insert_sorted.
Qed.
End insertion_sort_contract.

(** ** The single-precision rounding is a rounding *)

Lemma div_le_frac n1 d1 n2 d2 :
  0 < d1 → 0 < d2 → n1 * d2 ≤ n2 * d1 → n1 / d1 ≤ n2 / d2.
Proof.
  intros H1 H2 H. apply Z.div_le_lower_bound; [lia|].
  pose proof (Z.mul_div_le n1 d1 H1). nia.
Qed.

(** [examples.round_nearest_even n d] is within one half of [n / d], and even at
    one half. *)
Lemma round_nearest_even_spec n d :
  0 < d →
  (2 * examples.round_nearest_even n d - 1) * d ≤ 2 * n ≤ (2 * examples.round_nearest_even n d + 1) * d
  ∧ (2 * n = (2 * examples.round_nearest_even n d - 1) * d
     ∨ 2 * n = (2 * examples.round_nearest_even n d + 1) * d →
     Z.even (examples.round_nearest_even n d) = true).
Proof.
  intros Hd. unfold examples.round_nearest_even. cbv zeta.
  pose proof (Z.div_mod n d ltac:(lia)) as E.
  pose proof (Z.mod_pos_bound n d Hd) as Hr.
  set (q := n / d) in *. set (r := n mod d) in *.
  destruct (2 * r <? d) eqn:E1; [apply Z.ltb_lt in E1|apply Z.ltb_ge in E1].
  { split; [nia|]. intros [H|H]; nia. }
  destruct (d <? 2 * r) eqn:E2; [apply Z.ltb_lt in E2|apply Z.ltb_ge in E2].
  { split; [nia|]. intros [H|H]; nia. }
  destruct (Z.even q) eqn:E3.
  { split; [nia|]. done. }
  split; [nia|]. intros _. rewrite Z.even_add, E3. done.
Qed.

Lemma round_nearest_even_mono n1 d1 n2 d2 :
  0 < d1 → 0 < d2 → n1 * d2 ≤ n2 * d1 →
  examples.round_nearest_even n1 d1 ≤ examples.round_nearest_even n2 d2.
Proof.
  intros H1 H2 H.
  destruct (round_nearest_even_spec n1 d1 H1) as ([L1 _] & T1).
  destruct (round_nearest_even_spec n2 d2 H2) as ([_ U2] & T2).
  set (m1 := examples.round_nearest_even n1 d1) in *. set (m2 := examples.round_nearest_even n2 d2) in *.
  assert ((2 * m1 - 1) * (d1 * d2) ≤ (2 * m2 + 1) * (d1 * d2)) as Hle by nia.
  assert (2 * m1 - 1 ≤ 2 * m2 + 1) as Hm.
  { apply (Z.mul_le_mono_pos_r _ _ (d1 * d2)); [nia|done]. }
  destruct (decide (m1 = m2 + 1)) as [E|]; [|lia].
  exfalso.
  assert (2 * n1 = (2 * m1 - 1) * d1) as E1 by nia.
  assert (2 * n2 = (2 * m2 + 1) * d2) as E2 by nia.
  specialize (T1 (or_introl E1)). specialize (T2 (or_intror E2)).
  rewrite E, Z.even_add, T2 in T1. done.
Qed.

Lemma round_nearest_even_exact k d : 0 < d → examples.round_nearest_even (k * d) d = k.
Proof.
  intros Hd. unfold examples.round_nearest_even. cbv zeta.
  rewrite Z.div_mul, Z.mod_mul by lia.
  assert ((2 * 0 <? d) = true) as ->; [apply Z.ltb_lt; lia|done].
Qed.

Lemma round_24_bits_eq u d :
  examples.round_24_bits u d
  = examples.round_nearest_even u (d * 2 ^ Z.max 0 (Z.log2 (u / d) - 23))
    * 2 ^ Z.max 0 (Z.log2 (u / d) - 23).
Proof. done. Qed.

(** The significand that [examples.round_24_bits] computes has at most 24 bits (or
    is [2^24]), and 24 bits exactly above the least exponent. *)
Lemma round_24_bits_significand u d :
  0 ≤ u → 0 < d →
  let e := Z.max 0 (Z.log2 (u / d) - 23) in
  let m := examples.round_nearest_even u (d * 2 ^ e) in
  0 ≤ m ≤ 2 ^ 24 ∧ (0 < e → 2 ^ 23 ≤ m).
Proof.
  intros Hu Hd e m.
  assert (0 ≤ e) as He by (unfold e; lia).
  assert (0 < 2 ^ e) as Hp by (by apply Z.pow_pos_nonneg).
  assert (0 < d * 2 ^ e) as HD by nia.
  pose proof (Z.div_pos u d Hu Hd) as Hq.
  pose proof (Z.mul_div_le u d Hd) as Hq1.
  pose proof (Z.mul_succ_div_gt u d Hd) as Hq2.
  split; [split|].
  - pose proof (round_nearest_even_mono (0 * (d * 2 ^ e)) (d * 2 ^ e) u (d * 2 ^ e) HD HD)
      as H0.
    rewrite round_nearest_even_exact in H0 by done. apply H0.
    cbn [Z.mul]. apply Z.mul_nonneg_nonneg; lia.
  - pose proof (round_nearest_even_mono u (d * 2 ^ e) (2 ^ 24 * (d * 2 ^ e)) (d * 2 ^ e)
                  HD HD) as H1.
    rewrite round_nearest_even_exact in H1 by done. apply H1.
    assert (u / d < 2 ^ (e + 24)) as Hlt.
    { destruct (decide (u / d = 0)) as [->|Hne].
      - by apply Z.pow_pos_nonneg; lia.
      - destruct (Z.log2_spec (u / d) ltac:(lia)) as [_ Hub].
        eapply Z.lt_le_trans; [exact Hub|].
        apply Z.pow_le_mono_r; [lia|]. unfold e. lia. }
    rewrite Z.pow_add_r in Hlt by lia.
    assert (u < d * (2 ^ e * 2 ^ 24)) as Hu' by nia.
    apply Z.mul_le_mono_nonneg_r; lia.
  - intros He0.
    pose proof (round_nearest_even_mono (2 ^ 23 * (d * 2 ^ e)) (d * 2 ^ e) u (d * 2 ^ e)
                  HD HD) as H1.
    rewrite round_nearest_even_exact in H1 by done. apply H1.
    assert (0 < u / d) as Hpos.
    { destruct (decide (u / d = 0)) as [E|]; [|lia]. unfold e in He0.
      rewrite E in He0. simpl in He0. lia. }
    destruct (Z.log2_spec (u / d) Hpos) as [Hlb _].
    assert (Z.log2 (u / d) = e + 23) as El by (unfold e in *; lia).
    rewrite El, Z.pow_add_r in Hlb by lia.
    apply Z.mul_le_mono_nonneg_r; [lia|]. nia.
Qed.

Lemma round_24_bits_nonneg u d : 0 ≤ u → 0 < d → 0 ≤ examples.round_24_bits u d.
Proof.
  intros Hu Hd. rewrite round_24_bits_eq.
  destruct (round_24_bits_significand u d Hu Hd) as ([H0 _] & _).
  apply Z.mul_nonneg_nonneg; [done|]. apply Z.pow_nonneg. lia.
Qed.

Lemma round_24_bits_mono u1 d1 u2 d2 :
  0 ≤ u1 → 0 < d1 → 0 ≤ u2 → 0 < d2 → u1 * d2 ≤ u2 * d1 →
  examples.round_24_bits u1 d1 ≤ examples.round_24_bits u2 d2.
Proof.
  intros Hu1 Hd1 Hu2 Hd2 H. rewrite !round_24_bits_eq.
  destruct (round_24_bits_significand u1 d1 Hu1 Hd1) as ([_ Hm1] & _).
  destruct (round_24_bits_significand u2 d2 Hu2 Hd2) as ([Hm2 _] & Hn2).
  cbv zeta in *.
  pose proof (div_le_frac u1 d1 u2 d2 Hd1 Hd2 H) as Hq.
  pose proof (Z.log2_le_mono _ _ Hq) as Hl.
  set (e1 := Z.max 0 (Z.log2 (u1 / d1) - 23)) in *.
  set (e2 := Z.max 0 (Z.log2 (u2 / d2) - 23)) in *.
  assert (0 ≤ e1 ≤ e2) as [He1 He] by (unfold e1, e2; lia).
  assert (0 < 2 ^ e1) as Hp1 by (by apply Z.pow_pos_nonneg).
  assert (0 < 2 ^ e2) as Hp2 by (apply Z.pow_pos_nonneg; lia).
  destruct (decide (e1 = e2)) as [E|Hne].
  - rewrite <- E in *. apply Z.mul_le_mono_nonneg_r; [lia|].
    apply round_nearest_even_mono; nia.
  - specialize (Hn2 ltac:(lia)).
    transitivity (2 ^ 24 * 2 ^ e1); [nia|].
    transitivity (2 ^ 23 * 2 ^ e2); [|nia].
    rewrite <- !Z.pow_add_r by lia. apply Z.pow_le_mono_r; lia.
Qed.

Lemma round_24_bits_proper u1 d1 u2 d2 :
  0 ≤ u1 → 0 < d1 → 0 ≤ u2 → 0 < d2 → u1 * d2 = u2 * d1 →
  examples.round_24_bits u1 d1 = examples.round_24_bits u2 d2.
Proof.
  intros Hu1 Hd1 Hu2 Hd2 H. apply Z.le_antisymm; apply round_24_bits_mono; lia.
Qed.

Lemma round_24_bits_idem u d :
  0 ≤ u → 0 < d → examples.round_24_bits (examples.round_24_bits u d) 1 = examples.round_24_bits u d.
Proof.
  intros Hu Hd. rewrite (round_24_bits_eq u d).
  destruct (round_24_bits_significand u d Hu Hd) as ([Hm0 Hm1] & Hn).
  cbv zeta in *.
  set (e := Z.max 0 (Z.log2 (u / d) - 23)) in *.
  set (m := examples.round_nearest_even u (d * 2 ^ e)) in *.
  assert (0 ≤ e) as He by (unfold e; lia).
  assert (0 < 2 ^ e) as Hp by (by apply Z.pow_pos_nonneg).
  rewrite round_24_bits_eq, Z.div_1_r, !Z.mul_1_l.
  destruct (decide (m = 2 ^ 24)) as [E|Hne].
  - rewrite E, <- Z.pow_add_r, Z.log2_pow2 by lia.
    replace (Z.max 0 (24 + e - 23)) with (e + 1) by lia.
    replace (2 ^ (24 + e)) with (2 ^ 23 * 2 ^ (e + 1))
      by (rewrite <- Z.pow_add_r by lia; f_equal; lia).
    rewrite round_nearest_even_exact; [done|]. apply Z.pow_pos_nonneg; lia.
  - destruct (decide (2 ^ 23 ≤ m)) as [Hge|Hlt].
    + assert (Z.log2 (m * 2 ^ e) = 23 + e) as ->.
      { apply Z.log2_unique; [lia|]. rewrite Z.pow_succ_r, Z.pow_add_r by lia.
        split; nia. }
      replace (Z.max 0 (23 + e - 23)) with e by lia.
      by rewrite round_nearest_even_exact.
    + assert (e = 0) as -> by (destruct (decide (0 < e)) as [H|]; [specialize (Hn H)|]; lia).
      rewrite Z.pow_0_r, Z.mul_1_r.
      assert (Z.log2 m ≤ 22) as Hl.
      { destruct (decide (m = 0)) as [->|]; [done|].
        assert (Z.log2 m < 23); [|lia]. apply Z.log2_lt_pow2; lia. }
      replace (Z.max 0 (Z.log2 m - 23)) with 0 by lia.
      rewrite Z.pow_0_r. rewrite <- (Z.mul_1_r m) at 1.
      by rewrite round_nearest_even_exact, Z.mul_1_r.
Qed.

Lemma round32_pos_nonneg n d : 0 ≤ n → 0 < d → (0 <= examples.round32_pos n d)%Q.
Proof.
  intros Hn Hd. unfold examples.round32_pos. cbv zeta.
  pose proof (round_24_bits_nonneg (n * 2 ^ 149) d ltac:(lia) Hd) as Hr.
  destruct (_ <=? _); [|done].
  rewrite Qred_correct. unfold Qle. cbn [Qnum Qden]. lia.
Qed.

Lemma round32_pos_mono n1 d1 n2 d2 :
  0 ≤ n1 → 0 < d1 → 0 ≤ n2 → 0 < d2 → n1 * d2 ≤ n2 * d1 →
  (examples.round32_pos n1 d1 <= examples.round32_pos n2 d2)%Q.
Proof.
  intros Hn1 Hd1 Hn2 Hd2 H. unfold examples.round32_pos. cbv zeta.
  pose proof (round_24_bits_mono (n1 * 2 ^ 149) d1 (n2 * 2 ^ 149) d2
                ltac:(lia) Hd1 ltac:(lia) Hd2 ltac:(nia)) as Hr.
  set (r1 := examples.round_24_bits (n1 * 2 ^ 149) d1) in *.
  set (r2 := examples.round_24_bits (n2 * 2 ^ 149) d2) in *.
  destruct (r1 <=? _) eqn:E1; destruct (r2 <=? _) eqn:E2;
    try apply Z.leb_le in E1; try apply Z.leb_le in E2;
    try apply Z.leb_gt in E1; try apply Z.leb_gt in E2.
  - rewrite !Qred_correct. unfold Qle. cbn [Qnum Qden].
    apply Z.mul_le_mono_nonneg_r; [done|exact Hr].
  - rewrite Qred_correct. unfold Qle, inject_Z. cbn [Qnum Qden].
    assert ((2 ^ 24 - 1) * 2 ^ 253 ≤ 2 ^ 128 * Z.pos (2 ^ 149)) by (by vm_compute).
    lia.
  - lia.
  - apply Qle_refl.
Qed.

(** The three cases of [examples.round32], by the sign of the number. *)
Lemma round32_cases (x : Q) :
  let n := Qnum (Qred x) in
  let d := Z.pos (Qden (Qred x)) in
  (x == 0 ∧ examples.round32 x = 0)%Q
  ∨ (0 < n ∧ (0 < x)%Q ∧ examples.round32 x = examples.round32_pos n d)
  ∨ (n < 0 ∧ (x < 0)%Q ∧ examples.round32 x = Qopp (examples.round32_pos (- n) d)).
Proof.
  intros n d. pose proof (Qred_correct x) as E. unfold examples.round32. cbv zeta.
  subst n d. destruct (Qred x) as [[|p|p] d]; cbn [Qnum Qden].
  - left. split; [|done]. by rewrite <- E.
  - right. left. split; [done|]. split; [|done]. by rewrite <- E.
  - right. right. split; [done|]. split; [|done]. by rewrite <- E.
Qed.

Lemma Qred_cross_le (x y : Q) :
  (x <= y)%Q →
  Qnum (Qred x) * Z.pos (Qden (Qred y)) ≤ Qnum (Qred y) * Z.pos (Qden (Qred x)).
Proof. intros H. rewrite <- (Qred_correct x), <- (Qred_correct y) in H. exact H. Qed.

Lemma round32_mono (x y : Q) : (x <= y)%Q → (examples.round32 x <= examples.round32 y)%Q.
Proof.
  intros H. pose proof (Qred_cross_le x y H) as Hf.
  destruct (round32_cases x) as [[Hx ->]|[(Hnx & Hx & ->)|(Hnx & Hx & ->)]];
    destruct (round32_cases y) as [[Hy ->]|[(Hny & Hy & ->)|(Hny & Hy & ->)]];
    try lra.
  - by apply round32_pos_nonneg; lia.
  - by apply round32_pos_mono; lia.
  - apply (Qopp_le_compat 0). by apply round32_pos_nonneg; lia.
  - apply (Qle_trans _ 0); [apply (Qopp_le_compat 0)|]; by apply round32_pos_nonneg; lia.
  - apply Qopp_le_compat. by apply round32_pos_mono; lia.
Qed.

Lemma round32_pos_fixed n d :
  0 < n → 0 < d → (examples.round32 (examples.round32_pos n d) == examples.round32_pos n d)%Q.
Proof.
  intros Hn Hd. unfold examples.round32_pos. cbv zeta.
  pose proof (round_24_bits_nonneg (n * 2 ^ 149) d ltac:(lia) Hd) as Hr.
  pose proof (round_24_bits_idem (n * 2 ^ 149) d ltac:(lia) Hd) as Hi.
  set (r := examples.round_24_bits (n * 2 ^ 149) d) in *.
  destruct (r <=? _) eqn:E; [|by vm_compute].
  destruct (decide (r = 0)) as [->|Hne]; [by vm_compute|].
  assert (0 < Qmake r (2 ^ 149))%Q as Hpos by (unfold Qlt; cbn [Qnum Qden]; lia).
  destruct (round32_cases (Qred (Qmake r (2 ^ 149))))
    as [[Hx _]|[(Hnx & Hx & ->)|(Hnx & Hx & _)]].
  - rewrite Qred_correct in Hx. lra.
  - rewrite (Qred_complete _ _ (Qred_correct (Qmake r (2 ^ 149)))).
    pose proof (Qred_correct (Qmake r (2 ^ 149))) as Hq.
    unfold Qeq in Hq. cbn [Qnum Qden] in Hq.
    unfold examples.round32_pos. cbv zeta.
    rewrite (round_24_bits_proper _ _ r 1); [|lia|done|lia|lia|lia].
    rewrite Hi, E. reflexivity.
  - rewrite Qred_correct in Hx. lra.
Qed.

Lemma round32_opp (x : Q) : (examples.round32 (- x) == - examples.round32 x)%Q.
Proof.
  unfold examples.round32. cbv zeta. rewrite Qred_opp.
  destruct (Qred x) as [[|p|p] d]; cbn [Qnum Qden Qopp Z.opp]; [done|reflexivity|].
  by rewrite Qopp_involutive.
Qed.

Lemma round32_rounding : rounding examples.round32.
Proof.
  split; [exact round32_mono|]. split; [|done].
  intros x.
  destruct (round32_cases x) as [[Hx ->]|[(Hnx & Hx & ->)|(Hnx & Hx & ->)]].
  - done.
  - by apply round32_pos_fixed.
  - rewrite round32_opp. apply Qopp_comp. by apply round32_pos_fixed; lia.
Qed.

(** ** The theorems at concrete inputs *)

Lemma event_not_in_own_epoch_witness :
  event_time (make_event (mk_connection (examples.src 0) (mk_member 10 0) (1 # 2) 2 0)
                         (mk_spike (examples.src 0) 1))
  = (1 + 2)%Q
  ∧ (2 <= event_time (make_event (mk_connection (examples.src 0) (mk_member 10 0) (1 # 2) 2 0)
                                 (mk_spike (examples.src 0) 1)))%Q
  ∧ model.event_time_less
      (make_event (mk_connection (examples.src 0) (mk_member 10 0) (1 # 2) 2 0)
                  (mk_spike (examples.src 0) 1)) 2 = false.
Proof.
  apply (event_not_in_own_epoch
           (mk_connection (examples.src 0) (mk_member 10 0) (1 # 2) 2 0)
           (mk_spike (examples.src 0) 1) 2 1 2); by vm_compute.
Defined.

Lemma make_event_queues_pairs_witness :
  length (make_event_queues examples.comm examples.gathered) = 2%nat
  ∧ ∀ g, (g < 2)%nat →
      ∃ q, make_event_queues examples.comm examples.gathered !! g = Some q
           ∧ q ≡ₚ expected_events examples.comm examples.gathered g.
Proof.
  apply (make_event_queues_pairs examples.comm examples.gathered).
  intros dom Hdom.
  destruct dom as [|[|dom]]; [| |simpl in Hdom; lia];
    split; vm_compute; repeat constructor.
Defined.

Lemma merge_directions_same_events_witness :
  ∃ q new1 new2,
    [[]; []] !! 0%nat = Some q
    ∧ events_from_connections (cons_of examples.comm 0) (spks_of examples.gathered 0)
        [[]; []] !! 0%nat = Some (q ++ new1)
    ∧ events_from_spikes (spks_of examples.gathered 0) (cons_of examples.comm 0)
        [[]; []] !! 0%nat = Some (q ++ new2)
    ∧ new1 ≡ₚ new2.
Proof.
  apply (merge_directions_same_events
           (cons_of examples.comm 0) (spks_of examples.gathered 0) [[]; []] 0).
  - vm_compute. repeat constructor.
  - vm_compute. repeat constructor.
  - simpl. lia.
Defined.

Lemma std_sort_contract_singleton {A} (lt : A → A → bool) sort (x : A) :
  std_sort_contract lt sort → sort [x] = [x].
Proof. intros H. destruct (H [x]) as [P _]. by apply Permutation_singleton_r in P. Qed.

(** C4 at a concrete lane: the current lane holds an event for target 0
    at time 5 (and is sorted in the total order); merging one new event
    for target 1 at time 5 puts the new event first, whatever [std::sort]
    does, so the next lane has target 1 before target 0 at equal times
    and is not sorted by (time, target, weight).  [merge_events] compares
    times only, in the sort and in the merge. *)
Lemma merge_events_ties_not_ordered :
  is_sorted event_total_lt
    (model.event_lanes examples.m_lanes (epoch.id (model.epoch_ examples.m_lanes)) !!! 0%nat)
  = true
  ∧ (∀ sort_events, std_sort_contract event_time_lt sort_events →
       model.event_lanes (model.merge_events sort_events [examples.ev1] 0 examples.m_lanes)
         (S (epoch.id (model.epoch_ examples.m_lanes))) !!! 0%nat
       = [examples.ev1; examples.ev0; mk_event 2 7 1])
  ∧ is_sorted event_total_lt [examples.ev1; examples.ev0; mk_event 2 7 1] = false.
Proof.
  split; [by vm_compute|]. split; [|by vm_compute].
  intros sort_events Hsort.
  rewrite merge_events_lane by (simpl; lia).
  rewrite (std_sort_contract_singleton _ _ _ Hsort). by vm_compute.
Qed.

Lemma merge_events_sorted_by_time_witness :
  sorted_by_time
    (model.event_lanes
       (model.merge_events examples.sort_events [examples.ev1; mk_event 0 2 1] 0
          examples.m_lanes)
       (S (epoch.id (model.epoch_ examples.m_lanes))) !!! 0%nat).
Proof.
  apply (merge_events_sorted_by_time examples.sort_events examples.m_lanes
           [examples.ev1; mk_event 0 2 1] 0).
  - apply insertion_sort_contract, event_time_lt_asym.
  - simpl. lia.
  - simpl. lia.
  - vm_compute. repeat constructor.
Defined.

Lemma merge_no_events_keeps_suffix_witness :
  ∃ prefix,
    model.event_lanes examples.m_lanes (epoch.id (model.epoch_ examples.m_lanes)) !!! 0%nat
    = prefix ++ model.event_lanes (model.merge_events examples.sort_events [] 0 examples.m_lanes)
                  (S (epoch.id (model.epoch_ examples.m_lanes))) !!! 0%nat
    ∧ Forall (λ e, (event_time e < epoch.tfinal (model.epoch_ examples.m_lanes))%Q) prefix
    ∧ Forall (λ e, (epoch.tfinal (model.epoch_ examples.m_lanes) <= event_time e)%Q)
        (model.event_lanes (model.merge_events examples.sort_events [] 0 examples.m_lanes)
           (S (epoch.id (model.epoch_ examples.m_lanes))) !!! 0%nat).
Proof.
  apply (merge_no_events_keeps_suffix examples.sort_events examples.m_lanes 0).
  - apply insertion_sort_contract, event_time_lt_asym.
  - simpl. lia.
  - simpl. lia.
  - vm_compute. repeat constructor.
Defined.

Lemma num_spikes_cumulative_witness :
  ∃ m' epochs,
    model.run examples.ticker examples.policy examples.sort_spikes examples.sort_events
      examples.float_max examples.round32 examples.queue_range 5 3 (1 # 40) examples.m_ring
    = Some (m', epochs)
    ∧ (∃ gathered,
         model.global_export_log m' = model.global_export_log examples.m_ring ++ gathered
         ∧ length gathered = S (length epochs)
         ∧ (model.num_spikes examples.m_ring + total_gathered gathered < 2 ^ 64 →
            model.num_spikes m' = model.num_spikes examples.m_ring + total_gathered gathered
            ∧ model.num_spikes examples.m_ring ≤ model.num_spikes m'))
    ∧ model.num_spikes (model.reset examples.ticker m') = 0.
Proof.
  eexists _, _. split; [by vm_compute|].
  refine (proj2 (proj2 (proj2 (num_spikes_cumulative examples.ticker examples.policy examples.sort_spikes
                   examples.sort_events examples.float_max examples.round32
                   examples.queue_range 5 3 (1 # 40) examples.m_ring _ _ _ _)))).
  - by vm_compute.
  - by vm_compute.
Defined.

Lemma run_single_epoch_without_connections_witness :
  communicator.min_delay examples.policy_one examples.float_max
    (model.communicator_ examples.m_empty)
  = comms_min examples.policy_one examples.float_max
  ∧ ∃ m' e,
      model.run examples.ticker examples.policy_one examples.sort_spikes examples.sort_events
        examples.float_max examples.round32 examples.queue_range 1 10 (1 # 40)
        examples.m_empty
      = Some (m', [(model.t_ examples.m_empty, e)])
      ∧ epoch.id e = 0%nat
      ∧ (epoch.tfinal e == 10)%Q
      ∧ (model.t_ m' == 10)%Q.
Proof.
  destruct (run_single_epoch_without_connections examples.ticker examples.policy_one
              examples.sort_spikes examples.sort_events examples.float_max
              examples.round32 examples.queue_range 10 (1 # 40) examples.m_empty
              eq_refl) as [Hmin Hrun].
  split; [exact Hmin|]. apply Hrun.
  - exact round32_rounding.
  - by vm_compute.
  - intros v. reflexivity.
  - reflexivity.
  - by vm_compute.
  - by vm_compute.
Defined.

(** C10, counterexample: without connections and on one rank the epoch
    interval is [float_max/2], which does not exceed the finite
    [tfinal = float_max]; in single precision the run to [float_max] does
    not finish within one pass of the loop and takes two epochs,
    [0, float_max/2] and [float_max/2, float_max]. *)
Lemma run_without_connections_two_epochs :
  connections_ (model.communicator_ examples.m_empty) = []
  ∧ comms_size examples.policy_one = 1%nat
  ∧ (examples.round32
       (communicator.min_delay examples.policy_one examples.float_max
          (model.communicator_ examples.m_empty) / 2) < examples.float_max)%Q
  ∧ model.run examples.ticker examples.policy_one examples.sort_spikes examples.sort_events
      examples.float_max examples.round32 examples.queue_range 1 examples.float_max
      (1 # 40) examples.m_empty
    = None
  ∧ ∃ e0 t1 e1,
      snd <$> model.run examples.ticker examples.policy_one examples.sort_spikes
                examples.sort_events examples.float_max examples.round32
                examples.queue_range 2 examples.float_max (1 # 40) examples.m_empty
      = Some [(0%Q, e0); (t1, e1)]
      ∧ epoch.id e0 = 0%nat ∧ (epoch.tfinal e0 == examples.float_max / 2)%Q
      ∧ (t1 == examples.float_max / 2)%Q
      ∧ epoch.id e1 = 1%nat ∧ (epoch.tfinal e1 == examples.float_max)%Q.
Proof.
  split; [reflexivity|]. split; [reflexivity|]. split; [by vm_compute|].
  split; [by vm_compute|].
  eexists _, _, _. split; [by vm_compute|]. repeat split; by vm_compute.
Qed.

(** C6 on [dryrun_global_policy]: with two ranks of four cells and two
    local spikes the gathered spikes are the two shifted copies, but the
    partition is left at its initial zeros instead of [0; 2; 4]: its
    slices [partition[r], partition[r+1]) are all empty. *)
Lemma dryrun_policy_partition_zero :
  dryrun_global_policy.gather_spikes (dryrun_global_policy.set_sizes 2 4)
    examples.local_spikes
  = mk_gathered (values (replicated_spikes 2 4 examples.local_spikes)) [0; 0; 0]%nat
  ∧ partition (replicated_spikes 2 4 examples.local_spikes) = [0; 2; 4]%nat
  ∧ spks_of (dryrun_global_policy.gather_spikes (dryrun_global_policy.set_sizes 2 4)
               examples.local_spikes) 1 = []
  ∧ spks_of (replicated_spikes 2 4 examples.local_spikes) 1
    = [mk_spike (examples.src 5) 1; mk_spike (examples.src 7) 2].
Proof. repeat split; by vm_compute. Qed.

Lemma dry_run_context_gather_spikes_witness :
  length (values (dry_run_context_impl.gather_spikes examples.dry_run examples.local_spikes))
  = (2 * 2)%nat
  ∧ length (partition (dry_run_context_impl.gather_spikes examples.dry_run
                         examples.local_spikes)) = 3%nat
  ∧ (∀ r, (r ≤ 2)%nat →
       partition (dry_run_context_impl.gather_spikes examples.dry_run examples.local_spikes)
         !! r = Some (r * 2)%nat)
  ∧ (∀ i, (i < 2)%nat →
       subrange_view
         (values (dry_run_context_impl.gather_spikes examples.dry_run examples.local_spikes))
         (partition (dry_run_context_impl.gather_spikes examples.dry_run
                       examples.local_spikes) !!! i)
         (partition (dry_run_context_impl.gather_spikes examples.dry_run
                       examples.local_spikes) !!! S i)
       = map (λ s, mk_spike (mk_member (gid (source s) + Z.of_nat i * 4)
                                       (index (source s))) (time s))
             examples.local_spikes).
Proof.
  apply (dry_run_context_gather_spikes examples.dry_run examples.local_spikes).
  - simpl. lia.
  - simpl. lia.
  - simpl. lia.
  - repeat constructor; simpl; lia.
Defined.

(** C7 on the legacy [domain_decomposition]: for 49 cells on 49 ranks the
    boundaries [first_cell], computed in double precision, give rank 0 no
    cell and rank 2 two cells, where the floor and the ceiling of 49/49
    are both 1; the block rule of [partition_load_balance] gives every
    rank one cell. *)
Lemma first_cell_blocks_unbalanced :
  domain_decomposition.first_cell 49 49 1 = 0
  ∧ domain_decomposition.num_local_cells 49 49 0 = 0
  ∧ domain_decomposition.num_local_cells 49 49 2 = 2
  ∧ 49 / 49 = 1
  ∧ (49 + 49 - 1) / 49 = 1
  ∧ load_balance.dom_size 49 49 0 = 1
  ∧ load_balance.dom_size 49 49 2 = 1.
Proof. repeat split; by vm_compute. Qed.

Lemma dom_size_blocks_witness :
  (∀ d : nat, Z.of_nat d < 3 →
     let part := load_balance.gid_part 10 3 d in
     part.2 - part.1 = load_balance.dom_size 10 3 (Z.of_nat d)
     ∧ (load_balance.dom_size 10 3 (Z.of_nat d) = 10 / 3
        ∨ load_balance.dom_size 10 3 (Z.of_nat d) = (10 + 3 - 1) / 3))
  ∧ (load_balance.gid_part 10 3 0).1 = 0
  ∧ (load_balance.gid_part 10 3 (Z.to_nat 3 - 1)).2 = 10
  ∧ (∀ d : nat, Z.of_nat (S d) < 3 →
       (load_balance.gid_part 10 3 d).2 = (load_balance.gid_part 10 3 (S d)).1)
  ∧ sum_sizes (map (load_balance.dom_size 10 3) (seqZ 0 3)) = 10
  ∧ (∀ g, 0 ≤ g < 10 →
       ∃ d : nat, Z.of_nat d < 3
         ∧ (load_balance.gid_part 10 3 d).1 ≤ g < (load_balance.gid_part 10 3 d).2
         ∧ ∀ d' : nat, Z.of_nat d' < 3 →
             (load_balance.gid_part 10 3 d').1 ≤ g < (load_balance.gid_part 10 3 d').2 →
             d' = d).
Proof. apply (dom_size_blocks 10 3); lia. Defined.

(** The gap junctions of [examples.rec_mixed] are listed on both cells
    and name cells below 4. *)
Lemma rec_mixed_coupled a b :
  load_balance.coupled examples.rec_mixed a b ↔ (a = 2 ∧ b = 3) ∨ (a = 3 ∧ b = 2).
Proof.
  unfold load_balance.coupled, examples.rec_mixed. simpl. split.
  - intros (c & Hc & <-).
    destruct (a =? 2) eqn:E2; [apply Z.eqb_eq in E2|].
    + apply list_elem_of_singleton in Hc as ->. by left.
    + destruct (a =? 3) eqn:E3; [apply Z.eqb_eq in E3|by apply elem_of_nil in Hc].
      apply list_elem_of_singleton in Hc as ->. by right.
  - intros [[-> ->]|[-> ->]]; simpl.
    + exists (mk_gj (examples.src 3)). split; [by left|done].
    + exists (mk_gj (examples.src 2)). split; [by left|done].
Qed.

(** C8, counterexample: only the rank that owns a component checks it.
    Cells 2 and 3 are coupled and differ in kind; on rank 0 of 2 (whose
    block is [0, 2)) the construction does not fail but returns a
    decomposition, on rank 1 it raises. *)
Lemma partition_load_balance_other_rank :
  load_balance.coupled examples.rec_mixed 2 3
  ∧ get_cell_kind examples.rec_mixed 2 ≠ get_cell_kind examples.rec_mixed 3
  ∧ load_balance.partition_load_balance 4 examples.rec_mixed 2 0
    = Some (load_balance.decomposed [] [0; 1] [0; 1])
  ∧ load_balance.partition_load_balance 4 examples.rec_mixed 2 1
    = Some load_balance.arbor_internal_error.
Proof.
  split; [apply rec_mixed_coupled; by left|].
  split; [done|]. split; by vm_compute.
Qed.

Lemma rec_mixed_coupled_sym a b :
  load_balance.coupled examples.rec_mixed a b → load_balance.coupled examples.rec_mixed b a.
Proof. intros H. apply rec_mixed_coupled. apply rec_mixed_coupled in H. tauto. Qed.

Lemma rec_mixed_coupled_range a b :
  load_balance.coupled examples.rec_mixed a b → 0 ≤ b < num_cells examples.rec_mixed.
Proof. intros H. apply rec_mixed_coupled in H. simpl. lia. Qed.

Lemma partition_load_balance_kind_error_witness :
  ∃ o, load_balance.partition_load_balance 4 examples.rec_mixed 2 1 = Some o
    ∧ (o = load_balance.arbor_internal_error
       ↔ ∃ m x,
           (load_balance.gid_part (num_cells examples.rec_mixed) 2 1).1 ≤ m
             < (load_balance.gid_part (num_cells examples.rec_mixed) 2 1).2
           ∧ (∀ y, load_balance.connected examples.rec_mixed m y → m ≤ y)
           ∧ load_balance.connected examples.rec_mixed m x
           ∧ get_cell_kind examples.rec_mixed x ≠ get_cell_kind examples.rec_mixed m).
Proof.
  apply (partition_load_balance_kind_error examples.rec_mixed
           rec_mixed_coupled_sym rec_mixed_coupled_range).
  - lia.
  - simpl. lia.
  - lia.
  - simpl. lia.
Defined.

Lemma partition_load_balance_mixed_kinds_witness :
  (∀ d : nat, Z.of_nat d < 2 →
     ∃ o, load_balance.partition_load_balance 4 examples.rec_mixed 2 d = Some o)
  ∧ (∀ a b, load_balance.connected examples.rec_mixed a b →
       get_cell_kind examples.rec_mixed a ≠ get_cell_kind examples.rec_mixed b →
       ∃ (d : nat) m,
         Z.of_nat d < 2
         ∧ (load_balance.gid_part (num_cells examples.rec_mixed) 2 d).1 ≤ m
             < (load_balance.gid_part (num_cells examples.rec_mixed) 2 d).2
         ∧ (∀ y, load_balance.connected examples.rec_mixed m y → m ≤ y)
         ∧ load_balance.connected examples.rec_mixed m a
         ∧ load_balance.partition_load_balance 4 examples.rec_mixed 2 d
           = Some load_balance.arbor_internal_error)
  ∧ (∀ (d : nat) o, Z.of_nat d < 2 →
       load_balance.partition_load_balance 4 examples.rec_mixed 2 d = Some o →
       o ≠ load_balance.arbor_internal_error →
       ∀ m x y,
         (load_balance.gid_part (num_cells examples.rec_mixed) 2 d).1 ≤ m
           < (load_balance.gid_part (num_cells examples.rec_mixed) 2 d).2 →
         (∀ z, load_balance.connected examples.rec_mixed m z → m ≤ z) →
         load_balance.connected examples.rec_mixed m x →
         load_balance.connected examples.rec_mixed m y →
         get_cell_kind examples.rec_mixed x = get_cell_kind examples.rec_mixed y).
Proof.
  apply (partition_load_balance_mixed_kinds examples.rec_mixed
           rec_mixed_coupled_sym rec_mixed_coupled_range).
  - lia.
  - simpl. lia.
  - simpl. lia.
Defined.

Lemma round32_proper x y : (x == y)%Q → (examples.round32 x == examples.round32 y)%Q.
Proof.
  intros H. unfold examples.round32. cbv zeta.
  by rewrite (Qred_complete x y H).
Qed.

Lemma run_stalls_when_interval_is_absorbed_witness :
  model.run examples.ticker examples.policy examples.sort_spikes examples.sort_events
    examples.float_max examples.round32 examples.queue_range 1000 (2 ^ 26) (1 # 40)
    (model.set_time examples.m_ring (2 ^ 25) (epoch.mk 0 0))
  = None.
Proof.
  apply (run_stalls_when_interval_is_absorbed examples.ticker examples.policy
           examples.sort_spikes examples.sort_events examples.float_max examples.round32
           examples.queue_range 1000 (2 ^ 26) (1 # 40)
           (model.set_time examples.m_ring (2 ^ 25) (epoch.mk 0 0))).
  - exact round32_proper.
  - by vm_compute.
  - by vm_compute.
Defined.

(** * Part III: further properties of the code *)

(** ** The legacy dry-run policy *)

Lemma foldl_insert_seq {A} (f : nat → A) (s n : nat) (g : list A) :
  (s + n ≤ length g)%nat →
  foldl (λ g i, <[(s + i)%nat := f i]> g) g (seq 0 n)
  = take s g ++ map f (seq 0 n) ++ drop (s + n) g.
Proof.
  induction n as [|n IH]; intros Hlen.
  - simpl. by rewrite Nat.add_0_r, take_drop.
  - rewrite seq_S, foldl_app, map_app, IH by lia. cbn [foldl map Nat.add].
    destruct (drop (s + n)%nat g) as [|y rest] eqn:E.
    { apply (f_equal length) in E. rewrite length_drop in E. simpl in E. lia. }
    assert (drop (s + S n)%nat g = rest) as ->.
    { replace (s + S n)%nat with ((s + n) + 1)%nat by lia.
      by rewrite <- drop_drop, E. }
    rewrite !insert_app_r_alt; rewrite ?length_take, ?length_map, ?length_seq; try lia.
    replace (s + n - s `min` length g - n)%nat with 0%nat by lia.
    cbn [insert list_insert]. by rewrite <- !app_assoc.
Qed.

Lemma dryrun_policy_values_loop (h : nat → nat → spike) (len k r : nat) :
  (k ≤ r)%nat →
  foldl (λ g rank, foldl (λ g i, <[(rank * len + i)%nat := h rank i]> g) g (seq 0 len))
        (replicate (r * len) dryrun_global_policy.spike_default) (seq 0 k)
  = flat_map (λ rank, map (h rank) (seq 0 len)) (seq 0 k)
    ++ replicate ((r - k) * len) dryrun_global_policy.spike_default.
Proof.
  induction k as [|k IH]; intros Hk.
  - simpl. by rewrite Nat.sub_0_r.
  - assert (length (flat_map (λ rank, map (h rank) (seq 0 len)) (seq 0 k)) = (k * len)%nat)
      as Hl.
    { rewrite (flat_map_blocks_length _ len), length_seq; [done|].
      intros j. by rewrite length_map, length_seq. }
    rewrite seq_S, foldl_app, flat_map_app, IH by lia. cbn [foldl flat_map Nat.add].
    rewrite (foldl_insert_seq (h k))
      by (rewrite length_app, length_replicate, Hl; nia).
    rewrite take_app_length' by done.
    rewrite drop_app_ge by lia. rewrite drop_replicate.
    rewrite app_nil_r, <- app_assoc. do 3 f_equal. rewrite Hl. nia.
Qed.

Lemma map_lookup_total_seq {A B} `{Inhabited A} (f : A → B) (l : list A) :
  map (λ i, f (l !!! i)) (seq 0 (length l)) = map f l.
Proof.
  apply list_eq. intros i. rewrite !list_lookup_fmap.
  destruct (decide (i < length l)%nat) as [Hi|Hi].
  - rewrite lookup_seq_lt by done. simpl.
    destruct (lookup_lt_is_Some_2 l i Hi) as [x Hx].
    by rewrite Hx, (list_lookup_total_correct _ _ _ Hx).
  - rewrite lookup_seq_ge by lia. simpl. by rewrite lookup_ge_None_2 by lia.
Qed.

Lemma dryrun_policy_partition_lookup (cfg : dryrun_global_policy.sizes)
    (local_spikes : list spike) (r : nat) :
  partition (dryrun_global_policy.gather_spikes cfg local_spikes) !!! r = 0%nat.
Proof.
  unfold dryrun_global_policy.gather_spikes. cbn [partition].
  destruct (decide (r < Z.to_nat (dryrun_global_policy.size cfg + 1))%nat).
  - by rewrite lookup_total_replicate_2.
  - rewrite list_lookup_total_alt, lookup_ge_None_2; [done|].
    rewrite length_replicate. lia.
Qed.

(** X7: [dryrun_global_policy::gather_spikes] returns, for [size()]
    ranks, one copy of the local spikes per rank, in rank order, the copy
    of rank [r] with every source GID shifted by [r * num_local_cells] (in
    32 bits): [size() * n] spikes for [n] local ones.  The partition has
    [size() + 1] entries, and every one of them is zero. *)
Theorem dryrun_policy_gather_spikes_values (cfg : dryrun_global_policy.sizes)
    (local_spikes : list spike) :
  let g := dryrun_global_policy.gather_spikes cfg local_spikes in
  let n := Z.to_nat (dryrun_global_policy.size cfg) in
  values g
  = flat_map (λ rank,
       map (λ s, shift_gid s (wrap32 (Z.of_nat rank
                                      * dryrun_global_policy.dryrun_num_local_cells cfg)))
           local_spikes) (seq 0 n)
  ∧ length (values g) = (n * length local_spikes)%nat
  ∧ length (partition g) = Z.to_nat (dryrun_global_policy.size cfg + 1)
  ∧ ∀ r, partition g !!! r = 0%nat.
Proof.
  intros g n.
  assert (values g
          = flat_map (λ rank,
              map (λ s, shift_gid s (wrap32 (Z.of_nat rank
                                      * dryrun_global_policy.dryrun_num_local_cells cfg)))
                  local_spikes) (seq 0 n)) as Hv.
  { unfold g, dryrun_global_policy.gather_spikes. cbn [values]. fold n.
    rewrite (dryrun_policy_values_loop
               (λ rank i, shift_gid (local_spikes !!! i)
                  (wrap32 (Z.of_nat rank * dryrun_global_policy.dryrun_num_local_cells cfg))))
      by done.
    rewrite Nat.sub_diag. cbn [Nat.mul replicate]. rewrite app_nil_r.
    apply flat_map_ext. intros rank.
    apply (map_lookup_total_seq (λ s, shift_gid s _)). }
  split; [done|]. split; [|split].
  - rewrite Hv, (flat_map_blocks_length _ (length local_spikes)), length_seq; [done|].
    intros j. by rewrite length_map.
  - unfold g, dryrun_global_policy.gather_spikes. cbn [partition].
    by rewrite length_replicate.
  - intros r. apply dryrun_policy_partition_lookup.
Qed.

Lemma events_of_domain_no_spikes (c : communicator.t) (gs : gathered_vector spike)
    queues dom :
  communicator.spks_of gs dom = [] →
  communicator.events_of_domain c gs queues dom = queues.
Proof.
  intros E. unfold communicator.events_of_domain. rewrite E. simpl.
  by destruct (length (communicator.cons_of c dom) <? 0)%nat eqn:?;
    [apply Nat.ltb_lt in Heqb; lia|].
Qed.

(** X8: on the vector that the legacy dry-run policy gathers,
    [make_event_queues] makes no event at all.  Every offset of the
    partition being zero, the slice of spikes of each rank is empty, and
    the queues of all local groups come back empty, whatever the
    connections and the spikes are.  The communicator has as many source
    ranks as the policy. *)
Theorem dryrun_policy_generates_no_events (cfg : dryrun_global_policy.sizes)
    (c : communicator.t) (local_spikes : list spike) :
  communicator.num_domains_ c = Z.to_nat (dryrun_global_policy.size cfg) →
  communicator.make_event_queues c (dryrun_global_policy.gather_spikes cfg local_spikes)
  = replicate (communicator.num_local_groups_ c) [].
Proof.
  intros _. unfold communicator.make_event_queues.
  generalize (replicate (communicator.num_local_groups_ c) ([] : event_queue)).
  induction (seq 0 (communicator.num_domains_ c)) as [|dom doms IH]; intros queues; [done|].
  cbn [foldl]. rewrite events_of_domain_no_spikes; [apply IH|].
  unfold communicator.spks_of.
  by rewrite !dryrun_policy_partition_lookup.
Qed.

(** ** The schedule of [run] *)

Section schedule.
Context {G : Type}.
Variable ops : model.cell_group_ops G.
Variable comms_ : communication_policy.
Variable sort_spikes : list spike → list spike.
Variable sort_events : list postsynaptic_spike_event → list postsynaptic_spike_event.
Variable time_max : Q.
Variable round_time : Q → Q.
Variable group_queue_range : nat → nat * nat.

Abbreviation exchange := (model.exchange comms_ sort_spikes sort_events).
Abbreviation update_cells := (model.update_cells ops group_queue_range).
Abbreviation run_step :=
  (model.run_step ops comms_ sort_spikes sort_events round_time group_queue_range).
Abbreviation run_loop :=
  (model.run_loop ops comms_ sort_spikes sort_events round_time group_queue_range).
Abbreviation run :=
  (model.run ops comms_ sort_spikes sort_events time_max round_time group_queue_range).

(** The passes of the loop of [run]: the time at which each begins, the
    epoch it advances over, and the state in which the loop ends.  A loop
    that ends has made no pass over an empty epoch: such a pass would be
    repeated for ever. *)
Lemma run_loop_schedule fuel tfinal dt t_interval tuntil (m m' : model.t G) epochs :
  run_loop fuel tfinal dt t_interval tuntil m = Some (m', epochs) →
  rounding round_time →
  (0 <= t_interval)%Q →
  ((model.t_ m < tfinal)%Q → (round_time (model.t_ m) == model.t_ m)%Q) →
  tuntil = std_min (round_time (model.t_ m + t_interval)) tfinal →
  epoch.tfinal (model.epoch_ m) = tuntil →
  map fst epochs ++ [model.t_ m'] = model.t_ m :: map (λ te, epoch.tfinal te.2) epochs
  ∧ map (λ te : Q * epoch.t, epoch.id te.2) epochs
    = seq (epoch.id (model.epoch_ m)) (length epochs)
  ∧ Forall (λ te : Q * epoch.t,
              (te.1 < epoch.tfinal te.2)%Q ∧ (epoch.tfinal te.2 <= tfinal)%Q) epochs
  ∧ (tfinal <= model.t_ m')%Q
  ∧ ((model.t_ m <= tfinal)%Q → (model.t_ m' <= tfinal)%Q)
  ∧ ((tfinal <= model.t_ m)%Q → m' = m ∧ epochs = []).
Proof.
  intros Hrun Hrnd Hti.
  pose proof (rounding_proper round_time Hrnd) as Hproper.
  destruct Hrnd as (Hmono & Hidem & _).
  revert tuntil m m' epochs Hrun.
  induction fuel as [|fuel IH]; intros tuntil m m' epochs.
  - rewrite run_loop_O. destruct (Qltb (model.t_ m) tfinal) eqn:E; [done|].
    apply Qltb_ge in E. intros [= <- <-] _ _ _. simpl. repeat split; try done.
  - intros Hrun Hrep Htu He. pose proof Hrun as Hrun0.
    rewrite run_loop_S in Hrun. destruct (Qltb (model.t_ m) tfinal) eqn:E.
    + apply Qltb_lt in E. specialize (Hrep E).
      destruct (run_loop fuel tfinal dt t_interval _ _) as [[m1 ep1]|] eqn:E1;
        [|done].
      injection Hrun as <- <-.
      assert (tuntil <= tfinal)%Q as Hle by (rewrite Htu; apply std_min_le_r).
      assert (model.t_ m <= round_time (model.t_ m + t_interval))%Q as Hge.
      { rewrite <- Hrep at 1. apply Hmono. lra. }
      assert (model.t_ m < tuntil)%Q as Hlt.
      { destruct (Qlt_le_dec (model.t_ m) tuntil) as [|Hstall]; [done|]. exfalso.
        assert (tuntil = round_time (model.t_ m + t_interval)) as Htu'.
        { rewrite Htu. apply std_min_l.
          destruct (std_min_cases (round_time (model.t_ m + t_interval)) tfinal)
            as [Hc|Hc]; rewrite Hc in Htu; [|rewrite Htu in Hstall; lra].
          rewrite <- Htu. exact Hle. }
        rewrite (run_loop_stalls ops comms_ sort_spikes sort_events round_time
                   group_queue_range (S fuel) tfinal dt t_interval (model.t_ m))
          in Hrun0; [done|exact Hproper|exact E| |reflexivity|].
        - rewrite <- Htu'. apply Qle_antisym; [done|]. rewrite Htu'. exact Hge.
        - apply Qle_antisym; [done|]. rewrite Htu'. exact Hge. }
      apply IH in E1 as (I1 & I2 & I3 & I4 & I5 & I6).
      2:{ rewrite run_step_time. intros Hlt'.
          destruct (std_min_cases (round_time (model.t_ m + t_interval)) tfinal)
            as [Hc|Hc]; rewrite Hc in Htu; rewrite Htu; [apply Hidem|].
          rewrite Htu in Hlt'. lra. }
      2:{ by rewrite run_step_tuntil, run_step_time. }
      2:{ by rewrite run_step_epoch, run_step_tuntil. }
      rewrite run_step_time in I1, I5. rewrite run_step_epoch in I2. simpl in I2.
      split; [|split; [|split; [|split; [|split]]]].
      * cbn [map fst snd app]. rewrite I1, He. done.
      * cbn [map length seq snd]. by rewrite I2.
      * constructor; [|done]. cbn [fst snd]. rewrite He. by split.
      * done.
      * intros _. by apply I5.
      * intros Hge'. lra.
    + apply Qltb_ge in E. injection Hrun as <- <-. simpl. repeat split; try done.
Qed.

(** X9: the schedule of [run].  With a positive minimum delay the epochs
    of the passes of the loop tile the interval from the start time to the
    time reached: the first pass begins at the start time, every pass
    begins where the one before ended, and the time reached is the end of
    the last.  The epochs are numbered 0, 1, 2, ...; each begins before it
    ends and ends no later than [tfinal].  The time reached equals
    [tfinal] when the start time is before [tfinal]; otherwise the time is
    left as it was and no pass is made.  This holds of a run that returns,
    with the sum and the halving rounded to [time_type], the start time
    being a value of [time_type]. *)
Theorem run_epochs_tile_interval fuel tfinal dt (m m' : model.t G) epochs :
  rounding round_time →
  (round_time (model.t_ m) == model.t_ m)%Q →
  run fuel tfinal dt m = Some (m', epochs) →
  (0 < communicator.min_delay comms_ time_max (model.communicator_ m))%Q →
  map fst epochs ++ [model.t_ m'] = model.t_ m :: map (λ te, epoch.tfinal te.2) epochs
  ∧ map (λ te : Q * epoch.t, epoch.id te.2) epochs = seq 0 (length epochs)
  ∧ Forall (λ te : Q * epoch.t,
              (te.1 < epoch.tfinal te.2)%Q ∧ (epoch.tfinal te.2 <= tfinal)%Q) epochs
  ∧ ((model.t_ m < tfinal)%Q → (model.t_ m' == tfinal)%Q)
  ∧ ((tfinal <= model.t_ m)%Q → model.t_ m' = model.t_ m ∧ epochs = []).
Proof.
  intros Hrnd Hrep Hrun Hpos.
  unfold model.run in Hrun. cbv zeta in Hrun.
  destruct (run_loop fuel tfinal dt _ _ _) as [[m1 ep1]|] eqn:E; [|done].
  injection Hrun as <- <-.
  apply run_loop_schedule in E as (I1 & I2 & I3 & I4 & I5 & I6);
    [|done| |done|done|done].
  2:{ destruct Hrnd as (Hmono & _ & H0). rewrite <- H0. apply Hmono.
      rewrite Qdiv2_half. lra. }
  rewrite exchange_time. cbn [model.set_local_spikes model.t_].
  cbn [model.set_time model.t_ model.epoch_ epoch.id] in *.
  split; [done|]. split; [done|]. split; [done|]. split.
  - intros Hlt. apply Qle_antisym; [apply I5; lra|done].
  - intros Hge. destruct (I6 Hge) as [-> ->]. done.
Qed.

(** The loop of [run] ends when every pass advances the time by at least
    [delta]. *)
Lemma run_loop_returns fuel tfinal dt t_interval (delta t0 : Q) tuntil (m : model.t G) :
  (0 <= delta)%Q →
  (∀ t, (t0 <= t)%Q → (t < tfinal)%Q → (t + delta <= round_time (t + t_interval))%Q) →
  (t0 <= model.t_ m)%Q →
  tuntil = std_min (round_time (model.t_ m + t_interval)) tfinal →
  (tfinal - model.t_ m <= inject_Z (Z.of_nat fuel) * delta)%Q →
  ∃ m' epochs,
    run_loop fuel tfinal dt t_interval tuntil m = Some (m', epochs)
    ∧ (length epochs ≤ fuel)%nat.
Proof.
  intros Hd Hadv. revert tuntil m.
  induction fuel as [|fuel IH]; intros tuntil m Ht0 Htu Hn.
  - rewrite run_loop_O. destruct (Qltb (model.t_ m) tfinal) eqn:E; [|by eexists _, _].
    apply Qltb_lt in E. change (inject_Z (Z.of_nat 0)) with 0%Q in Hn. lra.
  - rewrite run_loop_S. destruct (Qltb (model.t_ m) tfinal) eqn:E;
      [|eexists _, _; split; [done|simpl; lia]].
    apply Qltb_lt in E. pose proof (Hadv (model.t_ m) Ht0 E) as Hstep.
    assert (0 <= inject_Z (Z.of_nat fuel) * delta)%Q as Hpos.
    { apply Qmult_le_0_compat; [|done].
      change 0%Q with (inject_Z 0). rewrite <- Zle_Qle. lia. }
    rewrite Nat2Z.inj_succ, <- Z.add_1_r, inject_Z_plus in Hn.
    change (inject_Z 1) with 1%Q in Hn.
    destruct (IH (run_step tfinal dt t_interval tuntil m).2
                 (run_step tfinal dt t_interval tuntil m).1) as (m' & ep & -> & Hlen).
    + rewrite run_step_time, Htu.
      destruct (std_min_cases (round_time (model.t_ m + t_interval)) tfinal) as [->| ->];
        lra.
    + by rewrite run_step_tuntil, run_step_time.
    + rewrite run_step_time, Htu.
      destruct (std_min_cases (round_time (model.t_ m + t_interval)) tfinal) as [->| ->];
        lra.
    + eexists _, _. split; [done|]. simpl. lia.
Qed.

(** X10: the number of passes of [run].  If the rounded sum
    [t + t_interval] is at least [t + delta] at every time [t] from the
    start time up to [tfinal], for some [delta > 0], then [run] returns,
    and it has made at most [fuel] passes of its loop when
    [tfinal - t_ <= fuel * delta].  Nothing else is assumed of the
    rounding. *)
Theorem run_returns_when_passes_advance (fuel : nat) tfinal dt (delta : Q)
    (m : model.t G) :
  (0 < delta)%Q →
  (∀ t, (model.t_ m <= t)%Q → (t < tfinal)%Q →
     (t + delta
      <= round_time
           (t + round_time
                  (communicator.min_delay comms_ time_max (model.communicator_ m) / 2)))%Q) →
  (tfinal - model.t_ m <= inject_Z (Z.of_nat fuel) * delta)%Q →
  ∃ m' epochs,
    run fuel tfinal dt m = Some (m', epochs) ∧ (length epochs ≤ fuel)%nat.
Proof.
  intros Hd Hadv Hn. unfold model.run. cbv zeta.
  match goal with
  | |- context [run_loop fuel tfinal dt ?ti ?tu ?m0] =>
      destruct (run_loop_returns fuel tfinal dt ti delta (model.t_ m) tu m0)
        as (m' & ep & -> & Hlen)
  end; [lra|exact Hadv|apply Qle_refl|reflexivity|exact Hn|].
  by eexists _, _.
Qed.

End schedule.

(** ** The two tasks of a pass *)

Section tasks.
Context {G : Type}.
Variable ops : model.cell_group_ops G.
Variable comms_ : communication_policy.
Variable sort_spikes : list spike → list spike.
Variable sort_events : list postsynaptic_spike_event → list postsynaptic_spike_event.
Variable time_max : Q.
Variable group_queue_range : nat → nat * nat.

Abbreviation exchange := (model.exchange comms_ sort_spikes sort_events).
Abbreviation update_cells := (model.update_cells ops group_queue_range).
Abbreviation merge_events := (model.merge_events sort_events).

Lemma model_eq (a b : model.t G) :
  model.t_ a = model.t_ b → model.epoch_ a = model.epoch_ b →
  model.cell_groups_ a = model.cell_groups_ b →
  model.event_lanes_ a = model.event_lanes_ b →
  model.communicator_ a = model.communicator_ b →
  model.local_spikes_ a = model.local_spikes_ b →
  model.local_export_log a = model.local_export_log b →
  model.global_export_log a = model.global_export_log b →
  a = b.
Proof. destruct a, b. simpl. by intros -> -> -> -> -> -> -> ->. Qed.

(** [merge_events] reads the epoch and the lanes and writes the lanes. *)
Lemma merge_events_lanes_only events lane (m m' : model.t G) :
  model.epoch_ m = model.epoch_ m' →
  model.event_lanes_ m = model.event_lanes_ m' →
  model.event_lanes_ (merge_events events lane m)
  = model.event_lanes_ (merge_events events lane m').
Proof.
  intros He Hl. unfold model.merge_events, model.set_lane, model.event_lanes.
  cbn [model.event_lanes_]. by rewrite He, Hl.
Qed.

Lemma foldl_merge_events_lanes_only (events : list event_queue) idxs (m m' : model.t G) :
  model.epoch_ m = model.epoch_ m' →
  model.event_lanes_ m = model.event_lanes_ m' →
  model.event_lanes_ (foldl (λ m i, merge_events (events !!! i) i m) m idxs)
  = model.event_lanes_ (foldl (λ m i, merge_events (events !!! i) i m) m' idxs).
Proof.
  revert m m'. induction idxs as [|i idxs IH]; intros m m' He Hl; [done|].
  cbn [foldl]. apply IH; [done|]. by apply merge_events_lanes_only.
Qed.

(** The bank of the current epoch is not written by [merge_events]. *)
Lemma merge_events_current_bank events lane (m : model.t G) :
  model.event_lanes (merge_events events lane m) (epoch.id (model.epoch_ m))
  = model.event_lanes m (epoch.id (model.epoch_ m)).
Proof.
  unfold model.merge_events, model.set_lane, model.event_lanes.
  cbn [model.event_lanes_].
  apply list_lookup_total_insert_ne.
  set (n := epoch.id (model.epoch_ m)).
  pose proof (Nat.mod_upper_bound n 2). pose proof (Nat.mod_upper_bound (S n) 2).
  intros E. 
  assert (S n mod 2 = (n mod 2 + 1) mod 2)%nat as E2.
  { replace (S n) with (n + 1)%nat by lia. by rewrite Nat.Div0.add_mod_idemp_l. }
  rewrite E2 in E.
  destruct (n mod 2)%nat as [|[|k]] eqn:E3; simpl in E; lia.
Qed.

Lemma foldl_merge_events_current_bank (events : list event_queue) idxs (m : model.t G) :
  model.event_lanes (foldl (λ m i, merge_events (events !!! i) i m) m idxs)
    (epoch.id (model.epoch_ m))
  = model.event_lanes m (epoch.id (model.epoch_ m)).
Proof.
  revert m. induction idxs as [|i idxs IH]; intros m; [done|].
  cbn [foldl].
  change (model.epoch_ m) with (model.epoch_ (merge_events (events !!! i) i m)).
  rewrite IH. apply (merge_events_current_bank (events !!! i) i m).
Qed.

Lemma exchange_current_bank (m : model.t G) :
  model.event_lanes (exchange m) (epoch.id (model.epoch_ m))
  = model.event_lanes m (epoch.id (model.epoch_ m)).
Proof.
  unfold model.exchange. cbv zeta.
  match goal with
  | |- context [foldl ?f ?m1 ?l] =>
      change (model.epoch_ m) with (model.epoch_ m1);
      rewrite (foldl_merge_events_current_bank _ l m1)
  end.
  done.
Qed.

Lemma update_cells_fold_spec
    (step : list G * double_buffer.t → nat * G → list G * double_buffer.t)
    (gs : list (nat * G)) acc :
  (∀ acc ig, length (step acc ig).1 = S (length acc.1)
             ∧ double_buffer.previous (step acc ig).2 = double_buffer.previous acc.2) →
  length (foldl step acc gs).1 = (length acc.1 + length gs)%nat
  ∧ double_buffer.previous (foldl step acc gs).2 = double_buffer.previous acc.2.
Proof.
  intros Hstep. revert acc. induction gs as [|g gs IH]; intros acc.
  - simpl. split; [lia|done].
  - cbn [foldl]. destruct (IH (step acc g)) as [E1 E2].
    destruct (Hstep acc g) as [E3 E4]. rewrite E1, E2, E3, E4. simpl. split; [lia|done].
Qed.

Lemma update_cells_frame dt (m : model.t G) :
  length (model.cell_groups_ (update_cells dt m)) = length (model.cell_groups_ m)
  ∧ double_buffer.previous (model.local_spikes_ (update_cells dt m))
    = double_buffer.previous (model.local_spikes_ m).
Proof.
  unfold model.update_cells. cbv zeta. cbn [model.cell_groups_ model.local_spikes_].
  match goal with
  | |- context [foldl ?f ?a ?l] =>
      destruct (update_cells_fold_spec f l a) as [E1 E2]
  end.
  { intros acc ig. cbn [fst snd]. rewrite length_app. simpl. split; [lia|done]. }
  rewrite E1, E2. simpl. by rewrite length_imap.
Qed.

Lemma update_cells_ext dt (m m' : model.t G) :
  model.epoch_ m = model.epoch_ m' →
  model.event_lanes m (epoch.id (model.epoch_ m))
  = model.event_lanes m' (epoch.id (model.epoch_ m')) →
  model.cell_groups_ m = model.cell_groups_ m' →
  model.local_spikes_ m = model.local_spikes_ m' →
  model.cell_groups_ (update_cells dt m) = model.cell_groups_ (update_cells dt m')
  ∧ model.local_spikes_ (update_cells dt m) = model.local_spikes_ (update_cells dt m').
Proof.
  unfold model.update_cells. cbv zeta. cbn [model.cell_groups_ model.local_spikes_].
  intros -> -> -> ->. done.
Qed.

Lemma exchange_cell_groups (m : model.t G) :
  model.cell_groups_ (exchange m) = model.cell_groups_ m.
Proof.
  unfold model.exchange. cbv zeta. by rewrite (foldl_preserves _ model.cell_groups_).
Qed.

Lemma exchange_local_spikes (m : model.t G) :
  model.local_spikes_ (exchange m) = model.local_spikes_ m.
Proof.
  unfold model.exchange. cbv zeta. by rewrite (foldl_preserves _ model.local_spikes_).
Qed.

Lemma exchange_local_log (m : model.t G) :
  model.local_export_log (exchange m)
  = model.local_export_log m ++ [double_buffer.previous (model.local_spikes_ m)].
Proof.
  unfold model.exchange. cbv zeta. by rewrite (foldl_preserves _ model.local_export_log).
Qed.

(** What the lanes left by [exchange] depend on. *)
Lemma exchange_lanes_ext (m m' : model.t G) :
  model.epoch_ m = model.epoch_ m' →
  model.event_lanes_ m = model.event_lanes_ m' →
  model.communicator_ m = model.communicator_ m' →
  double_buffer.previous (model.local_spikes_ m)
  = double_buffer.previous (model.local_spikes_ m') →
  length (model.cell_groups_ m) = length (model.cell_groups_ m') →
  model.event_lanes_ (exchange m) = model.event_lanes_ (exchange m').
Proof.
  intros He Hl Hc Hp Hn. unfold model.exchange. cbv zeta.
  unfold model.num_groups. cbn [model.cell_groups_]. rewrite Hc, Hp, Hn.
  by apply foldl_merge_events_lanes_only.
Qed.

(** X11: the two tasks of a pass, which the source hands to a task group
    to run concurrently, do not interfere: [exchange] followed by
    [update_cells] leaves the same state as [update_cells] followed by
    [exchange].  [exchange] leaves the lanes of the current epoch as they
    are; [update_cells] leaves all lanes and the spike buffer that is being
    read as they are. *)
Theorem exchange_update_cells_commute dt (m : model.t G) :
  update_cells dt (exchange m) = exchange (update_cells dt m)
  ∧ model.event_lanes (exchange m) (epoch.id (model.epoch_ m))
    = model.event_lanes m (epoch.id (model.epoch_ m))
  ∧ double_buffer.previous (model.local_spikes_ (update_cells dt m))
    = double_buffer.previous (model.local_spikes_ m)
  ∧ model.event_lanes_ (update_cells dt m) = model.event_lanes_ m.
Proof.
  destruct (update_cells_frame dt m) as [Hlen Hprev].
  split; [|split; [apply exchange_current_bank|split; [exact Hprev|done]]].
  destruct (update_cells_ext dt (exchange m) m) as [Hg Hs].
  { apply exchange_epoch. }
  { rewrite exchange_epoch. apply exchange_current_bank. }
  { apply exchange_cell_groups. }
  { apply exchange_local_spikes. }
  apply model_eq.
  - rewrite exchange_time. change (model.t_ (exchange m) = model.t_ m).
    apply exchange_time.
  - rewrite exchange_epoch. change (model.epoch_ (exchange m) = model.epoch_ m).
    apply exchange_epoch.
  - by rewrite exchange_cell_groups.
  - change (model.event_lanes_ (exchange m)
            = model.event_lanes_ (exchange (update_cells dt m))).
    symmetry. by apply exchange_lanes_ext.
  - rewrite exchange_communicator, Hprev.
    change (model.communicator_ (exchange m)
            = (communicator.exchange comms_ sort_spikes (model.communicator_ m)
                 (double_buffer.previous (model.local_spikes_ m))).1).
    apply exchange_communicator.
  - by rewrite exchange_local_spikes.
  - rewrite exchange_local_log, Hprev.
    change (model.local_export_log (exchange m)
            = model.local_export_log m ++ [double_buffer.previous (model.local_spikes_ m)]).
    apply exchange_local_log.
  - rewrite exchange_global_log, Hprev.
    change (model.global_export_log (exchange m)
            = model.global_export_log m
              ++ [values (communicator.exchange comms_ sort_spikes (model.communicator_ m)
                            (double_buffer.previous (model.local_spikes_ m))).2]).
    apply exchange_global_log.
Qed.

End tasks.

(** ** The events that [merge_events] keeps *)

Lemma drop_lower_bound_filter (lc : event_queue) (tf : Q) :
  sorted_by_time lc →
  drop (lower_bound model.event_time_less lc tf) lc
  = List.filter (λ e, negb (model.event_time_less e tf)) lc.
Proof.
  intros H. apply sorted_by_time_strongly in H.
  induction H as [|x l Hl IH Hall]; [done|].
  cbn [lower_bound List.filter]. destruct (model.event_time_less x tf) eqn:E.
  - simpl. exact IH.
  - simpl. f_equal. symmetry. apply forallb_filter_id. apply forallb_forall.
    intros e He. apply Forall_forall with (x := e) in Hall; [|by apply list_elem_of_In].
    unfold model.event_time_less, event_time_lt in *.
    apply negb_true_iff. rewrite Qltb_ge in *. by eapply Qle_trans.
Qed.

(** X12: [merge_events] neither loses nor duplicates an event.  With the
    current lane sorted by time and the lane present in the bank of the
    next epoch, the lane of the next epoch holds after the merge, up to
    order, exactly the new events and those events of the current lane
    whose time is not before the end of the epoch.  The other lanes of the
    next epoch and all lanes of the current epoch are unchanged. *)
Theorem merge_events_conserves_events {G} sort_events (m : model.t G) events lane :
  std_sort_contract event_time_lt sort_events →
  (S (epoch.id (model.epoch_ m)) mod 2 < length (model.event_lanes_ m))%nat →
  (lane < length (model.event_lanes m (S (epoch.id (model.epoch_ m)))))%nat →
  sorted_by_time (model.event_lanes m (epoch.id (model.epoch_ m)) !!! lane) →
  let m' := model.merge_events sort_events events lane m in
  model.event_lanes m' (S (epoch.id (model.epoch_ m))) !!! lane
  ≡ₚ events
     ++ List.filter (λ e, negb (model.event_time_less e (epoch.tfinal (model.epoch_ m))))
          (model.event_lanes m (epoch.id (model.epoch_ m)) !!! lane)
  ∧ (∀ lane', lane' ≠ lane →
       model.event_lanes m' (S (epoch.id (model.epoch_ m))) !!! lane'
       = model.event_lanes m (S (epoch.id (model.epoch_ m))) !!! lane')
  ∧ model.event_lanes m' (epoch.id (model.epoch_ m))
    = model.event_lanes m (epoch.id (model.epoch_ m)).
Proof.
  intros Hsort H1 H2 Hlc m'. split; [|split].
  - unfold m'. rewrite merge_events_lane by done.
    rewrite std_merge_perm, drop_lower_bound_filter by done.
    apply Permutation_app_tail. apply Hsort.
  - intros lane' Hne. unfold m', model.merge_events, model.set_lane. cbv zeta.
    unfold model.event_lanes at 1. cbn [model.event_lanes_].
    rewrite list_lookup_total_insert_eq by done.
    by rewrite list_lookup_total_insert_ne.
  - apply merge_events_current_bank.
Qed.

(** ** The rank of a GID *)

Lemma lower_bound_le {A K} (lt : A → K → bool) (l : list A) (k : K) :
  (lower_bound lt l k ≤ length l)%nat.
Proof. induction l as [|x l IH]; simpl; [lia|]. destruct (lt x k); simpl; lia. Qed.

(** On a sorted range [binary_search] decides membership. *)
Lemma binary_search_elem (l : list Z) (v : Z) :
  Sorted Z.le l → binary_search l v = true ↔ v ∈ l.
Proof.
  intros Hs. apply Sorted_StronglySorted in Hs; [|intros ???; lia].
  unfold binary_search. induction Hs as [|x l Hl IH Hall].
  - simpl. split; [done|]. intros H. by apply elem_of_nil in H.
  - cbn [lower_bound]. destruct (x <? v) eqn:E.
    + cbn [lookup list_lookup]. rewrite IH. apply Z.ltb_lt in E.
      rewrite elem_of_cons. split; [by right|]. intros [->|H]; [lia|done].
    + cbn [lookup list_lookup]. apply Z.ltb_ge in E.
      rewrite negb_true_iff, Z.ltb_ge, elem_of_cons. split.
      * intros H. left. lia.
      * intros [->|H]; [lia|]. rewrite Forall_forall in Hall. apply Hall in H. lia.
Qed.

Lemma find_seq_first (f : nat → bool) (a n i : nat) :
  List.find f (seq a n) = Some i →
  (a ≤ i < a + n)%nat ∧ f i = true ∧ ∀ j, (a ≤ j < i)%nat → f j = false.
Proof.
  revert a. induction n as [|n IH]; intros a; [done|].
  cbn [seq List.find]. destruct (f a) eqn:E.
  - intros [= <-]. split; [lia|]. split; [done|]. intros j Hj. lia.
  - intros H. apply IH in H as (H1 & H2 & H3). split; [lia|]. split; [done|].
    intros j Hj. destruct (decide (j = a)) as [->|Hne]; [done|]. apply H3. lia.
Qed.

Lemma find_seq_none (f : nat → bool) (a n : nat) :
  List.find f (seq a n) = None ↔ ∀ j, (a ≤ j < a + n)%nat → f j = false.
Proof.
  split.
  - intros H j Hj. apply (find_none _ _ H). apply in_seq. lia.
  - intros H. destruct (List.find f (seq a n)) as [i|] eqn:E; [|done].
    apply find_seq_first in E as (H1 & H2 & _). rewrite H in H2; [done|lia].
Qed.

Lemma partition_gid_domain_call_rank (p : partition_gid_domain.t) (gid : Z) (i : nat) :
  (∀ i, (i < partition_gid_domain.num_domains p)%nat →
        Sorted Z.le (partition_gid_domain.rank_gids p i)) →
  partition_gid_domain.call p gid = Z.of_nat i
  ↔ (i < partition_gid_domain.num_domains p)%nat
    ∧ gid ∈ partition_gid_domain.rank_gids p i
    ∧ ∀ j, (j < i)%nat → gid ∉ partition_gid_domain.rank_gids p j.
Proof.
  intros Hs. unfold partition_gid_domain.call.
  destruct (List.find _ _) as [k|] eqn:E.
  - apply find_seq_first in E as (Hk & Hfk & Hfirst).
    apply binary_search_elem in Hfk; [|apply Hs; lia].
    assert (∀ j, (j < k)%nat → gid ∉ partition_gid_domain.rank_gids p j) as Hnot.
    { intros j Hj Hin. apply binary_search_elem in Hin; [|apply Hs; lia].
      rewrite Hfirst in Hin; [done|lia]. }
    split.
    + intros H. apply Nat2Z.inj in H as <-. split; [lia|done].
    + intros (Hi & Hin & Hbefore). f_equal.
      destruct (Nat.lt_trichotomy i k) as [Hlt|[->|Hgt]]; [|done|].
      * by destruct (Hnot i Hlt).
      * by destruct (Hbefore k Hgt).
  - rewrite find_seq_none in E. split; [lia|]. intros (Hi & Hin & _).
    apply binary_search_elem in Hin; [|by apply Hs]. rewrite E in Hin; [done|lia].
Qed.

Lemma partition_gid_domain_call_none (p : partition_gid_domain.t) (gid : Z) :
  (∀ i, (i < partition_gid_domain.num_domains p)%nat →
        Sorted Z.le (partition_gid_domain.rank_gids p i)) →
  partition_gid_domain.call p gid = -1
  ↔ ∀ i, (i < partition_gid_domain.num_domains p)%nat →
         gid ∉ partition_gid_domain.rank_gids p i.
Proof.
  intros Hs. unfold partition_gid_domain.call.
  destruct (List.find _ _) as [k|] eqn:E.
  - apply find_seq_first in E as (Hk & Hfk & Hfirst).
    apply binary_search_elem in Hfk; [|apply Hs; lia].
    split; [lia|]. intros H. destruct (H k ltac:(lia) Hfk).
  - rewrite find_seq_none in E. split; [|done]. intros _ i Hi Hin.
    apply binary_search_elem in Hin; [|by apply Hs]. rewrite E in Hin; [done|lia].
Qed.

(** X13: [partition_gid_domain::operator()].  On well-formed divisions in
    which the slice of every rank is ascending, the functor returns [i]
    exactly when [i] is the first rank whose slice holds the GID, and [-1]
    exactly when the slice of no rank holds it; the result is [-1] or a
    rank below [num_domains]. *)
Theorem partition_gid_domain_first_rank (p : partition_gid_domain.t) (gid : Z) :
  partition_gid_domain.well_formed p →
  (∀ i, (i < partition_gid_domain.num_domains p)%nat →
        Sorted Z.le (partition_gid_domain.rank_gids p i)) →
  (∀ i : nat,
     partition_gid_domain.call p gid = Z.of_nat i
     ↔ (i < partition_gid_domain.num_domains p)%nat
       ∧ gid ∈ partition_gid_domain.rank_gids p i
       ∧ ∀ j, (j < i)%nat → gid ∉ partition_gid_domain.rank_gids p j)
  ∧ (partition_gid_domain.call p gid = -1
     ↔ ∀ i, (i < partition_gid_domain.num_domains p)%nat →
            gid ∉ partition_gid_domain.rank_gids p i)
  ∧ (partition_gid_domain.call p gid = -1
     ∨ 0 ≤ partition_gid_domain.call p gid < Z.of_nat (partition_gid_domain.num_domains p)).
Proof.
  intros _ Hs. split; [|split].
  - intros i. by apply partition_gid_domain_call_rank.
  - by apply partition_gid_domain_call_none.
  - unfold partition_gid_domain.call.
    destruct (List.find _ _) as [k|] eqn:E; [|by left].
    apply find_seq_first in E as (Hk & _). right. lia.
Qed.

(** ** The gather of the GIDs in a dry run *)

Lemma shift_loop_blocks {A} (f : Z → A → A) (local : list A) (n : Z) (m k : nat)
    (pre : list A) :
  n * Z.of_nat (length local) < 2 ^ 32 →
  Z.of_nat (k + m) ≤ n →
  length pre = (k * length local)%nat →
  foldl (λ g i,
           foldl (λ g j, alter (f i) (Z.to_nat j) g) g
                 (seqZ (wrap32 (i * Z.of_nat (length local)))
                       (wrap32 ((i + 1) * Z.of_nat (length local))
                        - wrap32 (i * Z.of_nat (length local)))))
        (pre ++ concat (replicate m local))
        (seqZ (Z.of_nat k) (Z.of_nat m))
  = pre ++ flat_map (λ i, map (f (Z.of_nat i)) local) (seq k m).
Proof.
  intros Hfit. revert k pre. induction m as [|m IH]; intros k pre Hk Hpre; [done|].
  rewrite seqZ_cons by lia. cbn [foldl].
  assert (wrap32 (Z.of_nat k * Z.of_nat (length local)) = Z.of_nat (length pre)) as ->.
  { rewrite wrap32_small; nia. }
  assert (wrap32 ((Z.of_nat k + 1) * Z.of_nat (length local)) - Z.of_nat (length pre)
          = Z.of_nat (length local)) as ->.
  { rewrite wrap32_small; nia. }
  rewrite replicate_S. cbn [concat].
  rewrite foldl_alter_block.
  replace (Z.succ (Z.of_nat k)) with (Z.of_nat (S k)) by lia.
  replace (Z.pred (Z.of_nat (S m))) with (Z.of_nat m) by lia.
  replace (pre ++ map (f (Z.of_nat k)) local ++ concat (replicate m local))
    with ((pre ++ map (f (Z.of_nat k)) local) ++ concat (replicate m local))
    by (by rewrite <- app_assoc).
  rewrite IH.
  - cbn [seq flat_map]. by rewrite <- app_assoc.
  - lia.
  - rewrite length_app, Hpre, length_map. lia.
Qed.

(** The gathered vector of [dry_run_context_impl::gather_gids] when no
    32-bit count or GID overflows. *)
Lemma dry_run_gather_gids_eq (ctx : dry_run_context_impl.t) (local_gids : list Z) :
  0 ≤ dry_run_context_impl.num_ranks_ ctx < 2 ^ 32 - 1 →
  0 ≤ dry_run_context_impl.num_cells_per_tile_ ctx →
  dry_run_context_impl.num_ranks_ ctx * Z.of_nat (length local_gids) < 2 ^ 32 →
  Forall (λ x, 0 ≤ x ∧ x + (dry_run_context_impl.num_ranks_ ctx - 1)
                           * dry_run_context_impl.num_cells_per_tile_ ctx < 2 ^ 32)
         local_gids →
  dry_run_context_impl.gather_gids ctx local_gids
  = mk_gathered
      (flat_map (λ i, map (λ x, x + Z.of_nat i * dry_run_context_impl.num_cells_per_tile_ ctx)
                          local_gids)
                (seq 0 (Z.to_nat (dry_run_context_impl.num_ranks_ ctx))))
      (map (λ r, (r * length local_gids)%nat)
           (seq 0 (S (Z.to_nat (dry_run_context_impl.num_ranks_ ctx))))).
Proof.
  intros Hn Hcpt Hfit Hgids.
  set (n := dry_run_context_impl.num_ranks_ ctx) in *.
  set (cpt := dry_run_context_impl.num_cells_per_tile_ ctx) in *.
  unfold dry_run_context_impl.gather_gids. cbv zeta. fold n cpt.
  assert (n ≠ 0 → wrap32 (Z.of_nat (length local_gids)) = Z.of_nat (length local_gids))
    as Hlen by (intros; apply wrap32_small; nia).
  f_equal.
  - rewrite foldl_append_copies, length_seqZ. simpl app.
    destruct (decide (n = 0)) as [Hn0|Hn0]; [by rewrite Hn0|].
    rewrite Hlen by done.
    replace (seqZ 0 n) with (seqZ (Z.of_nat 0) (Z.of_nat (Z.to_nat n))) by (f_equal; lia).
    pose proof (shift_loop_blocks (λ i x, wrap32 (x + wrap32 (cpt * i))) local_gids n
                  (Z.to_nat n) 0 []) as H.
    simpl app in H. rewrite H; [|done|lia|done].
    rewrite !flat_map_concat_map. f_equal. apply map_ext_in. intros i Hi.
    apply in_seq in Hi. apply map_ext_in. intros x Hx.
    rewrite Forall_forall in Hgids. apply list_elem_of_In, Hgids in Hx as [Hx1 Hx2].
    unfold wrap32. rewrite Zplus_mod_idemp_r. rewrite Z.mod_small; [lia|nia].
  - unfold seqZ. replace (Z.to_nat (n + 1)) with (S (Z.to_nat n)) by lia.
    rewrite <- list_fmap_compose. apply map_ext_in. intros r Hr.
    apply in_seq in Hr. simpl.
    destruct (decide (n = 0)) as [Hn0|Hn0].
    + assert (r = 0%nat) as -> by lia. done.
    + rewrite Hlen by done. rewrite wrap32_small; nia.
Qed.

Lemma Sorted_map_add (c : Z) (l : list Z) :
  Sorted Z.le l → Sorted Z.le (map (λ x, x + c) l).
Proof.
  induction 1 as [|x l Hl IH Hhd]; [constructor|]. simpl. constructor; [done|].
  destruct Hhd; simpl; constructor. lia.
Qed.

(** X14: in a dry run the rank of a GID is its tile.  For [num_ranks_]
    ranks of [num_cells_per_tile_] cells (their product within 32 bits) and
    local GIDs that are ascending and below [num_cells_per_tile_], the
    slice of rank [i] in the vector that [gather_gids] returns is the local
    GIDs shifted by [i * num_cells_per_tile_]; [partition_gid_domain] over
    this vector sends the shift by [i] tiles of a local GID to rank [i],
    and every GID that is no such shift to [-1]. *)
Theorem dry_run_gid_domain_is_tile (ctx : dry_run_context_impl.t) (local_gids : list Z) :
  0 ≤ dry_run_context_impl.num_ranks_ ctx < 2 ^ 32 - 1 →
  0 ≤ dry_run_context_impl.num_cells_per_tile_ ctx →
  dry_run_context_impl.num_ranks_ ctx * dry_run_context_impl.num_cells_per_tile_ ctx
    ≤ 2 ^ 32 →
  dry_run_context_impl.num_ranks_ ctx * Z.of_nat (length local_gids) < 2 ^ 32 →
  Sorted Z.le local_gids →
  Forall (λ x, 0 ≤ x < dry_run_context_impl.num_cells_per_tile_ ctx) local_gids →
  let n := Z.to_nat (dry_run_context_impl.num_ranks_ ctx) in
  let p := partition_gid_domain.mk (dry_run_context_impl.gather_gids ctx local_gids) n in
  (∀ i, (i < n)%nat →
     partition_gid_domain.rank_gids p i
     = map (λ x, x + Z.of_nat i * dry_run_context_impl.num_cells_per_tile_ ctx) local_gids)
  ∧ (∀ (i : nat) x, (i < n)%nat → x ∈ local_gids →
       partition_gid_domain.call p
         (x + Z.of_nat i * dry_run_context_impl.num_cells_per_tile_ ctx) = Z.of_nat i)
  ∧ (∀ gid,
       (∀ (i : nat) x, (i < n)%nat → x ∈ local_gids →
          gid ≠ x + Z.of_nat i * dry_run_context_impl.num_cells_per_tile_ ctx) →
       partition_gid_domain.call p gid = -1).
Proof.
  intros Hn Hcpt Htiles Hfit Hsorted Hrange n p.
  set (cpt := dry_run_context_impl.num_cells_per_tile_ ctx) in *.
  assert (∀ i, (i < n)%nat →
            partition_gid_domain.rank_gids p i
            = map (λ x, x + Z.of_nat i * cpt) local_gids) as Hslice.
  { intros i Hi. unfold partition_gid_domain.rank_gids, p.
    cbn [partition_gid_domain.gid_divisions].
    rewrite dry_run_gather_gids_eq; try done.
    2:{ eapply Forall_impl; [exact Hrange|]. intros x Hx. simpl in Hx. fold cpt. nia. }
    cbn [values partition]. fold cpt n.
    assert (∀ r, (r ≤ n)%nat →
              map (λ r, (r * length local_gids)%nat) (seq 0 (S n)) !!! r
              = (r * length local_gids)%nat) as Hpart.
    { intros r Hr. apply list_lookup_total_correct.
      by rewrite list_lookup_fmap, lookup_seq_lt by lia. }
    rewrite !Hpart by lia.
    apply (flat_map_block (λ i, map (λ x, x + Z.of_nat i * cpt) local_gids)
             (length local_gids) n i); [|done].
    intros. by rewrite length_map. }
  assert (∀ i, (i < partition_gid_domain.num_domains p)%nat →
            Sorted Z.le (partition_gid_domain.rank_gids p i)) as Hs.
  { intros i Hi. rewrite Hslice by done. by apply Sorted_map_add. }
  split; [exact Hslice|]. split.
  - intros i x Hi Hx. apply partition_gid_domain_call_rank; [done|].
    split; [done|]. split.
    + rewrite Hslice by done. apply list_elem_of_In, in_map_iff. exists x.
      split; [done|]. by apply list_elem_of_In.
    + intros j Hj Hin. rewrite Hslice in Hin by lia.
      apply list_elem_of_In, in_map_iff in Hin as (y & Hy & Hyin).
      rewrite Forall_forall in Hrange.
      apply list_elem_of_In in Hyin. apply Hrange in Hyin, Hx. nia.
  - intros gid Hgid. apply partition_gid_domain_call_none; [done|].
    intros i Hi Hin. rewrite Hslice in Hin by done.
    apply list_elem_of_In, in_map_iff in Hin as (y & Hy & Hyin).
    apply (Hgid i y Hi); [by apply list_elem_of_In|done].
Qed.

(** ** The cells of a rank *)

Lemma NoDup_concat_filter {A} (p : list A → bool) (l : list (list A)) :
  NoDup (concat l) → NoDup (concat (List.filter p l)).
Proof.
  induction l as [|x l IH]; [done|]. cbn [concat List.filter].
  rewrite NoDup_app. intros (Hx & Hd & Hl). destruct (p x); [|by apply IH].
  cbn [concat]. apply NoDup_app. split; [done|]. split; [|by apply IH].
  intros y Hy Hy'. apply (Hd y Hy).
  apply list_elem_of_In, in_concat in Hy' as (z & Hz & Hyz).
  apply filter_In in Hz as [Hz _].
  apply list_elem_of_In, in_concat. by exists z.
Qed.

Lemma concat_map_sort_gids_perm (l : list (list Z)) :
  concat (map load_balance.sort_gids l) ≡ₚ concat l.
Proof.
  induction l as [|x l IH]; [done|]. cbn [map concat].
  unfold load_balance.sort_gids at 1. by rewrite merge_sort_Permutation, IH.
Qed.

Section ownership.
Import load_balance.
Variable rec : recipe.

Hypothesis coupled_sym : ∀ a b, coupled rec a b → coupled rec b a.
Hypothesis coupled_range : ∀ a b, coupled rec a b → 0 ≤ b < num_cells rec.

Abbreviation no_gj := (λ g, bool_decide (gap_junctions_on rec g = [])).

Lemma connected_has_gj g x :
  gap_junctions_on rec g ≠ [] → connected rec g x → gap_junctions_on rec x ≠ [].
Proof.
  intros Hg H. apply rtc_inv_r in H as [->|(a & _ & Hc)]; [done|].
  apply coupled_sym in Hc as (c & Hc & _). intros E. rewrite E in Hc.
  by apply elem_of_nil in Hc.
Qed.

(** What the loop over the block keeps besides [comps_inv]: the regular
    cells are the cells passed that have no gap junctions, in order; no
    cell occurs twice in the super cells; every cell of a super cell has
    gap junctions. *)
Lemma visit_gid_cells first last processed st g fuel :
  0 ≤ first → last ≤ num_cells rec → first ≤ g < last →
  num_cells rec ≤ Z.of_nat fuel →
  comps_inv rec first last processed st →
  reg_cells st = List.filter no_gj processed →
  NoDup (concat (super_cells st)) →
  (∀ x, x ∈ concat (super_cells st) → gap_junctions_on rec x ≠ []) →
  ∃ st', visit_gid fuel rec st g = Some st'
         ∧ comps_inv rec first last (processed ++ [g]) st'
         ∧ reg_cells st' = List.filter no_gj (processed ++ [g])
         ∧ NoDup (concat (super_cells st'))
         ∧ (∀ x, x ∈ concat (super_cells st') → gap_junctions_on rec x ≠ []).
Proof.
  intros Hfirst Hlast Hg Hfuel J Hreg ND Hgj.
  destruct (visit_gid_spec rec coupled_sym coupled_range first last processed st g fuel)
    as (st' & E & J'); try done.
  exists st'. split; [done|]. split; [done|].
  rewrite List.filter_app. cbn [List.filter].
  unfold visit_gid in E.
  destruct (decide (gap_junctions_on rec g = [])) as [Hnil|Hne].
  - injection E as <-. cbn [reg_cells super_cells].
    rewrite bool_decide_eq_true_2 by done. by rewrite Hreg.
  - rewrite bool_decide_eq_false_2, app_nil_r by done.
    destruct (decide (g ∈ visited st)) as [Hvis|Hnvis].
    + injection E as <-. done.
    + destruct J as (J1 & J2 & J3).
      assert (∀ x, connected rec g x → x ∉ visited st) as HV.
      { intros x Hgx Hx. apply J1 in Hx as (cg & Hcg & Hxcg).
        destruct (J2 cg Hcg) as (g0 & _ & Hiff).
        apply Hnvis, J1. exists cg. split; [done|]. apply Hiff.
        etransitivity; [by apply Hiff|]. by apply (connected_sym rec coupled_sym). }
      destruct (bfs_spec rec coupled_sym coupled_range (visited st) g fuel [g]
                  ({[g]} ∪ visited st) [])
        as (cg' & E' & NDcg & Hiff).
      * lia.
      * exact HV.
      * split; [|split; [|split; [|split]]].
        -- simpl. set_solver.
        -- simpl. apply NoDup_singleton.
        -- simpl. by apply list_elem_of_singleton.
        -- intros x Hx. simpl in Hx. apply list_elem_of_singleton in Hx as ->.
           apply rtc_refl.
        -- intros a b Ha. by apply elem_of_nil in Ha.
      * simpl. lia.
      * rewrite E' in E. injection E as <-. cbn [reg_cells super_cells].
        split; [done|]. rewrite concat_app. cbn [concat]. rewrite app_nil_r. split.
        -- apply NoDup_app. split; [done|]. split; [|done].
           intros x Hx Hx'. apply (HV x); [by apply Hiff|].
           apply J1. apply list_elem_of_In, in_concat in Hx as (cg & Hcg & Hxcg).
           exists cg. by split; apply list_elem_of_In.
        -- intros x Hx. apply elem_of_app in Hx as [Hx|Hx]; [by apply Hgj|].
           apply Hiff in Hx. by apply (connected_has_gj g).
Qed.

Lemma visit_gids_cells first last gids processed st fuel :
  0 ≤ first → last ≤ num_cells rec →
  Forall (λ g, first ≤ g < last) gids →
  num_cells rec ≤ Z.of_nat fuel →
  comps_inv rec first last processed st →
  reg_cells st = List.filter no_gj processed →
  NoDup (concat (super_cells st)) →
  (∀ x, x ∈ concat (super_cells st) → gap_junctions_on rec x ≠ []) →
  ∃ st', visit_gids fuel rec st gids = Some st'
         ∧ comps_inv rec first last (processed ++ gids) st'
         ∧ reg_cells st' = List.filter no_gj (processed ++ gids)
         ∧ NoDup (concat (super_cells st'))
         ∧ (∀ x, x ∈ concat (super_cells st') → gap_junctions_on rec x ≠ []).
Proof.
  intros Hfirst Hlast Hgids Hfuel. revert processed st.
  induction Hgids as [|g gids Hg _ IH]; intros processed st J Hreg ND Hgj.
  - exists st. by rewrite app_nil_r.
  - cbn [visit_gids].
    destruct (visit_gid_cells first last processed st g fuel)
      as (st1 & -> & J1 & Hreg1 & ND1 & Hgj1); try done.
    destruct (IH (processed ++ [g]) st1 J1 Hreg1 ND1 Hgj1) as (st2 & E & H2).
    exists st2. split; [done|]. by rewrite <- app_assoc in H2.
Qed.

(** The state in which the search loop of a rank ends, and the outcome. *)
Lemma partition_load_balance_cells (num_domains : Z) (domain_id fuel : nat) :
  0 < num_domains < 2 ^ 32 →
  0 ≤ num_cells rec < 2 ^ 32 →
  Z.of_nat domain_id < num_domains →
  num_cells rec ≤ Z.of_nat fuel →
  let first := block_start (num_cells rec) num_domains (Z.of_nat domain_id) in
  let last := block_start (num_cells rec) num_domains (Z.of_nat domain_id + 1) in
  ∃ st,
    comps_inv rec first last (seqZ first (last - first)) st
    ∧ reg_cells st = List.filter no_gj (seqZ first (last - first))
    ∧ NoDup (concat (super_cells st))
    ∧ (∀ x, x ∈ concat (super_cells st) → gap_junctions_on rec x ≠ [])
    ∧ partition_load_balance fuel rec num_domains domain_id
      = Some (if forallb (same_kinds rec) (keep_owned first (super_cells st))
              then decomposed (keep_owned first (super_cells st)) (reg_cells st)
                     (sort_gids (reg_cells st
                                 ++ concat (keep_owned first (super_cells st))))
              else arbor_internal_error).
Proof.
  intros HR HN Hd Hfuel first last. unfold partition_load_balance. cbv zeta.
  rewrite (gid_part_eq _ _ HR HN) by done. cbn [fst snd]. fold first last.
  pose proof (block_start_range _ _ HR HN (Z.of_nat domain_id) ltac:(lia)) as Hf.
  pose proof (block_start_range _ _ HR HN (Z.of_nat domain_id + 1) ltac:(lia)) as Hl.
  fold first in Hf. fold last in Hl.
  destruct (visit_gids_cells first last (seqZ first (last - first)) []
              (mk_components [] [] ∅) fuel) as (st & -> & J & Hreg & ND & Hgj).
  { lia. } { lia. }
  { apply Forall_forall. intros g Hg. apply elem_of_seqZ in Hg. lia. }
  { done. }
  { split; [|split].
    - intros x. simpl. split; [set_solver|]. intros (cg & Hcg & _).
      by apply elem_of_nil in Hcg.
    - intros cg Hcg. by apply elem_of_nil in Hcg.
    - intros x Hx. by apply elem_of_nil in Hx. }
  { done. }
  { simpl. constructor. }
  { intros x Hx. by apply elem_of_nil in Hx. }
  exists st. simpl in J, Hreg. do 4 (split; [done|]). by destruct (forallb _ _).
Qed.

(** The cells a rank keeps: the cells of its block without gap
    junctions, and the components whose smallest cell is in its block. *)
Lemma local_gids_elem first last st g :
  comps_inv rec first last (seqZ first (last - first)) st →
  reg_cells st = List.filter no_gj (seqZ first (last - first)) →
  (∀ x, x ∈ concat (super_cells st) → gap_junctions_on rec x ≠ []) →
  g ∈ sort_gids (reg_cells st ++ concat (keep_owned first (super_cells st)))
  ↔ (first ≤ g < last ∧ gap_junctions_on rec g = [])
    ∨ (gap_junctions_on rec g ≠ []
       ∧ ∃ m, first ≤ m < last ∧ connected rec m g ∧ ∀ y, connected rec m y → m ≤ y).
Proof.
  intros (J1 & J2 & J3) Hreg Hgj. rewrite sort_gids_elem, elem_of_app. split.
  - intros [Hg|Hg].
    + left. rewrite Hreg in Hg. apply list_elem_of_In, filter_In in Hg as [Hg Hb].
      apply list_elem_of_In, elem_of_seqZ in Hg. apply bool_decide_eq_true in Hb.
      split; [lia|done].
    + right. apply list_elem_of_In, in_concat in Hg as (cg' & Hcg' & Hg).
      unfold keep_owned in Hcg'. apply filter_In in Hcg' as [Hin Hhd].
      apply in_map_iff in Hin as (cg & <- & Hcg).
      apply list_elem_of_In in Hcg, Hg. rewrite sort_gids_elem in Hg.
      apply negb_true_iff, Z.ltb_ge in Hhd.
      destruct (J2 cg Hcg) as (g0 & Hg0 & Hcomp).
      assert (g0 ∈ cg) as Hg0cg by apply Hcomp, rtc_refl.
      pose proof (sort_gids_hd_elem g0 cg Hg0cg) as Hm.
      pose proof (sort_gids_hd_min g0 cg Hg0cg) as Hmg.
      set (m := hd 0 (sort_gids cg)) in *.
      assert (connected rec m g0) as Hmg0
        by (by apply (connected_sym rec coupled_sym), Hcomp).
      split.
      { apply Hgj. apply list_elem_of_In, in_concat. exists cg.
        by split; apply list_elem_of_In. }
      exists m. split; [lia|]. split.
      * etransitivity; [exact Hmg0|]. by apply Hcomp.
      * intros y Hy. apply sort_gids_hd_min, Hcomp.
        etransitivity; [apply Hcomp, Hm|exact Hy].
  - intros [[Hg Hnil]|(Hne & m & Hm & Hmg & Hmin)].
    + left. rewrite Hreg. apply list_elem_of_In, filter_In. split.
      * apply list_elem_of_In, elem_of_seqZ. lia.
      * by apply bool_decide_eq_true.
    + right.
      assert (gap_junctions_on rec m ≠ []) as Hmgj.
      { apply (connected_has_gj g); [done|]. by apply (connected_sym rec coupled_sym). }
      assert (m ∈ visited st) as Hvis.
      { apply J3; [|done]. apply elem_of_seqZ. lia. }
      apply J1 in Hvis as (cg & Hcg & Hmcg).
      destruct (J2 cg Hcg) as (g0 & Hg0 & Hcomp).
      assert (connected rec g0 m) as Hg0m by (by apply Hcomp).
      assert (hd 0 (sort_gids cg) = m) as Hhd.
      { pose proof (sort_gids_hd_min m cg Hmcg).
        pose proof (sort_gids_hd_elem m cg Hmcg) as Hin.
        apply Hcomp in Hin.
        assert (m ≤ hd 0 (sort_gids cg)); [|lia].
        apply Hmin. etransitivity; [|exact Hin].
        by apply (connected_sym rec coupled_sym). }
      apply list_elem_of_In, in_concat. exists (sort_gids cg). split.
      * unfold keep_owned. apply filter_In. split.
        -- apply in_map. by apply list_elem_of_In.
        -- apply negb_true_iff, Z.ltb_ge. lia.
      * apply list_elem_of_In, sort_gids_elem, Hcomp. by etransitivity.
Qed.

(** The blocks of two different ranks share no GID. *)
Lemma blocks_disjoint (N R : Z) (d d' : nat) (k : Z) :
  0 < R < 2 ^ 32 → 0 ≤ N < 2 ^ 32 →
  block_start N R (Z.of_nat d) ≤ k < block_start N R (Z.of_nat d + 1) →
  block_start N R (Z.of_nat d') ≤ k < block_start N R (Z.of_nat d' + 1) →
  d = d'.
Proof.
  intros HR HN H1 H2.
  destruct (decide (d < d')%nat) as [Hlt|Hge].
  - pose proof (block_start_mono N R HR HN (Z.of_nat d + 1) (Z.of_nat d') ltac:(lia)). lia.
  - destruct (decide (d' < d)%nat) as [Hlt|Hge']; [|lia].
    pose proof (block_start_mono N R HR HN (Z.of_nat d' + 1) (Z.of_nat d) ltac:(lia)). lia.
Qed.

Lemma local_gids_of_rank (num_domains : Z) (fuel d : nat) sc reg lg :
  0 < num_domains < 2 ^ 32 →
  0 ≤ num_cells rec < 2 ^ 32 →
  num_cells rec ≤ Z.of_nat fuel →
  Z.of_nat d < num_domains →
  partition_load_balance fuel rec num_domains d = Some (decomposed sc reg lg) →
  (∀ g, g ∈ lg ↔ owns rec num_domains d g)
  ∧ NoDup lg ∧ Sorted Z.le lg
  ∧ lg ≡ₚ reg ++ concat sc
  ∧ (∀ cg x, cg ∈ sc → x ∈ cg → ∀ y, y ∈ cg ↔ connected rec x y)
  ∧ (∀ x, x ∈ reg → gap_junctions_on rec x = [])
  ∧ Forall (λ cg, cg ≠ []) sc
  ∧ forallb (same_kinds rec) sc = true.
Proof.
  intros HR HN Hfuel Hd Hok.
  destruct (partition_load_balance_cells num_domains d fuel HR HN Hd Hfuel)
    as (st & J & Hreg & ND & Hgj & E).
  rewrite Hok in E. destruct (forallb _ _) eqn:Ekinds; [|done]. injection E as -> -> ->.
  split; [|split; [|split; [|split; [|split; [|split; [|split; [|exact Ekinds]]]]]]].
  6:{ intros x Hx. rewrite Hreg in Hx. apply list_elem_of_In, filter_In in Hx as [_ Hx].
      by apply bool_decide_eq_true in Hx. }
  6:{ apply Forall_forall. intros cg Hcg. unfold keep_owned in Hcg.
      apply list_elem_of_In, filter_In in Hcg as [Hcg _].
      apply in_map_iff in Hcg as (cg0 & <- & Hcg0). apply list_elem_of_In in Hcg0.
      destruct J as (_ & J2 & _). destruct (J2 cg0 Hcg0) as (g0 & _ & Hcomp).
      intros Hnil. assert (g0 ∈ sort_gids cg0) as Hin
        by (apply sort_gids_elem, Hcomp, rtc_refl).
      rewrite Hnil in Hin. by apply elem_of_nil in Hin. }
  - intros g. by apply local_gids_elem.
  - unfold sort_gids. rewrite merge_sort_Permutation.
    apply NoDup_app. split; [|split].
    + rewrite Hreg. apply NoDup_ListNoDup, List.NoDup_filter, NoDup_ListNoDup, NoDup_seqZ.
    + intros x Hx Hx'. rewrite Hreg in Hx.
      apply list_elem_of_In, filter_In in Hx as [_ Hx]. apply bool_decide_eq_true in Hx.
      revert Hx. apply Hgj.
      apply list_elem_of_In, in_concat in Hx' as (z & Hz & Hxz).
      unfold keep_owned in Hz. apply filter_In in Hz as [Hz _].
      apply in_map_iff in Hz as (cg & <- & Hcg).
      apply list_elem_of_In in Hxz. rewrite sort_gids_elem in Hxz.
      apply list_elem_of_In, in_concat. exists cg. split; [done|].
      by apply list_elem_of_In.
    + unfold keep_owned. apply NoDup_concat_filter.
      by rewrite concat_map_sort_gids_perm.
  - apply StronglySorted_Sorted, (StronglySorted_merge_sort Z.le).
  - unfold sort_gids at 1. by rewrite merge_sort_Permutation.
  - intros cg x Hcg Hx y. unfold keep_owned in Hcg.
    apply list_elem_of_In, filter_In in Hcg as [Hcg _].
    apply in_map_iff in Hcg as (cg0 & <- & Hcg0). apply list_elem_of_In in Hcg0.
    rewrite sort_gids_elem in Hx. rewrite sort_gids_elem.
    destruct J as (_ & J2 & _). destruct (J2 cg0 Hcg0) as (g0 & _ & Hcomp).
    rewrite Hcomp. apply Hcomp in Hx. split; intros H.
    + etransitivity; [|exact H]. by apply (connected_sym rec coupled_sym).
    + by etransitivity.
Qed.

Lemma owner_exists (num_domains : Z) (fuel : nat) (g : Z) :
  0 < num_domains < 2 ^ 32 →
  0 ≤ num_cells rec < 2 ^ 32 →
  num_cells rec ≤ Z.of_nat fuel →
  0 ≤ g < num_cells rec →
  ∃ d : nat, Z.of_nat d < num_domains ∧ owns rec num_domains d g.
Proof.
  intros HR HN Hfuel Hg.
  destruct (block_of_gid (num_cells rec) _ HR g (Z.to_nat num_domains)) as (dg & Hdg & Hbg).
  { lia. } { rewrite Z2Nat.id by lia. rewrite (block_start_last _ _ HR). lia. }
  destruct (decide (gap_junctions_on rec g = [])) as [Hnil|Hne].
  - exists dg. split; [lia|]. by left.
  - destruct (partition_load_balance_cells num_domains dg fuel HR HN ltac:(lia) Hfuel)
      as (st & (J1 & J2 & J3) & _).
    assert (g ∈ visited st) as Hvis.
    { apply J3; [|done]. apply elem_of_seqZ. lia. }
    apply J1 in Hvis as (cg & Hcg & Hgcg).
    destruct (J2 cg Hcg) as (g0 & Hg0 & Hcomp).
    pose proof (sort_gids_hd_elem g cg Hgcg) as Hm.
    set (m := hd 0 (sort_gids cg)) in *.
    assert (connected rec m g) as Hmg.
    { etransitivity; [apply (connected_sym rec coupled_sym), Hcomp, Hm|]. by apply Hcomp. }
    assert (0 ≤ m < num_cells rec) as Hmr.
    { apply (connected_range rec coupled_range g); [done|].
      by apply (connected_sym rec coupled_sym). }
    destruct (block_of_gid (num_cells rec) _ HR m (Z.to_nat num_domains))
      as (dm & Hdm & Hbm).
    { lia. } { rewrite Z2Nat.id by lia. rewrite (block_start_last _ _ HR). lia. }
    exists dm. split; [lia|]. right. split; [done|].
    exists m. split; [done|]. split; [done|].
    intros z Hz. apply sort_gids_hd_min, Hcomp.
    etransitivity; [apply Hcomp, Hm|]. exact Hz.
Qed.

Lemma owner_unique (num_domains : Z) (d d' : nat) (g : Z) :
  0 < num_domains < 2 ^ 32 →
  0 ≤ num_cells rec < 2 ^ 32 →
  owns rec num_domains d g → owns rec num_domains d' g → d = d'.
Proof.
  intros HR HN Hg Hg'.
  destruct Hg as [[Hg Hnil]|(Hne & m & Hm & Hmg & Hmin)];
    destruct Hg' as [[Hg' Hnil']|(Hne' & m' & Hm' & Hmg' & Hmin')]; try done.
  - by apply (blocks_disjoint (num_cells rec) num_domains d d' g).
  - assert (m = m') as <-.
    { assert (connected rec m m') as H1.
      { etransitivity; [exact Hmg|]. by apply (connected_sym rec coupled_sym). }
      assert (connected rec m' m) as H2 by (by apply (connected_sym rec coupled_sym)).
      apply Hmin in H1. apply Hmin' in H2. lia. }
    by apply (blocks_disjoint (num_cells rec) num_domains d d' m).
Qed.

Lemma owns_range (num_domains : Z) (d : nat) (g : Z) :
  0 < num_domains < 2 ^ 32 →
  0 ≤ num_cells rec < 2 ^ 32 →
  Z.of_nat d < num_domains →
  owns rec num_domains d g → 0 ≤ g < num_cells rec.
Proof.
  intros HR HN Hd Hg.
  pose proof (block_start_range (num_cells rec) _ HR HN (Z.of_nat d) ltac:(lia)).
  pose proof (block_start_range (num_cells rec) _ HR HN (Z.of_nat d + 1) ltac:(lia)).
  destruct Hg as [[Hg _]|(_ & m & Hm & Hmg & _)]; [lia|].
  apply (connected_range rec coupled_range m); [lia|done].
Qed.

Lemma owns_connected (num_domains : Z) (d : nat) (a b : Z) :
  connected rec a b → owns rec num_domains d a → owns rec num_domains d b.
Proof.
  intros Hab [[Ha Hnil]|(Hne & m & Hm & Hma & Hmin)].
  - left. apply rtc_inv in Hab as [->|(y & (c & Hc & _) & _)]; [done|].
    rewrite Hnil in Hc. by apply elem_of_nil in Hc.
  - right. split; [by apply (connected_has_gj a)|].
    exists m. split; [done|]. split; [by etransitivity|done].
Qed.

(** X15: [partition_load_balance] assigns every cell to exactly one rank.
    For a recipe that lists every gap junction on both of its cells and
    names only existing cells, and with what the function returns on every
    rank: the local GIDs of a rank are ascending and without repetition,
    lie in [0, num_cells), and are, up to order, the regular cells and the
    cells of the super cells of the rank; every super cell is a whole
    component of cells connected through gap junctions; every GID below
    [num_cells] is local to some rank, and to one rank only; and cells
    connected through gap junctions are local to the same rank. *)
Theorem partition_load_balance_assigns_each_cell_once (num_domains : Z) (fuel : nat)
    (scs : nat → list (list Z)) (regs lgs : nat → list Z) :
  0 < num_domains < 2 ^ 32 →
  0 ≤ num_cells rec < 2 ^ 32 →
  num_cells rec ≤ Z.of_nat fuel →
  (∀ d : nat, Z.of_nat d < num_domains →
     partition_load_balance fuel rec num_domains d
     = Some (decomposed (scs d) (regs d) (lgs d))) →
  (∀ d : nat, Z.of_nat d < num_domains →
     NoDup (lgs d) ∧ Sorted Z.le (lgs d)
     ∧ lgs d ≡ₚ regs d ++ concat (scs d)
     ∧ (∀ g, g ∈ lgs d → 0 ≤ g < num_cells rec)
     ∧ (∀ cg x, cg ∈ scs d → x ∈ cg → ∀ y, y ∈ cg ↔ connected rec x y))
  ∧ (∀ g, 0 ≤ g < num_cells rec → ∃ d : nat, Z.of_nat d < num_domains ∧ g ∈ lgs d)
  ∧ (∀ g (d d' : nat), Z.of_nat d < num_domains → Z.of_nat d' < num_domains →
       g ∈ lgs d → g ∈ lgs d' → d = d')
  ∧ (∀ a b (d : nat), Z.of_nat d < num_domains →
       connected rec a b → a ∈ lgs d → b ∈ lgs d).
Proof.
  intros HR HN Hfuel Hok.
  assert (∀ d : nat, Z.of_nat d < num_domains → ∀ g, g ∈ lgs d ↔ owns rec num_domains d g)
    as Helem.
  { intros d Hd. by apply (local_gids_of_rank num_domains fuel d _ _ _ HR HN Hfuel Hd (Hok d Hd)). }
  split; [|split; [|split]].
  - intros d Hd.
    destruct (local_gids_of_rank num_domains fuel d _ _ _ HR HN Hfuel Hd (Hok d Hd))
      as (_ & ND & Hs & Hp & Hc & _).
    do 3 (split; [done|]). split; [|done].
    intros g Hg. apply (owns_range num_domains d); try done. by apply Helem.
  - intros g Hg. destruct (owner_exists num_domains fuel g HR HN Hfuel Hg) as (d & Hd & Ho).
    exists d. split; [done|]. by apply Helem.
  - intros g d d' Hd Hd' Hg Hg'. apply (owner_unique num_domains d d' g); try done.
    + by apply Helem.
    + by apply Helem.
  - intros a b d Hd Hab Ha. apply Helem; [done|].
    apply (owns_connected num_domains d a); [done|]. by apply Helem.
Qed.

(** X16: the rank that [gid_domain] of the decomposition gives.  When the
    gathered divisions are well formed and hold, rank by rank, the local
    GIDs that [partition_load_balance] returns on that rank, [gid_domain]
    of [g] is [d] exactly when [g] is local to rank [d]; it is a rank for
    every GID below [num_cells] and [-1] for every other GID; and it is the
    same for two cells connected through gap junctions. *)
Theorem gid_domain_of_decomposition (num_domains : Z) (fuel : nat)
    (scs : nat → list (list Z)) (regs lgs : nat → list Z) (p : partition_gid_domain.t) :
  0 < num_domains < 2 ^ 32 →
  0 ≤ num_cells rec < 2 ^ 32 →
  num_cells rec ≤ Z.of_nat fuel →
  (∀ d : nat, Z.of_nat d < num_domains →
     partition_load_balance fuel rec num_domains d
     = Some (decomposed (scs d) (regs d) (lgs d))) →
  partition_gid_domain.well_formed p →
  partition_gid_domain.num_domains p = Z.to_nat num_domains →
  (∀ d : nat, Z.of_nat d < num_domains → partition_gid_domain.rank_gids p d = lgs d) →
  (∀ g (d : nat), Z.of_nat d < num_domains →
     partition_gid_domain.call p g = Z.of_nat d ↔ g ∈ lgs d)
  ∧ (∀ g, 0 ≤ g < num_cells rec → 0 ≤ partition_gid_domain.call p g < num_domains)
  ∧ (∀ g, ¬ 0 ≤ g < num_cells rec → partition_gid_domain.call p g = -1)
  ∧ (∀ a b, connected rec a b → partition_gid_domain.call p a = partition_gid_domain.call p b).
Proof.
  intros HR HN Hfuel Hok _ Hnum Hranks.
  assert (∀ d : nat, Z.of_nat d < num_domains → ∀ g, g ∈ lgs d ↔ owns rec num_domains d g)
    as Helem.
  { intros d Hd. by apply (local_gids_of_rank num_domains fuel d _ _ _ HR HN Hfuel Hd (Hok d Hd)). }
  assert (∀ i, (i < partition_gid_domain.num_domains p)%nat →
            Sorted Z.le (partition_gid_domain.rank_gids p i)) as Hs.
  { intros i Hi. rewrite Hranks by lia.
    by destruct (local_gids_of_rank num_domains fuel i _ _ _ HR HN Hfuel ltac:(lia)
                   (Hok i ltac:(lia))) as (_ & _ & Hsorted & _). }
  assert (∀ g (d : nat), Z.of_nat d < num_domains →
            partition_gid_domain.call p g = Z.of_nat d ↔ g ∈ lgs d) as Hcall.
  { intros g d Hd. rewrite (partition_gid_domain_call_rank p g d Hs). split.
    - intros (_ & Hin & _). by rewrite <- Hranks.
    - intros Hin. split; [lia|]. split; [by rewrite Hranks|].
      intros j Hj Hin'. rewrite Hranks in Hin' by lia.
      assert (j = d); [|lia].
      apply (owner_unique num_domains j d g); try done; apply Helem; try done; lia. }
  split; [exact Hcall|]. split; [|split].
  - intros g Hg. destruct (owner_exists num_domains fuel g HR HN Hfuel Hg) as (d & Hd & Ho).
    apply Helem in Ho; [|done]. apply Hcall in Ho; [|done]. lia.
  - intros g Hg. apply (partition_gid_domain_call_none p g Hs).
    intros i Hi Hin. rewrite Hranks in Hin by lia. apply Hg.
    apply (owns_range num_domains i); try done; [lia|]. apply Helem; [lia|done].
  - intros a b Hab.
    destruct (decide (0 ≤ a < num_cells rec)) as [Ha|Ha].
    + destruct (owner_exists num_domains fuel a HR HN Hfuel Ha) as (d & Hd & Ho).
      pose proof (owns_connected num_domains d a b Hab Ho) as Hob.
      apply Helem in Ho, Hob; try done. apply Hcall in Ho, Hob; try done. congruence.
    + apply rtc_inv in Hab as [->|(y & Hc & _)]; [done|].
      destruct Ha. by apply (coupled_range y a), coupled_sym.
Qed.

End ownership.

(** ** The cell groups of a rank *)

Section groups.
Import group_builder.
Variable rec : recipe.
Variable super_cells : list (list Z).

(** One pass of the loop over the cells of a kind. *)
Lemma add_cell_spec (k : cell_kind) (backend : backend_kind) (group_size : nat)
    (st : list group_description * list Z) (cell : cell_identifier) :
  cells_of super_cells cell ≠ [] →
  Forall (λ x, get_cell_kind rec x = k) (cells_of super_cells cell) →
  (is_super_cell cell = true → cells_of super_cells cell ∈ super_cells) →
  Forall (λ x, get_cell_kind rec x = k) st.2 →
  (st.2 = [] ∨ (length st.2 < group_size)%nat) →
  let st' := add_cell super_cells k backend group_size st cell in
  ∃ new,
    st'.1 = st.1 ++ new
    ∧ Forall (group_ok rec super_cells k backend group_size) new
    ∧ concat (map group_gids new) ++ st'.2 = st.2 ++ cells_of super_cells cell
    ∧ Forall (λ x, get_cell_kind rec x = k) st'.2
    ∧ (st'.2 = [] ∨ (length st'.2 < group_size)%nat)
    ∧ ((∃ g pre post, g ∈ new ∧ group_gids g = pre ++ cells_of super_cells cell ++ post)
       ∨ (∃ pre, st'.2 = pre ++ cells_of super_cells cell))
    ∧ ((∃ post, st'.2 = st.2 ++ post)
       ∨ (∃ g post, g ∈ new ∧ group_gids g = st.2 ++ post)).
Proof.
  destruct st as [groups elems]. cbv zeta. cbn [fst snd].
  intros Hne Hkind Hsuper Hek Hlen.
  unfold add_cell, cells_of in *. cbn [fst snd].
  destruct (is_super_cell cell) eqn:Esc.
  - set (sc := super_cells !!! Z.to_nat (id cell)) in *.
    specialize (Hsuper eq_refl).
    destruct ((group_size <? length elems + length sc)%nat && negb (bool_decide (elems = [])))
      eqn:E1; cbn [fst snd].
    + apply andb_true_iff in E1 as [E1 E1'].
      apply negb_true_iff, bool_decide_eq_false in E1'.
      destruct Hlen as [Hlen|Hlen]; [done|].
      assert (group_ok rec super_cells k backend group_size (mk_group k elems backend)) as Hg1.
      { split; [done|]. split; [done|]. split; [done|]. split; [done|]. left. simpl. lia. }
      change ([] ++ sc) with sc.
      destruct (group_size <=? length sc)%nat eqn:E2; cbn [fst snd].
      * exists [mk_group k elems backend; mk_group k sc backend].
        split; [by rewrite <- app_assoc|]. split.
        { constructor; [done|]. constructor; [|constructor].
          split; [done|]. split; [done|]. split; [done|]. split; [done|]. by right. }
        split; [simpl; by rewrite ?app_nil_r|]. split; [constructor|]. split; [by left|].
        split.
        -- left. exists (mk_group k sc backend), [], []. split; [set_solver|].
           simpl. by rewrite ?app_nil_r.
        -- right. exists (mk_group k elems backend), []. split; [set_solver|].
           simpl. by rewrite ?app_nil_r.
      * apply Nat.leb_gt in E2. exists [mk_group k elems backend].
        split; [done|]. split; [by constructor|].
        split; [simpl; by rewrite ?app_nil_r|]. split; [done|]. split; [by right|].
        split.
        -- right. by exists [].
        -- right. exists (mk_group k elems backend), []. split; [set_solver|].
           simpl. by rewrite ?app_nil_r.
    + destruct (group_size <=? length (elems ++ sc))%nat eqn:E2; cbn [fst snd].
      * exists [mk_group k (elems ++ sc) backend].
        split; [done|]. split.
        { constructor; [|constructor].
          split; [done|]. split; [done|]. split.
          { simpl. intros H. apply app_eq_nil in H as [_ H]. done. }
          split; [simpl; by apply Forall_app|].
          apply andb_false_iff in E1 as [E1|E1].
          - left. apply Nat.ltb_ge in E1. simpl. rewrite length_app. lia.
          - right. apply negb_false_iff, bool_decide_eq_true in E1. by rewrite E1. }
        split; [simpl; by rewrite ?app_nil_r|]. split; [constructor|]. split; [by left|].
        split.
        -- left. exists (mk_group k (elems ++ sc) backend), elems, [].
           split; [set_solver|]. simpl. by rewrite ?app_nil_r.
        -- right. exists (mk_group k (elems ++ sc) backend), sc. split; [set_solver|done].
      * apply Nat.leb_gt in E2. exists [].
        split; [by rewrite app_nil_r|]. split; [constructor|]. split; [done|].
        split; [by apply Forall_app|]. split; [by right|]. split.
        -- right. by exists elems.
        -- left. by exists sc.
  - cbn [fst snd].
    destruct (group_size <=? length (elems ++ [id cell]))%nat eqn:E2; cbn [fst snd].
    + exists [mk_group k (elems ++ [id cell]) backend].
      split; [done|]. split.
      { constructor; [|constructor].
        split; [done|]. split; [done|]. split.
        { simpl. intros H. apply app_eq_nil in H as [_ H]. done. }
        split; [simpl; by apply Forall_app|].
        left. simpl. rewrite length_app. simpl.
        destruct Hlen as [->|Hlen]; simpl; lia. }
      split; [simpl; by rewrite ?app_nil_r|]. split; [constructor|]. split; [by left|].
      split.
      * left. exists (mk_group k (elems ++ [id cell]) backend), elems, [].
        split; [set_solver|]. simpl. by rewrite ?app_nil_r.
      * right. exists (mk_group k (elems ++ [id cell]) backend), [id cell].
        split; [set_solver|done].
    + apply Nat.leb_gt in E2. exists [].
      split; [by rewrite app_nil_r|]. split; [constructor|]. split; [done|].
      split; [by apply Forall_app|]. split; [by right|]. split.
      * right. by exists elems.
      * left. by exists [id cell].
Qed.

(** The loop over the cells of a kind. *)
Lemma add_cells_spec (k : cell_kind) (backend : backend_kind) (group_size : nat)
    (cells : list cell_identifier) (groups : list group_description) (elems : list Z) :
  Forall (cell_ok rec super_cells k) cells →
  Forall (λ x, get_cell_kind rec x = k) elems →
  (elems = [] ∨ (length elems < group_size)%nat) →
  let st' := foldl (add_cell super_cells k backend group_size) (groups, elems) cells in
  ∃ new,
    st'.1 = groups ++ new
    ∧ Forall (group_ok rec super_cells k backend group_size) new
    ∧ concat (map group_gids new) ++ st'.2 = elems ++ concat (map (cells_of super_cells) cells)
    ∧ Forall (λ x, get_cell_kind rec x = k) st'.2
    ∧ (st'.2 = [] ∨ (length st'.2 < group_size)%nat)
    ∧ (∀ cell, cell ∈ cells →
         (∃ g pre post, g ∈ new ∧ group_gids g = pre ++ cells_of super_cells cell ++ post)
         ∨ (∃ pre post, st'.2 = pre ++ cells_of super_cells cell ++ post))
    ∧ ((∃ post, st'.2 = elems ++ post)
       ∨ (∃ g post, g ∈ new ∧ group_gids g = elems ++ post)).
Proof.
  intros Hcells. revert groups elems.
  induction Hcells as [|cell cells (Hne & Hkind & Hsuper) _ IH]; intros groups elems Hek Hlen.
  - exists []. cbn. rewrite !app_nil_r. do 5 (split; [done|]). split.
    + intros cell Hc. by apply elem_of_nil in Hc.
    + left. exists []. by rewrite app_nil_r.
  - cbn [foldl].
    destruct (add_cell_spec k backend group_size (groups, elems) cell Hne Hkind Hsuper Hek Hlen)
      as (new1 & E1 & Hok1 & Hc1 & Hk1 & Hl1 & Hin1 & Hpre1).
    destruct (add_cell super_cells k backend group_size (groups, elems) cell)
      as [groups1 elems1] eqn:Est.
    cbn [fst snd] in *.
    destruct (IH groups1 elems1 Hk1 Hl1) as (new2 & E2 & Hok2 & Hc2 & Hk2 & Hl2 & Hin2 & Hpre2).
    cbv zeta in *.
    set (st' := foldl (add_cell super_cells k backend group_size) (groups1, elems1) cells) in *.
    exists (new1 ++ new2).
    split; [by rewrite E2, E1, <- app_assoc|].
    split; [by apply Forall_app|].
    split.
    { rewrite map_app, concat_app, <- app_assoc, Hc2. cbn [map concat].
      by rewrite !app_assoc, Hc1. }
    split; [done|]. split; [done|]. split.
    + intros c Hc. apply elem_of_cons in Hc as [->|Hc].
      * destruct Hin1 as [(g & pre & post & Hg & Eg)|(pre & Epre)].
        -- left. exists g, pre, post. split; [|done]. apply elem_of_app. by left.
        -- destruct Hpre2 as [(post & Epost)|(g & post & Hg & Eg)].
           ++ right. exists pre, post. by rewrite Epost, Epre, <- app_assoc.
           ++ left. exists g, pre, post. split; [apply elem_of_app; by right|].
              by rewrite Eg, Epre, <- app_assoc.
      * destruct (Hin2 c Hc) as [(g & pre & post & Hg & Eg)|H]; [|by right].
        left. exists g, pre, post. split; [|done]. apply elem_of_app. by right.
    + destruct Hpre1 as [(post1 & Epost1)|(g & post & Hg & Eg)].
      * destruct Hpre2 as [(post & Epost)|(g & post & Hg & Eg)].
        -- left. exists (post1 ++ post). by rewrite Epost, Epost1, <- app_assoc.
        -- right. exists g, (post1 ++ post). split; [apply elem_of_app; by right|].
           by rewrite Eg, Epost1, <- app_assoc.
      * right. exists g, post. split; [|done]. apply elem_of_app. by left.
Qed.

(** The groups of one kind. *)
Lemma add_kind_spec (kl : cell_kind → list cell_identifier)
    (hint : cell_kind → partition_hint) (gpu_avail : bool)
    (has_gpu_backend : cell_kind → bool) (groups : list group_description) (k : cell_kind) :
  Forall (cell_ok rec super_cells k) (kl k) →
  ∃ new,
    add_kind super_cells kl hint gpu_avail has_gpu_backend groups k = groups ++ new
    ∧ Forall (group_ok rec super_cells k
                (backend_of (hint k) gpu_avail has_gpu_backend k).1
                (backend_of (hint k) gpu_avail has_gpu_backend k).2) new
    ∧ concat (map group_gids new) = concat (map (cells_of super_cells) (kl k))
    ∧ (∀ cell, cell ∈ kl k →
         ∃ g pre post, g ∈ new ∧ group_gids g = pre ++ cells_of super_cells cell ++ post).
Proof.
  intros Hcells. unfold add_kind. cbv zeta.
  set (b := backend_of (hint k) gpu_avail has_gpu_backend k).
  destruct (add_cells_spec k b.1 b.2 (kl k) groups [] Hcells)
    as (new & E & Hok & Hc & Hk & Hl & Hin & _); [constructor|by left|].
  cbv zeta in *.
  set (st := foldl (add_cell super_cells k b.1 b.2) (groups, []) (kl k)) in *.
  simpl in Hc.
  destruct (bool_decide (st.2 = [])) eqn:Eb.
  - apply bool_decide_eq_true in Eb. rewrite Eb, app_nil_r in Hc.
    exists new. split; [done|]. split; [done|]. split; [done|].
    intros cell Hcell. destruct (Hin cell Hcell) as [H|(pre & post & H)]; [done|].
    rewrite Eb in H. symmetry in H. apply app_eq_nil in H as [_ H].
    apply app_eq_nil in H as [H _].
    assert (cell_ok rec super_cells k cell) as (Hne' & _).
    { rewrite Forall_forall in Hcells. by apply Hcells. }
    done.
  - apply bool_decide_eq_false in Eb.
    exists (new ++ [mk_group k st.2 b.1]).
    split; [by rewrite E, <- app_assoc|]. split.
    { apply Forall_app. split; [done|]. constructor; [|constructor].
      split; [done|]. split; [done|]. split; [done|]. split; [done|].
      left. simpl. destruct Hl as [Hl|Hl]; [done|lia]. }
    split.
    { rewrite map_app, concat_app. simpl. by rewrite app_nil_r. }
    intros cell Hcell. destruct (Hin cell Hcell) as [(g & pre & post & Hg & Eg)|(pre & post & H)].
    + exists g, pre, post. split; [|done]. apply elem_of_app. by left.
    + exists (mk_group k st.2 b.1), pre, post. split; [|done].
      apply elem_of_app. right. by apply list_elem_of_singleton.
Qed.

(** The loop over the kinds. *)
Lemma add_kinds_spec (kl : cell_kind → list cell_identifier)
    (hint : cell_kind → partition_hint) (gpu_avail : bool)
    (has_gpu_backend : cell_kind → bool) (kinds : list cell_kind)
    (groups : list group_description) :
  (∀ k, k ∈ kinds → Forall (cell_ok rec super_cells k) (kl k)) →
  ∃ new,
    foldl (add_kind super_cells kl hint gpu_avail has_gpu_backend) groups kinds
    = groups ++ new
    ∧ Forall (λ g, group_kind g ∈ kinds
                   ∧ group_ok rec super_cells (group_kind g)
                       (backend_of (hint (group_kind g)) gpu_avail has_gpu_backend
                          (group_kind g)).1
                       (backend_of (hint (group_kind g)) gpu_avail has_gpu_backend
                          (group_kind g)).2 g) new
    ∧ concat (map group_gids new)
      = flat_map (λ k, concat (map (cells_of super_cells) (kl k))) kinds
    ∧ (∀ k cell, k ∈ kinds → cell ∈ kl k →
         ∃ g pre post, g ∈ new ∧ group_gids g = pre ++ cells_of super_cells cell ++ post).
Proof.
  revert groups. induction kinds as [|k kinds IH]; intros groups Hcells.
  - exists []. simpl. rewrite app_nil_r. do 3 (split; [done|]).
    intros k cell Hk. by apply elem_of_nil in Hk.
  - cbn [foldl flat_map].
    destruct (add_kind_spec kl hint gpu_avail has_gpu_backend groups k)
      as (new1 & -> & Hok1 & Hc1 & Hin1); [apply Hcells; by left|].
    destruct (IH (groups ++ new1)) as (new2 & -> & Hok2 & Hc2 & Hin2).
    { intros k' Hk'. apply Hcells. by right. }
    exists (new1 ++ new2). split; [by rewrite <- app_assoc|]. split.
    { apply Forall_app. split.
      - eapply Forall_impl; [exact Hok1|]. intros g Hg. simpl.
        destruct Hg as (Hk & Hrest). rewrite Hk. split; [by left|].
        split; [done|]. exact Hrest.
      - eapply Forall_impl; [exact Hok2|]. intros g [Hk Hg]. split; [by right|done]. }
    split; [by rewrite map_app, concat_app, Hc1, Hc2|].
    intros k' cell Hk' Hcell. apply elem_of_cons in Hk' as [->|Hk'].
    + destruct (Hin1 cell Hcell) as (g & pre & post & Hg & Eg).
      exists g, pre, post. split; [|done]. apply elem_of_app. by left.
    + destruct (Hin2 k' cell Hk' Hcell) as (g & pre & post & Hg & Eg).
      exists g, pre, post. split; [|done]. apply elem_of_app. by right.
Qed.

End groups.

(** ** The lists of cells by kind *)

Lemma foldl_push_back_kind {A} (key : A → cell_kind) (mk : A → group_builder.cell_identifier)
    (l : list A) (kl : cell_kind → list group_builder.cell_identifier) (k : cell_kind) :
  foldl (λ kl x, group_builder.push_back_kind kl (key x) (mk x)) kl l k
  = kl k ++ map mk (List.filter (λ x, bool_decide (key x = k)) l).
Proof.
  revert kl. induction l as [|x l IH]; intros kl; [by rewrite app_nil_r|].
  cbn [foldl List.filter]. rewrite IH. unfold group_builder.push_back_kind.
  destruct (decide (k = key x)) as [->|Hne].
  - rewrite bool_decide_eq_true_2 by done. cbn [map]. by rewrite <- app_assoc.
  - rewrite bool_decide_eq_false_2 by done. done.
Qed.

Lemma filter_lookup_seq {A} `{Inhabited A} (p : A → bool) (l : list A) :
  map (λ i, l !!! i) (List.filter (λ i, p (l !!! i)) (seq 0 (length l))) = List.filter p l.
Proof.
  induction l as [|x l IH] using rev_ind; [done|].
  rewrite length_app. cbn [length]. rewrite Nat.add_1_r, seq_S, !List.filter_app.
  cbn [List.filter Nat.add]. rewrite map_app, <- IH. f_equal.
  - assert (∀ i, (i < length l)%nat → (l ++ [x]) !!! i = l !!! i) as Hlk.
    { intros i Hi. by rewrite lookup_total_app_l. }
    assert (List.filter (λ i, p ((l ++ [x]) !!! i)) (seq 0 (length l))
            = List.filter (λ i, p (l !!! i)) (seq 0 (length l))) as ->.
    { apply filter_ext_in. intros i Hi. apply in_seq in Hi. rewrite Hlk; [done|lia]. }
    apply map_ext_in. intros i Hi. apply filter_In in Hi as [Hi _]. apply in_seq in Hi.
    apply Hlk. lia.
  - assert ((l ++ [x]) !!! length l = x) as ->.
    { rewrite lookup_total_app_r by lia. by rewrite Nat.sub_diag. }
    destruct (p x); [|done]. simpl.
    rewrite lookup_total_app_r by lia. by rewrite Nat.sub_diag.
Qed.

Lemma kind_lists_eq (rec : recipe) (super_cells : list (list Z)) (reg_cells : list Z)
    (k : cell_kind) :
  group_builder.kind_lists rec super_cells reg_cells k
  = map (λ gid, group_builder.mk_cell gid false)
        (List.filter (λ gid, bool_decide (get_cell_kind rec gid = k)) reg_cells)
    ++ map (λ i, group_builder.mk_cell (Z.of_nat i) true)
         (List.filter (λ i, bool_decide (get_cell_kind rec (hd 0 (super_cells !!! i)) = k))
            (seq 0 (length super_cells))).
Proof.
  unfold group_builder.kind_lists. cbv zeta.
  rewrite (foldl_push_back_kind (λ i, get_cell_kind rec (hd 0 (super_cells !!! i)))
             (λ i, group_builder.mk_cell (Z.of_nat i) true)).
  by rewrite (foldl_push_back_kind (get_cell_kind rec)
                (λ gid, group_builder.mk_cell gid false)).
Qed.

(** The cells listed under a kind: the regular cells of that kind, then
    the super cells whose first cell is of that kind. *)
Lemma kind_lists_cells (rec : recipe) (super_cells : list (list Z)) (reg_cells : list Z)
    (k : cell_kind) :
  concat (map (group_builder.cells_of super_cells)
            (group_builder.kind_lists rec super_cells reg_cells k))
  = List.filter (λ gid, bool_decide (get_cell_kind rec gid = k)) reg_cells
    ++ concat (List.filter (λ sc, bool_decide (get_cell_kind rec (hd 0 sc) = k)) super_cells).
Proof.
  rewrite kind_lists_eq, map_app, concat_app, !map_map.
  unfold group_builder.cells_of. cbn [group_builder.is_super_cell group_builder.id]. f_equal.
  - induction (List.filter _ reg_cells) as [|x l IH]; [done|]. simpl. by rewrite IH.
  - f_equal.
    rewrite <- (filter_lookup_seq (λ sc, bool_decide (get_cell_kind rec (hd 0 sc) = k))).
    apply map_ext. intros i. by rewrite Nat2Z.id.
Qed.

Lemma flat_map_nil {A B} (l : list A) : flat_map (λ _, @nil B) l = [].
Proof. by induction l. Qed.

Lemma flat_map_insert_absent {A K} `{EqDecision K} (x : A) (kx : K) (f : K → list A)
    (kinds : list K) :
  kx ∉ kinds →
  flat_map (λ k, if bool_decide (kx = k) then x :: f k else f k) kinds = flat_map f kinds.
Proof.
  induction kinds as [|k kinds IH]; [done|]. intros Hnin. cbn [flat_map].
  rewrite bool_decide_eq_false_2 by set_solver. rewrite IH; [done|set_solver].
Qed.

Lemma flat_map_insert_once {A K} `{EqDecision K} (x : A) (kx : K) (f : K → list A)
    (kinds : list K) :
  NoDup kinds → kx ∈ kinds →
  flat_map (λ k, if bool_decide (kx = k) then x :: f k else f k) kinds
  ≡ₚ x :: flat_map f kinds.
Proof.
  induction 1 as [|k kinds Hnin ND IH]; intros Hin; [by apply elem_of_nil in Hin|].
  cbn [flat_map]. destruct (decide (kx = k)) as [->|Hne].
  - rewrite bool_decide_eq_true_2 by done. by rewrite flat_map_insert_absent.
  - rewrite bool_decide_eq_false_2 by done.
    rewrite IH by set_solver. by rewrite Permutation_middle.
Qed.

(** Listing the elements of a list key by key, every key once, permutes
    the list. *)
Lemma flat_map_filter_key_perm {A K} `{EqDecision K} (key : A → K) (kinds : list K)
    (l : list A) :
  NoDup kinds → (∀ x, x ∈ l → key x ∈ kinds) →
  flat_map (λ k, List.filter (λ x, bool_decide (key x = k)) l) kinds ≡ₚ l.
Proof.
  intros ND. induction l as [|x l IH]; intros Hcov.
  - simpl. by rewrite flat_map_nil.
  - cbn [List.filter].
    rewrite (flat_map_insert_once x (key x)
               (λ k, List.filter (λ x, bool_decide (key x = k)) l)); [| done |].
    + constructor. apply IH. intros y Hy. apply Hcov. by right.
    + apply Hcov. by left.
Qed.

Lemma concat_flat_map {A B} (f : A → list (list B)) (l : list A) :
  concat (flat_map f l) = flat_map (λ x, concat (f x)) l.
Proof. induction l as [|x l IH]; [done|]. cbn [flat_map]. by rewrite concat_app, IH. Qed.

Lemma Permutation_concat {A} (l1 l2 : list (list A)) :
  l1 ≡ₚ l2 → concat l1 ≡ₚ concat l2.
Proof.
  induction 1 as [|x l1 l2 _ IH|x y l|l1 l2 l3 _ IH1 _ IH2]; simpl.
  - done.
  - by rewrite IH.
  - rewrite !app_assoc. apply Permutation_app_tail, Permutation_app_comm.
  - by etransitivity.
Qed.

Lemma kind_lists_cell_ok (rec : recipe) (super_cells : list (list Z)) (reg_cells : list Z)
    (k : cell_kind) :
  Forall (λ sc, sc ≠ []) super_cells →
  forallb (load_balance.same_kinds rec) super_cells = true →
  Forall (group_builder.cell_ok rec super_cells k)
    (group_builder.kind_lists rec super_cells reg_cells k).
Proof.
  intros Hne Hkinds. rewrite kind_lists_eq. apply Forall_app. split.
  - apply Forall_forall. intros cell Hcell.
    apply list_elem_of_In, in_map_iff in Hcell as (gid & <- & Hgid).
    apply filter_In in Hgid as [_ Hk]. apply bool_decide_eq_true in Hk.
    unfold group_builder.cell_ok, group_builder.cells_of. simpl.
    split; [done|]. split; [by constructor|done].
  - apply Forall_forall. intros cell Hcell.
    apply list_elem_of_In, in_map_iff in Hcell as (i & <- & Hi).
    apply filter_In in Hi as [Hi Hk]. apply in_seq in Hi. apply bool_decide_eq_true in Hk.
    unfold group_builder.cell_ok, group_builder.cells_of. simpl. rewrite Nat2Z.id.
    assert (super_cells !!! i ∈ super_cells) as Hin
      by (apply list_elem_of_lookup_total_2; lia).
    split; [|split; [|done]].
    + rewrite Forall_forall in Hne. by apply Hne.
    + rewrite forallb_forall in Hkinds. apply list_elem_of_In, Hkinds in Hin.
      unfold load_balance.same_kinds in Hin. rewrite forallb_forall in Hin.
      apply Forall_forall. intros x Hx. apply list_elem_of_In, Hin in Hx.
      apply bool_decide_eq_true in Hx. congruence.
Qed.

(** The groups made of given regular cells and super cells. *)
Lemma make_groups_spec (rec : recipe) (super_cells : list (list Z))
    (reg_cells : list Z) (hint : cell_kind → partition_hint) (gpu_avail : bool)
    (has_gpu_backend : cell_kind → bool) (kinds : list cell_kind) :
  NoDup kinds →
  (∀ gid, gid ∈ reg_cells ++ concat super_cells → get_cell_kind rec gid ∈ kinds) →
  Forall (λ sc, sc ≠ []) super_cells →
  forallb (load_balance.same_kinds rec) super_cells = true →
  let groups := group_builder.make_groups rec super_cells reg_cells hint gpu_avail
                  has_gpu_backend kinds in
  concat (map group_gids groups) ≡ₚ reg_cells ++ concat super_cells
  ∧ Forall (λ g,
       group_gids g ≠ []
       ∧ Forall (λ x, get_cell_kind rec x = group_kind g) (group_gids g)
       ∧ group_backend g
         = (group_builder.backend_of (hint (group_kind g)) gpu_avail has_gpu_backend
              (group_kind g)).1
       ∧ ((length (group_gids g)
           ≤ Nat.max 1 (group_builder.backend_of (hint (group_kind g)) gpu_avail
                          has_gpu_backend (group_kind g)).2)%nat
          ∨ group_gids g ∈ super_cells)) groups
  ∧ (∀ sc, sc ∈ super_cells →
       ∃ g pre post, g ∈ groups ∧ group_gids g = pre ++ sc ++ post).
Proof.
  intros ND Hcov Hne Hkinds groups.
  destruct (add_kinds_spec rec super_cells
              (group_builder.kind_lists rec super_cells reg_cells)
              hint gpu_avail has_gpu_backend kinds [])
    as (new & E & Hok & Hc & Hin).
  { intros k _. by apply kind_lists_cell_ok. }
  simpl in E. fold (group_builder.make_groups rec super_cells reg_cells hint gpu_avail
                      has_gpu_backend kinds) in E. fold groups in E. rewrite <- E in *.
  assert (∀ sc, sc ∈ super_cells → get_cell_kind rec (hd 0 sc) ∈ kinds) as Hcov_sc.
  { intros sc Hsc. apply Hcov, elem_of_app. right.
    rewrite Forall_forall in Hne. specialize (Hne sc Hsc).
    apply list_elem_of_In, in_concat. exists sc. split; [by apply list_elem_of_In|].
    destruct sc; [done|]. by left. }
  split; [|split].
  - rewrite Hc.
    rewrite (flat_map_ext _ _ (kind_lists_cells rec super_cells reg_cells)).
    rewrite flat_map_app_perm. apply Permutation_app.
    + apply (flat_map_filter_key_perm (get_cell_kind rec)); [done|].
      intros x Hx. apply Hcov, elem_of_app. by left.
    + rewrite <- (concat_flat_map
                    (λ k, List.filter
                            (λ sc, bool_decide (get_cell_kind rec (hd 0 sc) = k)) super_cells)).
      apply Permutation_concat.
      by apply (flat_map_filter_key_perm (λ sc, get_cell_kind rec (hd 0 sc))).
  - eapply Forall_impl; [exact Hok|]. intros g (_ & _ & Hb & Hn & Hk & Hl). done.
  - intros sc Hsc. apply list_elem_of_lookup_1 in Hsc as (i & Hi).
    pose proof (lookup_lt_Some _ _ _ Hi) as Hlt.
    assert (super_cells !!! i = sc) as Hi' by (by apply list_lookup_total_correct).
    destruct (Hin (get_cell_kind rec (hd 0 sc)) (group_builder.mk_cell (Z.of_nat i) true))
      as (g & pre & post & Hg & Eg).
    + apply Hcov_sc. by eapply list_elem_of_lookup_2.
    + rewrite kind_lists_eq. apply elem_of_app. right.
      apply list_elem_of_In, (in_map (λ i, group_builder.mk_cell (Z.of_nat i) true)).
      apply filter_In. split; [apply in_seq; lia|].
      apply bool_decide_eq_true. by rewrite Hi'.
    + exists g, pre, post. split; [done|].
      unfold group_builder.cells_of in Eg. simpl in Eg. by rewrite Nat2Z.id, Hi' in Eg.
Qed.

(** X17: the cell groups of a rank.  The groups cut from the cells that
    [partition_load_balance] found local to the rank hold together, up to
    order, exactly the local GIDs.  Every group is non-empty, all its cells
    are of the kind of the group, its backend is the one chosen for that
    kind, and it holds no more cells than the group size of its kind (one
    cell when that size is zero) unless it is a single super cell.  Cells
    connected through gap junctions are in the same group.  [kinds] holds
    no kind twice and every kind of a local cell. *)
Theorem partition_load_balance_groups (rec : recipe) (num_domains : Z) (fuel d : nat)
    (sc : list (list Z)) (reg lg : list Z)
    (hint : cell_kind → partition_hint) (gpu_avail : bool)
    (has_gpu_backend : cell_kind → bool) (kinds : list cell_kind) :
  (∀ a b, load_balance.coupled rec a b → load_balance.coupled rec b a) →
  (∀ a b, load_balance.coupled rec a b → 0 ≤ b < num_cells rec) →
  0 < num_domains < 2 ^ 32 →
  0 ≤ num_cells rec < 2 ^ 32 →
  num_cells rec ≤ Z.of_nat fuel →
  Z.of_nat d < num_domains →
  load_balance.partition_load_balance fuel rec num_domains d
  = Some (load_balance.decomposed sc reg lg) →
  NoDup kinds →
  (∀ gid, gid ∈ lg → get_cell_kind rec gid ∈ kinds) →
  let groups := group_builder.make_groups rec sc reg hint gpu_avail has_gpu_backend kinds in
  concat (map group_gids groups) ≡ₚ lg
  ∧ Forall (λ g,
       group_gids g ≠ []
       ∧ Forall (λ x, get_cell_kind rec x = group_kind g) (group_gids g)
       ∧ group_backend g
         = (group_builder.backend_of (hint (group_kind g)) gpu_avail has_gpu_backend
              (group_kind g)).1
       ∧ ((length (group_gids g)
           ≤ Nat.max 1 (group_builder.backend_of (hint (group_kind g)) gpu_avail
                          has_gpu_backend (group_kind g)).2)%nat
          ∨ group_gids g ∈ sc)) groups
  ∧ (∀ a b, a ∈ lg → load_balance.connected rec a b →
       ∃ g, g ∈ groups ∧ a ∈ group_gids g ∧ b ∈ group_gids g).
Proof.
  intros Hsym Hrange HR HN Hfuel Hd Hok ND Hcov groups.
  destruct (local_gids_of_rank rec Hsym Hrange num_domains fuel d sc reg lg
              HR HN Hfuel Hd Hok)
    as (_ & _ & _ & Hperm & Hcomp & Hreg & Hne & Hkinds).
  destruct (make_groups_spec rec sc reg hint gpu_avail has_gpu_backend kinds)
    as (Hp & Hall & Hinfix); try done.
  { intros gid Hgid. apply Hcov. by rewrite Hperm. }
  fold groups in Hp, Hall, Hinfix.
  split; [by rewrite Hp, Hperm|]. split; [done|].
  intros a b Ha Hab. rewrite Hperm in Ha. apply elem_of_app in Ha as [Ha|Ha].
  - apply rtc_inv in Hab as [<-|(y & (c & Hc & _) & _)].
    + assert (a ∈ concat (map group_gids groups)) as Hin.
      { rewrite Hp. apply elem_of_app. by left. }
      apply list_elem_of_In, in_concat in Hin as (gs & Hgs & Hags).
      apply in_map_iff in Hgs as (g & <- & Hg).
      exists g. by repeat split; apply list_elem_of_In.
    + rewrite (Hreg a Ha) in Hc. by apply elem_of_nil in Hc.
  - apply list_elem_of_In, in_concat in Ha as (cg & Hcg & Hacg).
    apply list_elem_of_In in Hcg, Hacg.
    destruct (Hinfix cg Hcg) as (g & pre & post & Hg & Eg).
    exists g. split; [done|]. rewrite Eg. split.
    + apply elem_of_app. right. apply elem_of_app. by left.
    + apply elem_of_app. right. apply elem_of_app. left. by apply (Hcomp cg a).
Qed.
(** ** The construction of the communicator *)

Lemma wrap32_nat_small (n : nat) : Z.of_nat n < 2 ^ 32 → wrap32_nat n = n.
Proof.
  intros H. unfold wrap32_nat, wrap32. rewrite Z.mod_small by lia. apply Nat2Z.id.
Qed.

Lemma make_index_length (from : nat) (counts : list nat) :
  length (make_index from counts) = S (length counts).
Proof. revert from. induction counts as [|c cs IH]; intros from; simpl; [done|by rewrite IH]. Qed.

(** The offsets are the running sums as long as the last of them fits 32
    bits. *)
Lemma make_index_lookup (from : nat) (counts : list nat) (d : nat) :
  Z.of_nat (from + list_sum counts) < 2 ^ 32 →
  (d ≤ length counts)%nat →
  make_index from counts !!! d = (from + list_sum (take d counts))%nat.
Proof.
  revert from d. induction counts as [|c cs IH]; intros from d Hfit Hd.
  - simpl in Hd. assert (d = 0%nat) as -> by lia. simpl. lia.
  - cbn [list_sum foldr] in Hfit. change (foldr Nat.add 0%nat cs) with (list_sum cs) in Hfit.
    destruct d as [|d]; simpl; [lia|].
    rewrite wrap32_nat_small by lia.
    rewrite IH by (simpl in Hd; lia). lia.
Qed.

(** Counting the sources: one more at the entry of every element of a
    list, as long as no count leaves 32 bits. *)
Lemma foldl_bump_lookup (xs : list nat) (counts : list nat) (d : nat) :
  Forall (λ n, Z.of_nat (n + length xs) < 2 ^ 32) counts →
  (d < length counts)%nat →
  foldl (λ sc x, alter (λ n, wrap32_nat (S n)) x sc) counts xs !!! d
  = (counts !!! d + length (List.filter (λ x, bool_decide (x = d)) xs))%nat
  ∧ length (foldl (λ sc x, alter (λ n, wrap32_nat (S n)) x sc) counts xs) = length counts.
Proof.
  revert counts. induction xs as [|x xs IH]; intros counts Hfit Hd.
  - simpl. split; [lia|done].
  - cbn [foldl List.filter].
    assert (alter (λ n, wrap32_nat (S n)) x counts = alter S x counts) as ->.
    { apply list_eq. intros i. rewrite !list_lookup_alter.
      destruct (decide (x = i)) as [<-|]; [|done].
      destruct (counts !! x) as [n|] eqn:E; [|done]. simpl. f_equal.
      apply wrap32_nat_small. rewrite Forall_forall in Hfit.
      specialize (Hfit n (list_elem_of_lookup_2 _ _ _ E)). cbv beta in Hfit.
      cbn [length] in Hfit. lia. }
    destruct (IH (alter S x counts)) as [-> ->].
    + apply Forall_alter.
      * eapply Forall_impl; [exact Hfit|]. intros n Hn. cbv beta in Hn.
        cbn [length] in Hn. lia.
      * intros n Hin _. rewrite Forall_forall in Hfit.
        specialize (Hfit n (list_elem_of_lookup_2 _ _ _ Hin)). cbv beta in Hfit.
        cbn [length] in Hfit. lia.
    + by rewrite length_alter.
    + rewrite length_alter. split; [|done].
      destruct (decide (x = d)) as [->|Hne].
      * rewrite bool_decide_eq_true_2 by done.
        rewrite list_lookup_total_alter_eq by done. cbn [length]. lia.
      * rewrite bool_decide_eq_false_2 by done.
        by rewrite list_lookup_total_alter_ne.
Qed.

Lemma flat_map_ext_In {A B} (f g : A → list B) (l : list A) :
  (∀ x, In x l → f x = g x) → flat_map f l = flat_map g l.
Proof.
  intros H. rewrite !flat_map_concat_map. f_equal. by apply map_ext_in.
Qed.

Lemma Sorted_weaken {A} (R R' : A → A → Prop) (l : list A) :
  (∀ a b, R a b → R' a b) → Sorted R l → Sorted R' l.
Proof.
  intros HR. induction 1 as [|x l Hl IH Hhd]; constructor; [done|].
  destruct Hhd; constructor. by apply HR.
Qed.

Lemma flat_map_perm_ext {A B} (f g : A → list B) (l : list A) :
  (∀ x, In x l → f x ≡ₚ g x) → flat_map f l ≡ₚ flat_map g l.
Proof.
  induction l as [|x l IH]; intros H; [done|]. cbn [flat_map].
  rewrite (H x) by (by left). rewrite IH; [done|]. intros y Hy. apply H. by right.
Qed.

Section ctor.
Import communicator_ctor.
Variable connections_on : Z → list cell_connection.
Variable groups : list (list Z).
Variable gid_domain : Z → Z.
Variable num_domains : nat.
Variable sort_connections : list connection → list connection.

Abbreviation dom := (source_domain gid_domain).
Abbreviation all := (local_connections connections_on groups).
Abbreviation bump := (λ (sc : list nat) (x : nat), alter (λ n, wrap32_nat (S n)) x sc).
(** The connections of a list whose source is on rank [d]. *)
Abbreviation from_domain d l := (List.filter (λ c, bool_decide (dom c = d)) l).

Lemma count_sources_spec (i : nat) (cs : list cell_connection) (sd sc : list nat) :
  foldl (count_source gid_domain) (sd, sc) cs
  = (sd ++ map dom (map (to_connection i) cs),
     foldl bump sc (map dom (map (to_connection i) cs))).
Proof.
  revert sd sc. induction cs as [|c cs IH]; intros sd sc; [by rewrite app_nil_r|].
  cbn [foldl map]. unfold count_source at 2. cbn [fst snd]. rewrite IH.
  by rewrite <- app_assoc.
Qed.

Lemma scan_gids_spec (i : nat) (gids : list Z) (st : scan) :
  Z.of_nat (n_cons st
            + length (flat_map (λ gid, map (to_connection i) (connections_on gid)) gids))
    < 2 ^ 32 →
  foldl (scan_gid connections_on gid_domain i) st gids
  = mk_scan
      (gid_infos st ++ map (λ gid, mk_info gid i (connections_on gid)) gids)
      (n_cons st
       + length (flat_map (λ gid, map (to_connection i) (connections_on gid)) gids))
      (src_domains st
       ++ map dom (flat_map (λ gid, map (to_connection i) (connections_on gid)) gids))
      (foldl bump (src_counts st)
         (map dom (flat_map (λ gid, map (to_connection i) (connections_on gid)) gids))).
Proof.
  revert st. induction gids as [|gid gids IH]; intros st Hfit.
  - destruct st. simpl. by rewrite !app_nil_r, Nat.add_0_r.
  - cbn [flat_map] in Hfit. rewrite length_app, length_map in Hfit.
    cbn [foldl].
    assert (n_cons (scan_gid connections_on gid_domain i st gid)
            = (n_cons st + length (connections_on gid))%nat) as Hn.
    { unfold scan_gid. cbv zeta. cbn [n_cons conns]. apply wrap32_nat_small. lia. }
    rewrite IH by (rewrite Hn; lia). rewrite Hn.
    unfold scan_gid. cbv zeta.
    cbn [gid_infos src_domains src_counts conns].
    rewrite (count_sources_spec i). cbn [fst snd flat_map map].
    rewrite !map_app, !length_app, !length_map, foldl_app, <- !app_assoc.
    f_equal. lia.
Qed.

Lemma scan_loop_spec (igs : list (nat * list Z)) (st : scan) :
  Z.of_nat (n_cons st
            + length (flat_map (λ ig : nat * list Z,
                        flat_map (λ gid, map (to_connection ig.1) (connections_on gid)) ig.2)
                        igs))
    < 2 ^ 32 →
  foldl (λ st ig, foldl (scan_gid connections_on gid_domain ig.1) st ig.2) st igs
  = mk_scan
      (gid_infos st
       ++ flat_map (λ ig : nat * list Z,
                      map (λ gid, mk_info gid ig.1 (connections_on gid)) ig.2) igs)
      (n_cons st
       + length (flat_map (λ ig : nat * list Z,
                   flat_map (λ gid, map (to_connection ig.1) (connections_on gid)) ig.2) igs))
      (src_domains st
       ++ map dom (flat_map (λ ig : nat * list Z,
                     flat_map (λ gid, map (to_connection ig.1) (connections_on gid)) ig.2)
                     igs))
      (foldl bump (src_counts st)
         (map dom (flat_map (λ ig : nat * list Z,
                     flat_map (λ gid, map (to_connection ig.1) (connections_on gid)) ig.2)
                     igs))).
Proof.
  revert st. induction igs as [|ig igs IH]; intros st Hfit.
  - destruct st. simpl. by rewrite !app_nil_r, Nat.add_0_r.
  - cbn [flat_map] in Hfit. rewrite length_app in Hfit.
    cbn [foldl]. rewrite scan_gids_spec by lia.
    rewrite IH by (cbn [n_cons]; lia).
    cbn [gid_infos n_cons src_domains src_counts flat_map].
    rewrite !map_app, !length_app, foldl_app, <- !app_assoc.
    f_equal. lia.
Qed.

(** The local connections are fewer than [2^32] and the rank of every
    source is one of the ranks. *)
Hypothesis connections_fit : Z.of_nat (length all) < 2 ^ 32.
Hypothesis sources_in_range :
  Forall (λ c, 0 ≤ gid_domain (gid (con_source c)) < Z.of_nat num_domains) all.

Lemma sources_on_ranks : Forall (λ c, (dom c < num_domains)%nat) all.
Proof.
  eapply Forall_impl; [exact sources_in_range|].
  intros x Hx. unfold source_domain. simpl in Hx. lia.
Qed.

(** What the first loop leaves. *)
Lemma scan_groups_spec :
  let s := scan_groups connections_on groups gid_domain num_domains in
  flat_map (λ cell, map (to_connection (local_group cell)) (conns cell)) (gid_infos s) = all
  ∧ n_cons s = length all
  ∧ src_domains s = map dom all
  ∧ src_counts s = foldl bump (replicate num_domains 0%nat) (map dom all).
Proof.
  cbv zeta. unfold scan_groups. rewrite scan_loop_spec by exact connections_fit.
  cbn [gid_infos n_cons src_domains src_counts app Nat.add].
  split; [|done]. unfold local_connections.
  induction (imap pair groups) as [|ig igs IH]; [done|].
  cbn [flat_map]. rewrite flat_map_app, IH. f_equal.
  induction ig.2 as [|gid gids IH2]; [done|]. cbn [map flat_map]. by rewrite IH2.
Qed.

(** The buckets when the connections [p] have been placed: for every
    rank the connections of [p] from it, in order, then what [resize] left. *)
Abbreviation buckets p :=
  (flat_map (λ d, from_domain d p
                  ++ replicate (length (from_domain d all) - length (from_domain d p))
                       connection_default)
            (seq 0 num_domains)).
Abbreviation part := (make_index 0 (map (λ d, length (from_domain d all)) (seq 0 num_domains))).

Lemma from_domain_all_perm (l : list connection) :
  Forall (λ c, (dom c < num_domains)%nat) l →
  flat_map (λ d, from_domain d l) (seq 0 num_domains) ≡ₚ l.
Proof.
  intros Hdom. apply (flat_map_filter_key_perm dom).
  - apply NoDup_ListNoDup, seq_NoDup.
  - intros c Hc. rewrite Forall_forall in Hdom. apply Hdom in Hc.
    apply list_elem_of_In, in_seq. lia.
Qed.

(** The buckets hold every local connection once. *)
Lemma buckets_total :
  list_sum (map (λ d, length (from_domain d all)) (seq 0 num_domains)) = length all.
Proof.
  rewrite <- (Permutation_length (from_domain_all_perm all sources_on_ranks)).
  by rewrite length_flat_map.
Qed.

Lemma part_lookup (d : nat) :
  (d ≤ num_domains)%nat →
  part !!! d = list_sum (map (λ d, length (from_domain d all)) (seq 0 d)).
Proof.
  intros Hd. rewrite make_index_lookup;
    [|rewrite buckets_total; exact connections_fit|by rewrite length_map, length_seq].
  simpl. f_equal. rewrite <- fmap_take. f_equal.
  replace num_domains with (d + (num_domains - d))%nat by lia.
  rewrite seq_app, take_app_length'; [done|by rewrite length_seq].
Qed.

(** A bucket ends within the table. *)
Lemma part_bucket_le (d : nat) :
  (d < num_domains)%nat →
  (part !!! d + length (from_domain d all) ≤ length all)%nat.
Proof.
  intros Hd. rewrite part_lookup by lia. rewrite <- buckets_total.
  replace (seq 0 num_domains) with (seq 0 (d + S (num_domains - S d)))
    by (f_equal; lia).
  rewrite seq_app, map_app, list_sum_app. simpl. lia.
Qed.

Lemma from_domain_prefix (d : nat) (p rest : list connection) :
  all = p ++ rest →
  length (from_domain d all)
  = (length (from_domain d p) + length (from_domain d rest))%nat.
Proof. intros ->. by rewrite List.filter_app, length_app. Qed.

Lemma buckets_before (d0 : nat) (p rest : list connection) :
  all = p ++ rest → (d0 ≤ num_domains)%nat →
  length (flat_map (λ d, from_domain d p
                         ++ replicate (length (from_domain d all) - length (from_domain d p))
                              connection_default) (seq 0 d0))
  = part !!! d0.
Proof.
  intros Hall Hd0. rewrite part_lookup by done. rewrite length_flat_map. f_equal.
  apply map_ext. intros d. rewrite length_app, length_replicate.
  rewrite (from_domain_prefix d p rest Hall). lia.
Qed.

Lemma from_domain_snoc_other (d : nat) (p : list connection) (c : connection) :
  dom c ≠ d → from_domain d (p ++ [c]) = from_domain d p.
Proof.
  intros Hne. rewrite List.filter_app. cbn [List.filter].
  rewrite bool_decide_eq_false_2 by done. by rewrite app_nil_r.
Qed.

Lemma from_domain_snoc_same (p : list connection) (c : connection) :
  from_domain (dom c) (p ++ [c]) = from_domain (dom c) p ++ [c].
Proof.
  rewrite List.filter_app. cbn [List.filter]. by rewrite bool_decide_eq_true_2.
Qed.

(** Placing the next connection in its bucket. *)
Lemma place_in_bucket (p rest : list connection) (c : connection) :
  all = p ++ c :: rest → (dom c < num_domains)%nat →
  <[(part !!! dom c + length (from_domain (dom c) p))%nat := c]> (buckets p)
  = buckets (p ++ [c]).
Proof.
  intros Hall Hd.
  rewrite <- (buckets_before (dom c) p (c :: rest) Hall) by lia.
  replace num_domains with (dom c + S (num_domains - S (dom c)))%nat by lia.
  rewrite !seq_app, !flat_map_app. cbn [seq flat_map Nat.add].
  rewrite insert_app_r. f_equal.
  { apply flat_map_ext_In. intros d Hin.
    apply in_seq in Hin. rewrite from_domain_snoc_other; [done|]. lia. }
  rewrite <- !app_assoc.
  replace (length (from_domain (dom c) p))
    with (length (from_domain (dom c) p) + 0)%nat at 1 by lia.
  rewrite insert_app_r, from_domain_snoc_same.
  rewrite <- app_assoc. f_equal.
  pose proof (from_domain_prefix (dom c) p (c :: rest) Hall) as Hcnt.
  cbn [List.filter] in Hcnt.
  rewrite bool_decide_eq_true_2 in Hcnt by done. cbn [length] in Hcnt.
  rewrite length_app. cbn [length].
  replace (length (from_domain (dom c) all) - length (from_domain (dom c) p))%nat
    with (S (length (from_domain (dom c) all) - (length (from_domain (dom c) p) + 1)))%nat
    by lia.
  cbn [replicate insert list_insert app]. do 2 f_equal.
  apply flat_map_ext_In. intros d Hin.
  apply in_seq in Hin. rewrite from_domain_snoc_other; [done|]. lia.
Qed.

(** The invariant of the second loop when the connections [p] have been
    placed. *)
Abbreviation filled p st :=
  (fill_connections st = buckets p
   ∧ pos st = length p
   ∧ length (offsets st) = S num_domains
   ∧ ∀ d, (d < num_domains)%nat →
       offsets st !!! d = (part !!! d + length (from_domain d p))%nat).

Lemma place_spec (cell : gid_info) (c : cell_connection) (p rest : list connection)
    (st : fill) :
  all = p ++ to_connection (local_group cell) c :: rest →
  (dom (to_connection (local_group cell) c) < num_domains)%nat →
  filled p st →
  filled (p ++ [to_connection (local_group cell) c]) (place (map dom all) cell st c).
Proof.
  intros Hall Hd (Hc & Hpos & Hlen & Hoff).
  set (con := to_connection (local_group cell) c) in *.
  assert (map dom all !!! pos st = dom con) as Hsrc.
  { rewrite Hpos, Hall, map_app. cbn [map].
    rewrite lookup_total_app_r by (by rewrite length_map).
    by rewrite length_map, Nat.sub_diag. }
  unfold place. cbv zeta. cbn [fill_connections offsets pos]. rewrite Hsrc.
  split; [|split; [|split]].
  - rewrite Hoff, Hc by done. by apply (place_in_bucket p rest).
  - rewrite length_app, Hpos. simpl. lia.
  - by rewrite length_alter.
  - intros d Hdlt. destruct (decide (d = dom con)) as [->|Hne].
    + rewrite list_lookup_total_alter_eq by lia. rewrite Hoff by done.
      rewrite from_domain_snoc_same, length_app.
      pose proof (part_bucket_le (dom con) Hd) as Hle.
      pose proof (from_domain_prefix (dom con) p (con :: rest) Hall) as Hcnt.
      cbn [List.filter] in Hcnt.
      rewrite bool_decide_eq_true_2 in Hcnt by done. cbn [length] in Hcnt.
      rewrite wrap32_nat_small by (pose proof connections_fit; lia).
      simpl. lia.
    + rewrite list_lookup_total_alter_ne by done. rewrite Hoff by done.
      by rewrite from_domain_snoc_other.
Qed.

Lemma place_cell_spec (cell : gid_info) (cs : list cell_connection)
    (p rest : list connection) (st : fill) :
  all = p ++ map (to_connection (local_group cell)) cs ++ rest →
  Forall (λ c, (dom c < num_domains)%nat) all →
  filled p st →
  filled (p ++ map (to_connection (local_group cell)) cs)
    (foldl (place (map dom all) cell) st cs).
Proof.
  intros Hall Hdom. revert p st Hall.
  induction cs as [|c cs IH]; intros p st Hall Hst; [by rewrite app_nil_r|].
  cbn [foldl map]. cbn [map app] in Hall.
  replace (p ++ to_connection (local_group cell) c :: map (to_connection (local_group cell)) cs)
    with ((p ++ [to_connection (local_group cell) c])
          ++ map (to_connection (local_group cell)) cs) by (by rewrite <- app_assoc).
  apply IH.
  - by rewrite <- app_assoc.
  - apply (place_spec cell c p (map (to_connection (local_group cell)) cs ++ rest));
      [done| |done].
    rewrite Forall_forall in Hdom. apply Hdom. rewrite Hall.
    apply elem_of_app. right. by left.
Qed.

Lemma place_cells_spec (infos : list gid_info) (p : list connection) (st : fill) :
  all = p ++ flat_map (λ cell, map (to_connection (local_group cell)) (conns cell)) infos →
  Forall (λ c, (dom c < num_domains)%nat) all →
  filled p st →
  filled all (foldl (λ st cell, foldl (place (map dom all) cell) st (conns cell)) st infos).
Proof.
  intros Hall Hdom. revert p st Hall.
  induction infos as [|cell infos IH]; intros p st Hall Hst.
  - simpl in Hall. rewrite app_nil_r in Hall. simpl. by rewrite <- Hall in Hst.
  - cbn [foldl flat_map] in *.
    apply (IH (p ++ map (to_connection (local_group cell)) (conns cell))).
    + by rewrite <- app_assoc.
    + apply (place_cell_spec cell (conns cell) p
               (flat_map (λ cell, map (to_connection (local_group cell)) (conns cell)) infos));
        done.
Qed.

Lemma filter_map_length {A B} (f : A → B) (p : B → bool) (l : list A) :
  length (List.filter p (map f l)) = length (List.filter (λ x, p (f x)) l).
Proof.
  induction l as [|x l IH]; [done|]. cbn [map List.filter].
  destruct (p (f x)); simpl; by rewrite IH.
Qed.

(** The counts of the first loop. *)
Lemma src_counts_eq :
  foldl bump (replicate num_domains 0%nat) (map dom all)
  = map (λ d, length (from_domain d all)) (seq 0 num_domains).
Proof.
  apply (list_eq_same_length _ _ num_domains).
  - by rewrite length_map, length_seq.
  - destruct num_domains as [|n] eqn:En.
    + simpl. by induction (map dom all).
    + destruct (foldl_bump_lookup (map dom all) (replicate (S n) 0%nat) 0) as [_ L];
        [by apply Forall_replicate; rewrite length_map
        |rewrite length_replicate; lia|].
      by rewrite L, length_replicate.
  - intros d x y Hd Hx Hy.
    destruct (foldl_bump_lookup (map dom all) (replicate num_domains 0%nat) d) as [E _];
      [by apply Forall_replicate; rewrite length_map|by rewrite length_replicate|].
    rewrite (list_lookup_total_correct _ _ _ Hx) in E.
    rewrite lookup_total_replicate_2 in E by done.
    rewrite list_lookup_fmap, lookup_seq_lt in Hy by done. simpl in Hy.
    injection Hy as <-. rewrite E. simpl.
    by rewrite (filter_map_length dom (λ x, bool_decide (x = d))).
Qed.

Lemma flat_map_replicate {A} (x : A) (f : nat → nat) (l : list nat) :
  flat_map (λ d, replicate (f d) x) l = replicate (list_sum (map f l)) x.
Proof.
  induction l as [|d l IH]; [done|]. cbn [flat_map]. rewrite IH.
  change (list_sum (map f (d :: l))) with (f d + list_sum (map f l))%nat.
  by rewrite replicate_add.
Qed.

Lemma part_last :
  Forall (λ c, (dom c < num_domains)%nat) all →
  part !!! num_domains = length all.
Proof.
  intros Hdom. rewrite part_lookup by done.
  rewrite <- (Permutation_length (from_domain_all_perm all Hdom)).
  by rewrite length_flat_map.
Qed.

(** The state in which the second loop starts. *)
Lemma filled_nil :
  Forall (λ c, (dom c < num_domains)%nat) all →
  filled (@nil connection) (mk_fill (replicate (length all) connection_default) part 0).
Proof.
  intros Hdom. cbn [fill_connections offsets pos List.filter length app].
  split; [|split; [done|split]].
  - rewrite (flat_map_ext _ (λ d, replicate (length (from_domain d all)) connection_default))
      by (intros d; by rewrite Nat.sub_0_r).
    rewrite flat_map_replicate. f_equal.
    rewrite <- part_lookup by done. by rewrite part_last.
  - by rewrite make_index_length, length_map, length_seq.
  - intros d Hd. lia.
Qed.

(** Lists cut in blocks along [part]. *)
Lemma blocks_before (F : nat → list connection) (j : nat) :
  (∀ d, length (F d) = length (from_domain d all)) →
  (j ≤ num_domains)%nat →
  length (flat_map F (seq 0 j)) = part !!! j.
Proof.
  intros HF Hj. rewrite part_lookup by done. rewrite length_flat_map. f_equal.
  apply map_ext. intros d. apply HF.
Qed.

Lemma blocks_split (F : nat → list connection) (j : nat) :
  (j < num_domains)%nat →
  flat_map F (seq 0 num_domains)
  = flat_map F (seq 0 j) ++ F j ++ flat_map F (seq (S j) (num_domains - S j)).
Proof.
  intros Hj. replace num_domains with (j + S (num_domains - S j))%nat at 1 by lia.
  by rewrite seq_app, flat_map_app.
Qed.

Lemma part_succ (F : nat → list connection) (j : nat) :
  (∀ d, length (F d) = length (from_domain d all)) →
  (j < num_domains)%nat →
  part !!! S j = (length (flat_map F (seq 0 j)) + length (F j))%nat.
Proof.
  intros HF Hj. rewrite <- (blocks_before F (S j)) by (done || lia).
  rewrite seq_S, flat_map_app, length_app. cbn [flat_map Nat.add]. by rewrite app_nil_r.
Qed.

Lemma block_at (F : nat → list connection) (j : nat) :
  (∀ d, length (F d) = length (from_domain d all)) →
  (j < num_domains)%nat →
  subrange_view (flat_map F (seq 0 num_domains)) (part !!! j) (part !!! S j) = F j.
Proof.
  intros HF Hj. unfold subrange_view.
  rewrite (part_succ F j HF Hj), <- (blocks_before F j) by (done || lia).
  rewrite (blocks_split F j Hj), drop_app_length.
  replace (length (flat_map F (seq 0 j)) + length (F j) - length (flat_map F (seq 0 j)))%nat
    with (length (F j)) by lia.
  by rewrite take_app_length.
Qed.

Lemma sort_partition_block (F : nat → list connection) (j : nat) :
  (∀ d, length (F d) = length (from_domain d all)) →
  (j < num_domains)%nat →
  sort_partition sort_connections part (flat_map F (seq 0 num_domains)) j
  = flat_map (λ d, if decide (d = j) then sort_connections (F d) else F d)
      (seq 0 num_domains).
Proof.
  intros HF Hj. unfold sort_partition. rewrite (block_at F j HF Hj).
  rewrite (part_succ F j HF Hj), <- (blocks_before F j) by (done || lia).
  rewrite (blocks_split F j Hj), take_app_length.
  rewrite (app_assoc (flat_map F (seq 0 j)) (F j)), drop_app_length';
    [|by rewrite length_app].
  rewrite (blocks_split (λ d, if decide (d = j) then sort_connections (F d) else F d) j Hj).
  rewrite decide_True by done. f_equal; [|f_equal].
  - apply flat_map_ext_In. intros d Hd. apply in_seq in Hd. by rewrite decide_False by lia.
  - apply flat_map_ext_In. intros d Hd. apply in_seq in Hd. by rewrite decide_False by lia.
Qed.

(** The sorts of the partitions, one rank after the other. *)
Lemma sort_partitions_spec (F : nat → list connection) (j : nat) :
  (∀ l, length (sort_connections l) = length l) →
  (∀ d, length (F d) = length (from_domain d all)) →
  (j ≤ num_domains)%nat →
  foldl (sort_partition sort_connections part) (flat_map F (seq 0 num_domains)) (seq 0 j)
  = flat_map (λ d, if decide (d < j)%nat then sort_connections (F d) else F d)
      (seq 0 num_domains).
Proof.
  intros Hsort HF. induction j as [|j IH]; intros Hj.
  - cbn [seq foldl]. apply flat_map_ext_In. intros d _.
    destruct (decide (d < 0)%nat); [lia|done].
  - rewrite seq_S, foldl_app, IH by lia. cbn [foldl Nat.add].
    rewrite sort_partition_block; [|intros d; destruct (decide (d < j)%nat);
                                      by rewrite ?Hsort, HF|lia].
    apply flat_map_ext_In. intros d _.
    destruct (decide (d = j)) as [->|Hne].
    + by rewrite decide_False, decide_True by lia.
    + destruct (decide (d < j)%nat); [by rewrite decide_True by lia|].
      by rewrite decide_False by lia.
Qed.

(** The communicator the constructor leaves. *)
Lemma make_eq :
  (∀ l, length (sort_connections l) = length l) →
  Forall (λ c, (dom c < num_domains)%nat) all →
  make connections_on groups gid_domain num_domains sort_connections
  = communicator.mk (length groups) num_domains
      (flat_map (λ d, sort_connections (from_domain d all)) (seq 0 num_domains))
      part 0.
Proof.
  intros Hsort Hdom. unfold make. cbv zeta.
  destruct scan_groups_spec as (Hinfos & Hn & Hsd & Hsc). cbv zeta in *.
  rewrite Hn, Hsd, Hsc, src_counts_eq. f_equal.
  destruct (place_cells_spec
              (gid_infos (scan_groups connections_on groups gid_domain num_domains))
              [] (mk_fill (replicate (length all) connection_default) part 0))
    as (-> & _); [by rewrite Hinfos|done|by apply filled_nil|].
  rewrite (flat_map_ext _ (λ d, from_domain d all)).
  2:{ intros d. by rewrite Nat.sub_diag, app_nil_r. }
  rewrite (sort_partitions_spec (λ d, from_domain d all)) by done.
  apply flat_map_ext_In. intros d Hd. apply in_seq in Hd. by rewrite decide_True by lia.
Qed.

Lemma sort_connections_length :
  std_sort_contract connection_lt sort_connections →
  ∀ l, length (sort_connections l) = length l.
Proof. intros Hsort l. destruct (Hsort l) as [P _]. by rewrite P. Qed.

(** The partition of a rank in the communicator constructed. *)
Lemma make_cons_of (d : nat) :
  std_sort_contract connection_lt sort_connections →
  Forall (λ c, (dom c < num_domains)%nat) all →
  (d < num_domains)%nat →
  communicator.cons_of
    (make connections_on groups gid_domain num_domains sort_connections) d
  = sort_connections (from_domain d all).
Proof.
  intros Hsort Hdom Hd. rewrite make_eq by (done || by apply sort_connections_length).
  unfold communicator.cons_of. cbn [communicator.connections_ communicator.connection_part_].
  apply (block_at (λ d, sort_connections (from_domain d all))); [|done].
  intros d'. by apply sort_connections_length.
Qed.

(** X18: the connection table that the constructor of [communicator]
    builds, with its 32-bit counters.  With fewer than 2^32 local
    connections ([connections_fit]) and the rank of every source in range
    ([sources_in_range]), the table holds, up to order, exactly the local
    connections, each with the index of the group of its target;
    [connection_part_] has one more entry than there are ranks, begins at
    0, ends at the number of connections and is ascending; and the
    partition of rank [d] holds exactly the connections whose source is on
    rank [d], sorted by source.  The numbers of groups and of ranks are
    those given and the spike counter starts at zero. *)
Theorem communicator_partitions_sorted_by_source :
  std_sort_contract connection_lt sort_connections →
  let c := make connections_on groups gid_domain num_domains sort_connections in
  communicator.num_local_groups_ c = length groups
  ∧ communicator.num_domains_ c = num_domains
  ∧ communicator.num_spikes c = 0
  ∧ communicator.connections_ c ≡ₚ all
  ∧ length (communicator.connection_part_ c) = S num_domains
  ∧ communicator.connection_part_ c !!! 0%nat = 0%nat
  ∧ communicator.connection_part_ c !!! num_domains = length (communicator.connections_ c)
  ∧ ∀ d, (d < num_domains)%nat →
      (communicator.connection_part_ c !!! d ≤ communicator.connection_part_ c !!! S d)%nat
      ∧ communicator.cons_of c d ≡ₚ from_domain d all
      ∧ sorted_by con_source (communicator.cons_of c d).
Proof.
  intros Hsort c. pose proof sources_on_ranks as Hdom.
  pose proof (sort_connections_length Hsort) as Hlen.
  assert (communicator.connections_ c ≡ₚ all) as Hperm.
  { unfold c. rewrite make_eq by done. cbn [communicator.connections_].
    etransitivity; [|apply (from_domain_all_perm all Hdom)].
    apply flat_map_perm_ext. intros d _. apply Hsort. }
  split; [by unfold c; rewrite make_eq|]. split; [by unfold c; rewrite make_eq|].
  split; [by unfold c; rewrite make_eq|]. split; [exact Hperm|].
  assert (communicator.connection_part_ c = part) as Hpart by (by unfold c; rewrite make_eq).
  rewrite Hpart.
  split; [by rewrite make_index_length, length_map, length_seq|].
  split; [by rewrite part_lookup by lia|].
  split; [by rewrite part_last, Hperm|].
  intros d Hd. split; [|split].
  - rewrite (part_succ (λ d, from_domain d all) d) by done.
    rewrite (blocks_before (λ d, from_domain d all) d) by (done || lia). lia.
  - unfold c. rewrite make_cons_of by done. apply Hsort.
  - unfold c. rewrite make_cons_of by done.
    destruct (Hsort (from_domain d all)) as [_ Hs].
    eapply Sorted_weaken; [|exact Hs]. intros a b Hab. simpl in Hab.
    unfold member_leb. unfold connection_lt in Hab. by rewrite Hab.
Qed.

(** X19: the events of a communicator as constructed.  For the
    communicator that the constructor builds with its 32-bit counters from
    fewer than 2^32 local connections ([connections_fit]) whose sources
    are on ranks in range ([sources_in_range]), and gathered spikes whose
    rank slices are sorted by source, the queue of the local group [g]
    holds, up to order, exactly one event for every pair of a local
    connection of group [g] and a spike, in the slice of the rank of the
    connection's source, with that source. *)
Theorem communicator_events_of_local_connections (gs : gathered_vector spike) (g : nat) :
  std_sort_contract connection_lt sort_connections →
  (∀ d, (d < num_domains)%nat → sorted_by source (communicator.spks_of gs d)) →
  (g < length groups)%nat →
  let c := make connections_on groups gid_domain num_domains sort_connections in
  ∃ q,
    communicator.make_event_queues c gs !! g = Some q
    ∧ q ≡ₚ flat_map (λ d, communicator.pair_events g (from_domain d all)
                            (communicator.spks_of gs d))
             (seq 0 num_domains).
Proof.
  intros Hsort Hspikes Hg c. pose proof sources_on_ranks as Hdom.
  assert (communicator.num_domains_ c = num_domains ∧ communicator.num_local_groups_ c = length groups) as [Hnd Hng].
  { unfold c. by rewrite make_eq by (done || by apply sort_connections_length). }
  destruct (make_event_queues_loop c gs (seq 0 (communicator.num_domains_ c))
              (replicate (communicator.num_local_groups_ c) []) g) as (new & E & P).
  { apply Forall_forall. intros d Hd. apply list_elem_of_In, in_seq in Hd.
    rewrite Hnd in Hd. split; [|apply Hspikes; lia].
    unfold c. rewrite make_cons_of by (done || lia).
    destruct (Hsort (from_domain d all)) as [_ Hs].
    eapply Sorted_weaken; [|exact Hs]. intros a b Hab. simpl in Hab.
    unfold member_leb. unfold connection_lt in Hab. by rewrite Hab. }
  exists new. split.
  - unfold communicator.make_event_queues. cbv zeta. rewrite E.
    rewrite lookup_replicate_2 by lia. done.
  - rewrite P, Hnd. apply flat_map_perm_ext. intros d Hd. apply in_seq in Hd.
    unfold c. rewrite make_cons_of by (done || lia).
    unfold communicator.pair_events. apply Permutation_flat_map. apply Hsort.
Qed.

End ctor.

(** ** The minimum delay *)

Lemma fold_min_elem (l : list connection) (init : Q) :
  foldl (λ local_min con, std_min local_min (con_delay con)) init l
  ∈ init :: map con_delay l.
Proof.
  revert init. induction l as [|c l IH]; intros init; [set_solver|].
  cbn [foldl map]. specialize (IH (std_min init (con_delay c))).
  apply elem_of_cons in IH as [IH|IH]; [|set_solver].
  rewrite IH. unfold std_min. destruct (Qltb _ _); set_solver.
Qed.

(** X20: on a transport whose min-reduction returns its argument (one
    rank, or a dry run) [min_delay] is the least delay of the local
    connections, and the largest time value when there is none: it is one
    of these values and no larger than any of them. *)
Theorem min_delay_is_least_delay (comms_ : communication_policy) (time_max : Q)
    (c : communicator.t) :
  (∀ v, comms_min comms_ v = v) →
  communicator.min_delay comms_ time_max c
    ∈ time_max :: map con_delay (communicator.connections_ c)
  ∧ (communicator.min_delay comms_ time_max c <= time_max)%Q
  ∧ ∀ con, con ∈ communicator.connections_ c →
      (communicator.min_delay comms_ time_max c <= con_delay con)%Q.
Proof.
  intros Hid. split; [|split].
  - unfold communicator.min_delay. cbv zeta. rewrite Hid. apply fold_min_elem.
  - unfold communicator.min_delay. cbv zeta. rewrite Hid. apply fold_min_le_init.
  - intros con Hcon. apply min_delay_le_delay; [|done].
    intros v. rewrite Hid. apply Qle_refl.
Qed.

(** ** The legacy domain decomposition *)

Lemma upper_bound_Z_le_length (l : list Z) (k : Z) :
  (upper_bound (λ k x : Z, (k <? x)%Z) l k ≤ length l)%nat.
Proof. induction l as [|x l IH]; simpl; [lia|]. destruct (k <? x); simpl; lia. Qed.

Lemma upper_bound_Z_before (l : list Z) (k : Z) (i : nat) :
  (i < upper_bound (λ k x : Z, (k <? x)%Z) l k)%nat → l !!! i ≤ k.
Proof.
  revert i. induction l as [|x l IH]; intros i; simpl; [lia|].
  destruct (k <? x) eqn:E; [lia|]. apply Z.ltb_ge in E.
  destruct i as [|i]; [done|]. intros Hi. apply IH. lia.
Qed.

Lemma upper_bound_Z_from (l : list Z) (k : Z) (i : nat) :
  StronglySorted Z.le l →
  (upper_bound (λ k x : Z, (k <? x)%Z) l k ≤ i < length l)%nat → k < l !!! i.
Proof.
  intros Hs. revert i. induction Hs as [|x l Hs IH Hx]; intros i; simpl; [lia|].
  destruct (k <? x) eqn:E.
  - apply Z.ltb_lt in E. intros Hi. destruct i as [|i]; [done|].
    assert (l !!! i ∈ l) as Hin by (apply list_elem_of_lookup_total_2; lia).
    rewrite Forall_forall in Hx. apply Hx in Hin.
    change ((x :: l) !!! S i) with (l !!! i). lia.
  - intros Hi. destruct i as [|i]; [lia|]. apply IH. lia.
Qed.

Lemma StronglySorted_Z_le_lookup (l : list Z) (i j : nat) :
  StronglySorted Z.le l → (i ≤ j < length l)%nat → l !!! i ≤ l !!! j.
Proof.
  intros Hs. revert i j. induction Hs as [|x l Hs IH Hx]; intros i j; simpl; [lia|].
  intros Hij. destruct i as [|i], j as [|j]; try lia.
  - rewrite Forall_forall in Hx. apply Hx.
    change ((x :: l) !!! S j) with (l !!! j). apply list_elem_of_lookup_total_2. lia.
  - apply IH. lia.
Qed.

(** X22: [gid_domain] and [is_local_gid] of the legacy
    [domain_decomposition].  For ascending block boundaries [gid_part_] of
    [num_domains_] blocks and a GID from the first boundary up to, but not
    including, the last, [gid_domain] returns the block [d] with
    [gid_part_[d] <= gid < gid_part_[d+1]], and [is_local_gid] holds on
    that domain and on no other. *)
Theorem gid_domain_is_the_owning_block (gid_part_ : list Z) (num_domains_ : nat) (gid : Z) :
  length gid_part_ = S num_domains_ →
  StronglySorted Z.le gid_part_ →
  gid_part_ !!! 0%nat ≤ gid < gid_part_ !!! num_domains_ →
  let d := domain_decomposition.gid_domain gid_part_ gid in
  0 ≤ d < Z.of_nat num_domains_
  ∧ gid_part_ !!! Z.to_nat d ≤ gid < gid_part_ !!! S (Z.to_nat d)
  ∧ ∀ domain_id_, (domain_id_ < num_domains_)%nat →
      (domain_decomposition.is_local_gid gid_part_ domain_id_ gid = true
       ↔ Z.of_nat domain_id_ = d).
Proof.
  intros Hlen Hs [Hlo Hhi] d. subst d. unfold domain_decomposition.gid_domain.
  set (p := upper_bound (λ k x : Z, (k <? x)%Z) gid_part_ gid).
  assert (p ≤ length gid_part_)%nat as Hp1 by apply upper_bound_Z_le_length.
  assert (0 < p)%nat as Hp0.
  { destruct (decide (p = 0%nat)) as [E|]; [|lia].
    pose proof (upper_bound_Z_from gid_part_ gid 0 Hs) as H. fold p in H. lia. }
  assert (p ≤ num_domains_)%nat as Hp2.
  { destruct (decide (p ≤ num_domains_)%nat); [done|].
    pose proof (upper_bound_Z_before gid_part_ gid num_domains_) as H. fold p in H. lia. }
  assert (Z.to_nat (Z.of_nat p - 1) = (p - 1)%nat) as -> by lia.
  assert (S (p - 1) = p) as -> by lia.
  assert (gid_part_ !!! (p - 1)%nat ≤ gid) as Hd1.
  { apply upper_bound_Z_before. fold p. lia. }
  assert (gid < gid_part_ !!! p) as Hd2.
  { apply upper_bound_Z_from; [done|]. fold p. lia. }
  split; [lia|]. split; [done|].
  intros d' Hd'. unfold domain_decomposition.is_local_gid.
  rewrite andb_true_iff, Z.leb_le, Z.ltb_lt. split.
  - intros [H1 H2].
    destruct (decide (d' < p - 1)%nat).
    { pose proof (StronglySorted_Z_le_lookup gid_part_ (S d') (p - 1) Hs). lia. }
    destruct (decide (p - 1 < d')%nat).
    { pose proof (StronglySorted_Z_le_lookup gid_part_ p d' Hs). lia. }
    lia.
  - intros E. assert (d' = (p - 1)%nat) as -> by lia.
    by assert (S (p - 1) = p) as -> by lia.
Qed.

(** ** The maximum of a sequence *)

Lemma max_value_fold_spec {V} (cmp : V → V → bool) (rest : list V) (m0 : V) :
  (∀ a, cmp a a = false) →
  (∀ a b c, cmp a b = true → cmp b c = true → cmp a c = true) →
  let m := foldl (λ m x, if cmp m x then x else m) m0 rest in
  (m = m0 ∨ cmp m0 m = true)
  ∧ m ∈ m0 :: rest
  ∧ ∀ x, x ∈ rest → cmp m x = false.
Proof.
  intros Hirr Htr. revert m0. induction rest as [|x rest IH]; intros m0; cbn [foldl].
  - cbv zeta. split; [by left|]. split; [set_solver|]. set_solver.
  - cbv zeta. destruct (cmp m0 x) eqn:E.
    + destruct (IH x) as (Hx & Hin & Hall).
      split; [right; destruct Hx as [->|Hx]; [done|by apply (Htr _ x)]|].
      split; [set_solver|].
      intros y [->|Hy]%elem_of_cons; [|by apply Hall].
      destruct Hx as [->|Hx]; [by apply Hirr|].
      destruct (cmp (foldl _ x rest) x) eqn:E'; [|done].
      by rewrite <- (Hirr x), (Htr _ _ _ Hx E').
    + destruct (IH m0) as (Hx & Hin & Hall). split; [done|]. split; [set_solver|].
      intros y [->|Hy]%elem_of_cons; [|by apply Hall].
      destruct Hx as [->|Hx]; [done|].
      destruct (cmp (foldl _ m0 rest) x) eqn:E'; [|done].
      by rewrite <- E, (Htr _ _ _ Hx E').
Qed.

(** X23: [util::max_value] returns the value-initialised [Value] for the
    empty sequence, and otherwise an element of the sequence that is less
    than no element of the sequence, for every comparison that is
    irreflexive and transitive. *)
Theorem max_value_is_a_maximum {V} (value_init : V) (cmp : V → V → bool) :
  (∀ a, cmp a a = false) →
  (∀ a b c, cmp a b = true → cmp b c = true → cmp a c = true) →
  max_value value_init cmp [] = value_init
  ∧ ∀ m rest,
      max_value value_init cmp (m :: rest) ∈ m :: rest
      ∧ ∀ x, x ∈ m :: rest → cmp (max_value value_init cmp (m :: rest)) x = false.
Proof.
  intros Hirr Htr. split; [done|]. intros m0 rest. cbn [max_value].
  destruct (max_value_fold_spec cmp rest m0 Hirr Htr) as (Hm & Hin & Hall).
  split; [done|]. intros x [->|Hx]%elem_of_cons; [|by apply Hall].
  destruct Hm as [->|Hm]; [by apply Hirr|].
  destruct (cmp (foldl _ m0 rest) m0) eqn:E'; [|done].
  by rewrite <- (Hirr m0), (Htr _ _ _ Hm E').
Qed.

(** ** The cell groups of the legacy domain decomposition *)

Lemma legacy_kind_lists_loop (rec : recipe) (l : list Z) (kl : cell_kind → list Z)
    (k : cell_kind) :
  foldl (λ kl gid, legacy_groups.push_back_gid kl (get_cell_kind rec gid) gid) kl l k
  = kl k ++ List.filter (λ gid, bool_decide (get_cell_kind rec gid = k)) l.
Proof.
  revert kl. induction l as [|x l IH]; intros kl; [by rewrite app_nil_r|].
  cbn [foldl List.filter]. rewrite IH. unfold legacy_groups.push_back_gid.
  destruct (decide (k = get_cell_kind rec x)) as [->|Hne].
  - rewrite bool_decide_eq_true_2 by done. by rewrite <- app_assoc.
  - rewrite bool_decide_eq_false_2 by done. done.
Qed.

Lemma legacy_kind_lists_eq (rec : recipe) (b e : Z) (k : cell_kind) :
  legacy_groups.kind_lists rec b e k
  = List.filter (λ gid, bool_decide (get_cell_kind rec gid = k)) (seqZ b (e - b)).
Proof. unfold legacy_groups.kind_lists. by rewrite legacy_kind_lists_loop. Qed.

(** The groups that the loop over the kinds makes of the kind [k]. *)
Lemma legacy_add_kind_eq (num_gpus : Z) (kl : cell_kind → list Z)
    (gs : list group_description) (k : cell_kind) :
  legacy_groups.add_kind num_gpus kl gs k
  = gs ++ (if negb (num_gpus =? 0) && legacy_groups.has_gpu_backend k
           then [mk_group k (kl k) gpu]
           else map (λ gid, mk_group k [gid] multicore) (kl k)).
Proof.
  unfold legacy_groups.add_kind. destruct (_ && _); [done|].
  revert gs. induction (kl k) as [|x l IH]; intros gs; [by rewrite app_nil_r|].
  cbn [foldl map]. rewrite IH. by rewrite <- app_assoc.
Qed.

Lemma legacy_groups_eq (num_gpus : Z) (kl : cell_kind → list Z) (kinds : list cell_kind)
    (gs : list group_description) :
  foldl (legacy_groups.add_kind num_gpus kl) gs kinds
  = gs ++ flat_map (λ k, if negb (num_gpus =? 0) && legacy_groups.has_gpu_backend k
                         then [mk_group k (kl k) gpu]
                         else map (λ gid, mk_group k [gid] multicore) (kl k)) kinds.
Proof.
  revert gs. induction kinds as [|k kinds IH]; intros gs; [by rewrite app_nil_r|].
  cbn [foldl flat_map]. rewrite IH, legacy_add_kind_eq. by rewrite <- app_assoc.
Qed.

(** X24: the cell groups of the legacy domain decomposition.  The groups
    that the constructor makes of the block [b, e) of the rank hold
    together, up to order, exactly the GIDs of the block.  Every group is
    non-empty and all its cells are of its kind.  A group is on the GPU
    only when the node has a GPU and the kind has a GPU implementation,
    and it then holds all the cells of its kind in the block, in ascending
    order; every other group is on the CPU cores and holds one cell.
    [kinds] holds every kind of a cell of the block once, and no other
    kind. *)
Theorem legacy_groups_partition_block (rec : recipe) (b e num_gpus : Z)
    (kinds : list cell_kind) :
  b ≤ e →
  NoDup kinds →
  (∀ k, k ∈ kinds ↔ ∃ gid, b ≤ gid < e ∧ get_cell_kind rec gid = k) →
  let groups := legacy_groups.groups_ rec b e num_gpus kinds in
  concat (map group_gids groups) ≡ₚ seqZ b (e - b)
  ∧ Forall (λ g,
       group_gids g ≠ []
       ∧ Forall (λ gid, get_cell_kind rec gid = group_kind g) (group_gids g)
       ∧ match group_backend g with
         | gpu =>
             num_gpus ≠ 0
             ∧ legacy_groups.has_gpu_backend (group_kind g) = true
             ∧ group_gids g
               = List.filter (λ gid, bool_decide (get_cell_kind rec gid = group_kind g))
                   (seqZ b (e - b))
         | multicore =>
             (num_gpus = 0 ∨ legacy_groups.has_gpu_backend (group_kind g) = false)
             ∧ length (group_gids g) = 1%nat
         end) groups.
Proof.
  intros Hbe ND Hkinds groups. subst groups. unfold legacy_groups.groups_.
  rewrite legacy_groups_eq. cbn [app]. split.
  - etransitivity;
      [|apply (flat_map_filter_key_perm (get_cell_kind rec) kinds (seqZ b (e - b)) ND)].
    + clear Hkinds ND. induction kinds as [|k kinds IH]; [done|].
      cbn [flat_map]. rewrite map_app, concat_app, IH.
      apply Permutation_app_tail. rewrite <- legacy_kind_lists_eq.
      destruct (_ && _).
      * simpl. by rewrite app_nil_r.
      * induction (legacy_groups.kind_lists rec b e k) as [|x l IHl]; [done|].
        simpl. by constructor.
    + intros x Hx. apply Hkinds. exists x. split; [|done].
      apply elem_of_seqZ in Hx. lia.
  - apply Forall_forall. intros g Hg.
    apply list_elem_of_In, in_flat_map in Hg as (k & Hk & Hg).
    apply list_elem_of_In in Hk. rewrite legacy_kind_lists_eq in Hg.
    destruct (negb (num_gpus =? 0) && legacy_groups.has_gpu_backend k) eqn:E.
    + destruct Hg as [<-|[]]. cbn [group_gids group_kind group_backend].
      apply andb_true_iff in E as [E1 E2]. apply negb_true_iff, Z.eqb_neq in E1.
      split; [|split; [|done]].
      * apply Hkinds in Hk as (gid & Hgid & Hkind). intros Hnil.
        assert (gid ∈ List.filter (λ gid, bool_decide (get_cell_kind rec gid = k))
                        (seqZ b (e - b))) as Hin.
        { apply list_elem_of_In, filter_In. split.
          - apply list_elem_of_In, elem_of_seqZ. lia.
          - by apply bool_decide_eq_true_2. }
        rewrite Hnil in Hin. by apply elem_of_nil in Hin.
      * apply Forall_forall. intros x Hx.
        apply list_elem_of_In, filter_In in Hx as [_ Hx]. by apply bool_decide_eq_true in Hx.
    + apply in_map_iff in Hg as (gid & <- & Hgid).
      cbn [group_gids group_kind group_backend].
      apply filter_In in Hgid as [_ Hgid]. apply bool_decide_eq_true in Hgid.
      split; [done|]. split; [by constructor|]. split; [|done].
      apply andb_false_iff in E as [E|E]; [left|by right].
      apply negb_false_iff, Z.eqb_eq in E. done.
Qed.

(** ** The theorems of this part on concrete inputs *)

Lemma dryrun_policy_generates_no_events_witness :
  communicator.make_event_queues examples.comm
    (dryrun_global_policy.gather_spikes examples.legacy_sizes examples.local_spikes)
  = replicate (communicator.num_local_groups_ examples.comm) [].
Proof.
  apply (dryrun_policy_generates_no_events examples.legacy_sizes examples.comm
           examples.local_spikes).
  reflexivity.
Defined.

Lemma run_epochs_tile_interval_witness :
  ∃ m' epochs,
    model.run examples.ticker examples.policy examples.sort_spikes examples.sort_events
      examples.float_max examples.round32 examples.queue_range 5 3 (1 # 40)
      examples.m_ring
    = Some (m', epochs)
    ∧ map fst epochs ++ [model.t_ m']
      = model.t_ examples.m_ring :: map (λ te, epoch.tfinal te.2) epochs
    ∧ map (λ te : Q * epoch.t, epoch.id te.2) epochs = seq 0 (length epochs)
    ∧ Forall (λ te : Q * epoch.t,
                (te.1 < epoch.tfinal te.2)%Q ∧ (epoch.tfinal te.2 <= 3)%Q) epochs
    ∧ ((model.t_ examples.m_ring < 3)%Q → (model.t_ m' == 3)%Q)
    ∧ ((3 <= model.t_ examples.m_ring)%Q
       → model.t_ m' = model.t_ examples.m_ring ∧ epochs = []).
Proof.
  eexists _, _. split; [by vm_compute|].
  eapply (run_epochs_tile_interval examples.ticker examples.policy examples.sort_spikes
           examples.sort_events examples.float_max examples.round32
           examples.queue_range 5 3 (1 # 40) examples.m_ring).
  - exact round32_rounding.
  - by vm_compute.
  - by vm_compute.
  - by vm_compute.
Defined.

(** A value of the format below [x] is below the rounded [x]. *)
Lemma round32_above (a x : Q) :
  (examples.round32 a == a)%Q → (a <= x)%Q → (a <= examples.round32 x)%Q.
Proof. intros Ha Hx. rewrite <- Ha. by apply round32_mono. Qed.

Lemma run_returns_when_passes_advance_witness :
  ∃ m' epochs,
    model.run examples.ticker examples.policy examples.sort_spikes examples.sort_events
      examples.float_max examples.round32 examples.queue_range 6 3 (1 # 40)
      examples.m_ring
    = Some (m', epochs)
    ∧ (length epochs ≤ 6)%nat.
Proof.
  apply (run_returns_when_passes_advance examples.ticker examples.policy
           examples.sort_spikes examples.sort_events examples.float_max examples.round32
           examples.queue_range 6 3 (1 # 40) (1 # 2) examples.m_ring).
  - reflexivity.
  - intros t Ht0 Ht.
    assert (examples.round32
              (communicator.min_delay examples.policy examples.float_max
                 (model.communicator_ examples.m_ring) / 2) = 1%Q) as -> by (by vm_compute).
    change (model.t_ examples.m_ring) with 0%Q in Ht0.
    destruct (Qlt_le_dec t (1 # 2));
      [apply (Qle_trans _ 1); [lra|apply round32_above; [by vm_compute|lra]]|].
    destruct (Qlt_le_dec t 1);
      [apply (Qle_trans _ (3 # 2)); [lra|apply round32_above; [by vm_compute|lra]]|].
    destruct (Qlt_le_dec t (3 # 2));
      [apply (Qle_trans _ 2); [lra|apply round32_above; [by vm_compute|lra]]|].
    destruct (Qlt_le_dec t 2);
      [apply (Qle_trans _ (5 # 2)); [lra|apply round32_above; [by vm_compute|lra]]|].
    destruct (Qlt_le_dec t (5 # 2));
      [apply (Qle_trans _ 3); [lra|apply round32_above; [by vm_compute|lra]]|].
    apply (Qle_trans _ (7 # 2)); [lra|apply round32_above; [by vm_compute|lra]].
  - by vm_compute.
Defined.

Lemma merge_events_conserves_events_witness :
  let m' := model.merge_events examples.sort_events [examples.ev1; mk_event 0 2 1] 0
              examples.m_lanes in
  model.event_lanes m' (S (epoch.id (model.epoch_ examples.m_lanes))) !!! 0%nat
  ≡ₚ [examples.ev1; mk_event 0 2 1]
     ++ List.filter
          (λ e, negb (model.event_time_less e (epoch.tfinal (model.epoch_ examples.m_lanes))))
          (model.event_lanes examples.m_lanes (epoch.id (model.epoch_ examples.m_lanes))
             !!! 0%nat)
  ∧ (∀ lane', lane' ≠ 0%nat →
       model.event_lanes m' (S (epoch.id (model.epoch_ examples.m_lanes))) !!! lane'
       = model.event_lanes examples.m_lanes (S (epoch.id (model.epoch_ examples.m_lanes)))
           !!! lane')
  ∧ model.event_lanes m' (epoch.id (model.epoch_ examples.m_lanes))
    = model.event_lanes examples.m_lanes (epoch.id (model.epoch_ examples.m_lanes)).
Proof.
  apply (merge_events_conserves_events examples.sort_events examples.m_lanes
           [examples.ev1; mk_event 0 2 1] 0).
  - apply insertion_sort_contract, event_time_lt_asym.
  - simpl. lia.
  - simpl. lia.
  - vm_compute. repeat constructor.
Defined.

Lemma pair_gid_domain_sorted (i : nat) :
  (i < partition_gid_domain.num_domains examples.pair_gid_domain)%nat →
  Sorted Z.le (partition_gid_domain.rank_gids examples.pair_gid_domain i).
Proof.
  intros Hi. destruct i as [|[|i]]; [| |simpl in Hi; lia];
    vm_compute; repeat constructor; discriminate.
Qed.

Lemma pair_gid_domain_well_formed : partition_gid_domain.well_formed examples.pair_gid_domain.
Proof. repeat split; vm_compute; repeat constructor. Qed.

Lemma partition_gid_domain_first_rank_witness :
  (∀ i : nat,
     partition_gid_domain.call examples.pair_gid_domain 2 = Z.of_nat i
     ↔ (i < partition_gid_domain.num_domains examples.pair_gid_domain)%nat
       ∧ 2 ∈ partition_gid_domain.rank_gids examples.pair_gid_domain i
       ∧ ∀ j, (j < i)%nat → 2 ∉ partition_gid_domain.rank_gids examples.pair_gid_domain j)
  ∧ (partition_gid_domain.call examples.pair_gid_domain 2 = -1
     ↔ ∀ i, (i < partition_gid_domain.num_domains examples.pair_gid_domain)%nat →
            2 ∉ partition_gid_domain.rank_gids examples.pair_gid_domain i)
  ∧ (partition_gid_domain.call examples.pair_gid_domain 2 = -1
     ∨ 0 ≤ partition_gid_domain.call examples.pair_gid_domain 2
         < Z.of_nat (partition_gid_domain.num_domains examples.pair_gid_domain)).
Proof.
  apply (partition_gid_domain_first_rank examples.pair_gid_domain 2).
  - exact pair_gid_domain_well_formed.
  - exact pair_gid_domain_sorted.
Defined.

Lemma dry_run_gid_domain_is_tile_witness :
  let p := partition_gid_domain.mk
             (dry_run_context_impl.gather_gids examples.dry_run [0; 1; 3]) 2 in
  (∀ i, (i < 2)%nat →
     partition_gid_domain.rank_gids p i = map (λ x, x + Z.of_nat i * 4) [0; 1; 3])
  ∧ (∀ (i : nat) x, (i < 2)%nat → x ∈ [0; 1; 3] →
       partition_gid_domain.call p (x + Z.of_nat i * 4) = Z.of_nat i)
  ∧ (∀ gid,
       (∀ (i : nat) x, (i < 2)%nat → x ∈ [0; 1; 3] → gid ≠ x + Z.of_nat i * 4) →
       partition_gid_domain.call p gid = -1).
Proof.
  apply (dry_run_gid_domain_is_tile examples.dry_run [0; 1; 3]).
  - simpl. lia.
  - simpl. lia.
  - simpl. lia.
  - simpl. lia.
  - repeat constructor; lia.
  - repeat constructor; simpl; lia.
Defined.

Lemma rec_pair_coupled_sym a b :
  load_balance.coupled examples.rec_pair a b → load_balance.coupled examples.rec_pair b a.
Proof. exact (rec_mixed_coupled_sym a b). Qed.

Lemma rec_pair_coupled_range a b :
  load_balance.coupled examples.rec_pair a b → 0 ≤ b < num_cells examples.rec_pair.
Proof. exact (rec_mixed_coupled_range a b). Qed.

Lemma rec_pair_decomposed (d : nat) :
  Z.of_nat d < 2 →
  load_balance.partition_load_balance 4 examples.rec_pair 2 d
  = Some (load_balance.decomposed (examples.pair_scs d) (examples.pair_regs d)
            (examples.pair_lgs d)).
Proof. intros Hd. destruct d as [|[|d]]; [by vm_compute|by vm_compute|lia]. Qed.

Lemma partition_load_balance_assigns_each_cell_once_witness :
  (∀ d : nat, Z.of_nat d < 2 →
     NoDup (examples.pair_lgs d) ∧ Sorted Z.le (examples.pair_lgs d)
     ∧ examples.pair_lgs d ≡ₚ examples.pair_regs d ++ concat (examples.pair_scs d)
     ∧ (∀ g, g ∈ examples.pair_lgs d → 0 ≤ g < num_cells examples.rec_pair)
     ∧ (∀ cg x, cg ∈ examples.pair_scs d → x ∈ cg →
          ∀ y, y ∈ cg ↔ load_balance.connected examples.rec_pair x y))
  ∧ (∀ g, 0 ≤ g < num_cells examples.rec_pair →
       ∃ d : nat, Z.of_nat d < 2 ∧ g ∈ examples.pair_lgs d)
  ∧ (∀ g (d d' : nat), Z.of_nat d < 2 → Z.of_nat d' < 2 →
       g ∈ examples.pair_lgs d → g ∈ examples.pair_lgs d' → d = d')
  ∧ (∀ a b (d : nat), Z.of_nat d < 2 →
       load_balance.connected examples.rec_pair a b →
       a ∈ examples.pair_lgs d → b ∈ examples.pair_lgs d).
Proof.
  apply (partition_load_balance_assigns_each_cell_once examples.rec_pair
           rec_pair_coupled_sym rec_pair_coupled_range 2 4
           examples.pair_scs examples.pair_regs examples.pair_lgs).
  - lia.
  - simpl. lia.
  - simpl. lia.
  - exact rec_pair_decomposed.
Defined.

Lemma pair_gid_domain_ranks (d : nat) :
  Z.of_nat d < 2 →
  partition_gid_domain.rank_gids examples.pair_gid_domain d = examples.pair_lgs d.
Proof. intros Hd. destruct d as [|[|d]]; [by vm_compute|by vm_compute|lia]. Qed.

Lemma gid_domain_of_decomposition_witness :
  (∀ g (d : nat), Z.of_nat d < 2 →
     partition_gid_domain.call examples.pair_gid_domain g = Z.of_nat d
     ↔ g ∈ examples.pair_lgs d)
  ∧ (∀ g, 0 ≤ g < num_cells examples.rec_pair →
       0 ≤ partition_gid_domain.call examples.pair_gid_domain g < 2)
  ∧ (∀ g, ¬ 0 ≤ g < num_cells examples.rec_pair →
       partition_gid_domain.call examples.pair_gid_domain g = -1)
  ∧ (∀ a b, load_balance.connected examples.rec_pair a b →
       partition_gid_domain.call examples.pair_gid_domain a
       = partition_gid_domain.call examples.pair_gid_domain b).
Proof.
  apply (gid_domain_of_decomposition examples.rec_pair
           rec_pair_coupled_sym rec_pair_coupled_range 2 4
           examples.pair_scs examples.pair_regs examples.pair_lgs
           examples.pair_gid_domain).
  - lia.
  - simpl. lia.
  - simpl. lia.
  - exact rec_pair_decomposed.
  - exact pair_gid_domain_well_formed.
  - reflexivity.
  - exact pair_gid_domain_ranks.
Defined.

Lemma partition_load_balance_groups_witness :
  let groups := group_builder.make_groups examples.rec_pair [[2; 3]] [] examples.hint_one
                  false (λ _, false) [cable] in
  concat (map group_gids groups) ≡ₚ [2; 3]
  ∧ Forall (λ g,
       group_gids g ≠ []
       ∧ Forall (λ x, get_cell_kind examples.rec_pair x = group_kind g) (group_gids g)
       ∧ group_backend g
         = (group_builder.backend_of (examples.hint_one (group_kind g)) false (λ _, false)
              (group_kind g)).1
       ∧ ((length (group_gids g)
           ≤ Nat.max 1 (group_builder.backend_of (examples.hint_one (group_kind g)) false
                          (λ _, false) (group_kind g)).2)%nat
          ∨ group_gids g ∈ [[2; 3]])) groups
  ∧ (∀ a b, a ∈ [2; 3] → load_balance.connected examples.rec_pair a b →
       ∃ g, g ∈ groups ∧ a ∈ group_gids g ∧ b ∈ group_gids g).
Proof.
  apply (partition_load_balance_groups examples.rec_pair 2 4 1 [[2; 3]] [] [2; 3]
           examples.hint_one false (λ _, false) [cable]
           rec_pair_coupled_sym rec_pair_coupled_range).
  - lia.
  - simpl. lia.
  - simpl. lia.
  - lia.
  - by vm_compute.
  - apply NoDup_singleton.
  - intros gid _. simpl. by left.
Defined.

Lemma connection_lt_asym a b : connection_lt a b = true → connection_lt b a = false.
Proof. apply member_ltb_asym. Qed.

Lemma communicator_partitions_sorted_by_source_witness :
  let c := communicator_ctor.make examples.connections_on examples.local_groups
             examples.rank_of_gid 2 examples.sort_connections in
  communicator.num_local_groups_ c = length examples.local_groups
  ∧ communicator.num_domains_ c = 2%nat
  ∧ communicator.num_spikes c = 0
  ∧ communicator.connections_ c
    ≡ₚ communicator_ctor.local_connections examples.connections_on examples.local_groups
  ∧ length (communicator.connection_part_ c) = 3%nat
  ∧ communicator.connection_part_ c !!! 0%nat = 0%nat
  ∧ communicator.connection_part_ c !!! 2%nat = length (communicator.connections_ c)
  ∧ ∀ d, (d < 2)%nat →
      (communicator.connection_part_ c !!! d ≤ communicator.connection_part_ c !!! S d)%nat
      ∧ communicator.cons_of c d
        ≡ₚ List.filter
             (λ c, bool_decide (communicator_ctor.source_domain examples.rank_of_gid c = d))
             (communicator_ctor.local_connections examples.connections_on
                examples.local_groups)
      ∧ sorted_by con_source (communicator.cons_of c d).
Proof.
  apply (communicator_partitions_sorted_by_source examples.connections_on
           examples.local_groups examples.rank_of_gid 2 examples.sort_connections).
  - by vm_compute.
  - vm_compute. repeat constructor; discriminate.
  - apply insertion_sort_contract, connection_lt_asym.
Defined.

Lemma communicator_events_of_local_connections_witness :
  let c := communicator_ctor.make examples.connections_on examples.local_groups
             examples.rank_of_gid 2 examples.sort_connections in
  ∃ q,
    communicator.make_event_queues c examples.gathered !! 0%nat = Some q
    ∧ q ≡ₚ flat_map
             (λ d, communicator.pair_events 0
                     (List.filter
                        (λ c, bool_decide
                                (communicator_ctor.source_domain examples.rank_of_gid c = d))
                        (communicator_ctor.local_connections examples.connections_on
                           examples.local_groups))
                     (communicator.spks_of examples.gathered d))
             (seq 0 2).
Proof.
  refine (communicator_events_of_local_connections examples.connections_on
            examples.local_groups examples.rank_of_gid 2 examples.sort_connections
            _ _ examples.gathered 0 _ _ _).
  - by vm_compute.
  - vm_compute. repeat constructor; discriminate.
  - apply insertion_sort_contract, connection_lt_asym.
  - intros d Hd. destruct d as [|[|d]]; [| |lia]; vm_compute; repeat constructor.
  - simpl. lia.
Defined.

Lemma gid_domain_is_the_owning_block_witness :
  let gid_part_ := domain_decomposition.gid_part_ 10 3 in
  let d := domain_decomposition.gid_domain gid_part_ 6 in
  0 ≤ d < Z.of_nat 3
  ∧ gid_part_ !!! Z.to_nat d ≤ 6 < gid_part_ !!! S (Z.to_nat d)
  ∧ ∀ domain_id_, (domain_id_ < 3)%nat →
      (domain_decomposition.is_local_gid gid_part_ domain_id_ 6 = true
       ↔ Z.of_nat domain_id_ = d).
Proof.
  apply (gid_domain_is_the_owning_block (domain_decomposition.gid_part_ 10 3) 3 6).
  - by vm_compute.
  - assert (domain_decomposition.gid_part_ 10 3 = [0; 3; 6; 10]) as -> by (by vm_compute).
    repeat constructor; lia.
  - vm_compute. split; [discriminate|reflexivity].
Defined.

Lemma max_value_is_a_maximum_witness :
  max_value 0 Z.ltb [] = 0
  ∧ ∀ m rest,
      max_value 0 Z.ltb (m :: rest) ∈ m :: rest
      ∧ ∀ x, x ∈ m :: rest → (max_value 0 Z.ltb (m :: rest) <? x) = false.
Proof.
  apply (max_value_is_a_maximum 0 Z.ltb).
  - intros a. apply Z.ltb_irrefl.
  - intros a b c. rewrite !Z.ltb_lt. lia.
Defined.

Lemma min_delay_is_least_delay_witness :
  communicator.min_delay examples.policy examples.float_max examples.comm
    ∈ examples.float_max :: map con_delay (communicator.connections_ examples.comm)
  ∧ (communicator.min_delay examples.policy examples.float_max examples.comm
     <= examples.float_max)%Q
  ∧ ∀ con, con ∈ communicator.connections_ examples.comm →
      (communicator.min_delay examples.policy examples.float_max examples.comm
       <= con_delay con)%Q.
Proof.
  apply (min_delay_is_least_delay examples.policy examples.float_max examples.comm).
  intros v. reflexivity.
Defined.

Lemma legacy_groups_partition_block_witness :
  let groups := legacy_groups.groups_ examples.rec_mixed 0 4 1 [cable; lif] in
  concat (map group_gids groups) ≡ₚ seqZ 0 (4 - 0)
  ∧ Forall (λ g,
       group_gids g ≠ []
       ∧ Forall (λ gid, get_cell_kind examples.rec_mixed gid = group_kind g) (group_gids g)
       ∧ match group_backend g with
         | gpu =>
             1 ≠ 0
             ∧ legacy_groups.has_gpu_backend (group_kind g) = true
             ∧ group_gids g
               = List.filter
                   (λ gid, bool_decide (get_cell_kind examples.rec_mixed gid = group_kind g))
                   (seqZ 0 (4 - 0))
         | multicore =>
             (1 = 0 ∨ legacy_groups.has_gpu_backend (group_kind g) = false)
             ∧ length (group_gids g) = 1%nat
         end) groups.
Proof.
  apply (legacy_groups_partition_block examples.rec_mixed 0 4 1 [cable; lif]).
  - lia.
  - repeat constructor; set_solver.
  - intros k. split.
    + intros Hk. apply elem_of_cons in Hk as [->|Hk].
      * exists 0. split; [lia|reflexivity].
      * apply list_elem_of_singleton in Hk as ->. exists 3. split; [lia|reflexivity].
    + intros (gid & _ & <-). simpl. destruct (gid =? 3); set_solver.
Defined.
